(** * project_threads.py: Mandelbrot set on a grid, computed by a pool of workers

    Shallow embedding of [src/python/project_threads.py] and the properties
    of its escape-time classifier, grid generator, band partitioner, worker
    pool and rasteriser.

    Python [int]s are [Z].  The coordinates are Python numbers: the
    functions are written once over the interfaces [Number] and [Power]
    and run on exact rationals ([Q] and, in lowest terms, [Qc]; they also
    cover [int] arguments) and on IEEE-754 binary64 ([float], the kernel's
    primitive floats, which is what CPython's [float] is).  What CPython
    leaves to the platform, the last bit of the C library's [pow], is a
    parameter ([Libm]). *)

From Stdlib Require Import ZArith QArith Qcanon Qfield Lia Lqa.
From Stdlib Require Import Floats.PrimFloat Floats.FloatOps Floats.SpecFloat.
From Stdlib Require Import Floats.FloatAxioms.
From stdpp Require Import base tactics option list sorting.

Local Open Scope Z_scope.

(** ** Exceptions *)

Inductive exn : Set :=
  | ZeroDivisionError
  | IndexError
  | OverflowError
  | ValueError.

Inductive result (A : Type) : Type :=
  | Ok (a : A)
  | Raise (e : exn).
Arguments Ok {A} a.
Arguments Raise {A} e.

#[export] Instance result_ret : MRet result := λ A a, Ok a.
#[export] Instance result_bind : MBind result := λ A B k m,
  match m with
  | Ok a => k a
  | Raise e => Raise e
  end.
#[export] Instance result_fmap : FMap result := λ A B f m,
  match m with
  | Ok a => Ok (f a)
  | Raise e => Raise e
  end.

(** ** Python numbers *)

Declare Scope num_scope.
Delimit Scope num_scope with num.

Class Number (R : Type) : Type := {
  of_int : Z → R;            (* an [int] operand of a mixed operation *)
  num_add : R → R → R;
  num_sub : R → R → R;
  num_mul : R → R → R;
  num_div : R → R → R;       (* [/] with a divisor that is not zero *)
  num_gt : R → R → bool;
  num_ge : R → R → bool;
}.

Infix "+" := num_add : num_scope.
Infix "-" := num_sub : num_scope.
Infix "*" := num_mul : num_scope.
Infix "/" := num_div : num_scope.
Infix ">?" := num_gt (at level 70, no associativity) : num_scope.
Infix ">=?" := num_ge (at level 70, no associativity) : num_scope.

(** [pow(r, 2)], which can raise. *)
Class Power (R : Type) : Type := {
  pow2 : R → result R;
}.

(** Arithmetic in which [pow(r, 2)] never raises: the exact rationals. *)
Class SquaresDefined (R : Type) `{Power R} : Prop :=
  pow2_defined : ∀ r : R, ∃ s : R, pow2 r = Ok s.

(** Exact arithmetic. *)
#[export] Instance Q_number : Number Q := {|
  of_int := inject_Z;
  num_add := Qplus;
  num_sub := Qminus;
  num_mul := Qmult;
  num_div := Qdiv;
  num_gt := fun a b => negb (Qle_bool a b);
  num_ge := fun a b => Qle_bool b a;
|}.

#[export] Instance Q_power : Power Q := {| pow2 := fun r => Ok (Qmult r r) |}.

(** Exact arithmetic on fractions in lowest terms, where equal numbers are
    identical. *)
#[export] Instance Qc_number : Number Qc := {|
  of_int := fun z => Q2Qc (inject_Z z);
  num_add := Qcplus;
  num_sub := Qcminus;
  num_mul := Qcmult;
  num_div := Qcdiv;
  num_gt := fun a b : Qc => negb (Qle_bool a b);
  num_ge := fun a b : Qc => Qle_bool b a;
|}.

#[export] Instance Qc_power : Power Qc := {| pow2 := fun r => Ok (Qcmult r r) |}.

(** binary64.  An [int] operand is rounded to the nearest float, as
    [float(i)] does for an [int] in the range of the floats; the
    [OverflowError] of an [int] from 2^1024 on is not modelled. *)
Definition float_of_int (z : Z) : float :=
  SF2Prim (binary_normalize prec emax z 0 false).

#[export] Instance float_number : Number float := {|
  of_int := float_of_int;
  num_add := PrimFloat.add;
  num_sub := PrimFloat.sub;
  num_mul := PrimFloat.mul;
  num_div := PrimFloat.div;
  num_gt := fun a b => PrimFloat.ltb b a;
  num_ge := fun a b => PrimFloat.leb b a;
|}.

(** The C library's [pow(x, 2.0)]: the value it returns and the value of
    [errno] after the call, 0 when the call did not set it.  C bounds the
    error of the value and does not fix its last bit. *)
Class Libm : Type := {
  libm_pow2 : float → float * Z;
}.

Definition ERANGE : Z := 34.

(** CPython's [_Py_ADJUST_ERANGE1]: an infinite result counts as a range
    error whether or not the library said so, a zero result never does. *)
Definition adjust_erange1 (ix : float) (errno : Z) : Z :=
  if errno =? 0 then (if is_infinity ix then ERANGE else 0)
  else if (errno =? ERANGE) && PrimFloat.eqb ix 0 then 0
  else errno.

(** CPython's [float_pow] for the exponent 2: NaN, the infinities, the
    zeros and 1 are answered without the C library; for any other base the
    library's [pow] is called on the absolute value, and a range error is
    raised as [OverflowError]. *)
Definition float_pow2 `{Libm} (iv : float) : result float :=
  if is_nan iv then Ok iv
  else if is_infinity iv then Ok (abs iv)
  else if PrimFloat.eqb iv 0 then Ok 0%float
  else
    let iv := if PrimFloat.ltb iv 0 then (- iv)%float else iv in
    if PrimFloat.eqb iv 1 then Ok 1%float
    else
      let '(ix, errno) := libm_pow2 iv in
      let errno := adjust_erange1 ix errno in
      if errno =? 0 then Ok ix
      else Raise (if errno =? ERANGE then OverflowError else ValueError).

#[export] Instance float_power `{Libm} : Power float := {| pow2 := float_pow2 |}.

(** A C library whose [pow(x, 2.0)] is the correctly rounded square, and
    which reports an overflow through [errno]. *)
Definition rounded_libm : Libm := {|
  libm_pow2 := fun x =>
    let v := (x * x)%float in (v, if is_infinity v then ERANGE else 0)
|}.

(** ** [mandelbrodt_pixel] (lines 11-27) *)

Section Classifier.
Context {R : Type} `{Number R} `{Power R}.
Variables (x y : R) (steps : Z).

(** The [while] loop; [fuel] bounds the number of times its test is
    evaluated.  The result carries the final value of [counter], the
    number of iterations that were run; an exception raised by [pow] at
    line 18 or 19 ends the loop. *)
Fixpoint while_loop (fuel : nat) (counter : Z) (re_z im_z : R)
    : option (result (bool * Z)) :=
  match fuel with
  | O => None
  | S fuel =>
    if counter <=? steps then
      let counter := counter + 1 in
      match pow2 re_z with
      | Raise e => Some (Raise e)
      | Ok re_z_square =>
        match pow2 im_z with
        | Raise e => Some (Raise e)
        | Ok im_z_square =>
          let re_buf := re_z in
          let im_buf := im_z in
          let re_z := (re_z_square - im_z_square + x)%num in
          let im_z := (of_int 2 * re_buf * im_buf + y)%num in
          if (re_z_square + im_z_square >=? of_int 4)%num
          then Some (Ok (false, counter))
          else while_loop fuel counter re_z im_z
        end
      end
    else Some (Ok (true, counter))
  end.

Definition mandelbrodt_run : option (result (bool * Z)) :=
  while_loop (S (Z.to_nat (steps + 1))) 0 (of_int 0) (of_int 0).

(** What the call returns or raises; the loop always ends within the fuel
    given ([mandelbrodt_run_total]), so the last branch is never taken. *)
Definition mandelbrodt_pixel : result bool :=
  match mandelbrodt_run with
  | Some (Ok (b, _)) => Ok b
  | Some (Raise e) => Raise e
  | None => Ok true
  end.

(** The recurrence z <- z^2 + c of the specification, c = x + iy, on
    pairs (re, im), and the escape test |z|^2 >= 4, both through the two
    squares of lines 18 and 19. *)
Definition squares (z : R * R) : result (R * R) :=
  re_z_square ← pow2 z.1; im_z_square ← pow2 z.2;
  mret (re_z_square, im_z_square).

Definition z_next (z : R * R) : result (R * R) :=
  s ← squares z; mret ((s.1 - s.2 + x)%num, (of_int 2 * z.1 * z.2 + y)%num).

Definition escaped (z : R * R) : result bool :=
  s ← squares z; mret (s.1 + s.2 >=? of_int 4)%num.

Fixpoint z_iter (k : nat) : result (R * R) :=
  match k with
  | O => Ok (of_int 0, of_int 0)
  | S k => z_iter k ≫= z_next
  end.

(** The test of the pass that is entered with the iterate z_k. *)
Definition escapes_at (k : nat) : result bool := z_iter k ≫= escaped.

(** The iterates from any pair [z] on: the pair after [j] passes. *)
Fixpoint trace (z : R * R) (j : nat) : result (R * R) :=
  match j with
  | O => Ok z
  | S j => z_next z ≫= λ z', trace z' j
  end.
End Classifier.

(** ** [mandelbrodt_job] (lines 30-36) and the shared [return_dict] *)

(** A Python [dict] with [int] keys: insertion-ordered, one entry per key.
    [values()] lists the entries in insertion order, which line 135 relies
    on, so the order is kept. *)
Definition dict (V : Type) : Type := list (Z * V).

Fixpoint dict_set {V} (k : Z) (v : V) (d : dict V) : dict V :=
  match d with
  | [] => [(k, v)]
  | (k', v') :: d =>
    if decide (k = k') then (k, v) :: d else (k', v') :: dict_set k v d
  end.

Fixpoint dict_get {V} (k : Z) (d : dict V) : option V :=
  match d with
  | [] => None
  | (k', v') :: d => if decide (k = k') then Some v' else dict_get k d
  end.

Definition dict_keys {V} (d : dict V) : list Z := d.*1.
Definition dict_values {V} (d : dict V) : list V := d.*2.

Section Job.
Context {R : Type} `{Number R} `{Power R}.

(** [[x, y, int(mandelbrodt_pixel(x, y, steps))]] *)
Definition classify (steps : Z) (xy : R * R) : result (R * R * Z) :=
  b ← mandelbrodt_pixel xy.1 xy.2 steps; mret (xy.1, xy.2, Z.b2z b).

(** Lines 31-33: the samples are classified in order; the first call that
    raises ends the job. *)
Definition return_list (xy_values : list (R * R)) (steps : Z)
    : result (list (R * R * Z)) :=
  mapM (classify steps) xy_values.

(** The dictionary after line 36, when the job gets there. *)
Definition mandelbrodt_job (xy_values : list (R * R)) (steps procnum : Z)
    (return_dict : dict (list (R * R * Z))) : result (dict (list (R * R * Z))) :=
  l ← return_list xy_values steps; mret (dict_set procnum l return_dict).
End Job.

(** ** [get_xy_pairs] (lines 56-76) *)

(** [range(n)] *)
Definition range (n : Z) : list Z := seqZ 0 n.

(** [l[i]] *)
Definition py_index {A} (l : list A) (i : Z) : result A :=
  let n := Z.of_nat (length l) in
  let j := if i <? 0 then i + n else i in
  if (0 <=? j) && (j <? n)
  then match l !! Z.to_nat j with Some a => Ok a | None => Raise IndexError end
  else Raise IndexError.

(** [l[start:stop]] *)
Definition py_slice {A} (l : list A) (start stop : Z) : list A :=
  let n := Z.of_nat (length l) in
  let clamp i := if i <? 0 then Z.max (i + n) 0 else Z.min i n in
  let a := clamp start in
  let b := clamp stop in
  take (Z.to_nat (b - a)) (drop (Z.to_nat a) l).

(** [int(a / b)] on two [int]s: the quotient truncated towards zero.  The
    division is a float division: for a dividend below 2^53 in absolute
    value, which the length of a list always is, the truncated float
    quotient is the integer one.  A larger dividend is rounded, and from
    2^1024 on the division raises [OverflowError]; neither is modelled, and
    the properties of calls with a [side_size] that is not the length of a
    list are stated for [|side_size| < 2^53]. *)
Definition int_truediv (a b : Z) : result Z :=
  if b =? 0 then Raise ZeroDivisionError else Ok (a ÷ b).

Section Partitioner.
Context {R : Type} `{Number R}.

(** [a / n] with an [int] divisor *)
Definition truediv_int (a : R) (n : Z) : result R :=
  if n =? 0 then Raise ZeroDivisionError else Ok (a / of_int n)%num.

(** Lines 57-59 and 62-64: the endpoints, swapped when out of order. *)
Definition oriented (rng : R * R) : R * R :=
  let '(v_min, v_max) := rng in
  if (v_min >? v_max)%num then (v_max, v_min) else (v_min, v_max).

(** Lines 67 and 68: [[v_min + i * v_step for i in range(side_size)]] *)
Definition grid_values (v_min v_step : R) (side_size : Z) : list R :=
  (λ i, (v_min + of_int i * v_step)%num) <$> range side_size.

(** [[(x, y) for x in xs for y in ys]] *)
Definition pairs_of (xs ys : list R) : list (R * R) :=
  x ← xs; y ← ys; [(x, y)].

(** [num_workers] is the module-level variable assigned at line 111, which
    lines 70 and 71 read instead of the parameter [workers]. *)
Variable num_workers : Z.

Definition get_xy_pairs (workers side_size : Z) (xrange yrange : R * R)
    : result (list (list (R * R))) :=
  let '(x_min, x_max) := oriented xrange in
  x_step ← truediv_int (x_max - x_min)%num side_size;
  let '(y_min, y_max) := oriented yrange in
  y_step ← truediv_int (y_max - y_min)%num side_size;
  let x_values := grid_values x_min x_step side_size in
  let y_values := grid_values y_min y_step side_size in
  interval_len ← int_truediv side_size num_workers;
  let intervals := (λ i, i * interval_len) <$> range (num_workers + 1) in
  mapM (λ i,
          lo ← py_index intervals i;
          hi ← py_index intervals (i + 1);
          mret (pairs_of (py_slice x_values lo hi) y_values))
       (range workers).

(** The part of [values] at the positions [i * len], ..., [(i + 1) * len - 1]:
    the values the specification assigns to band [i]. *)
Definition band_slice (values : list R) (len i : nat) : list R :=
  take len (drop (i * len) values).

(** Position [j] of the x-values is one of those of band [i]. *)
Definition owns (len i j : nat) : Prop :=
  (i * len ≤ j < (i + 1) * len)%nat.

(** The two coordinate sequences built on the way (lines 57-68). *)
Definition axis_values (side_size : Z) (rng : R * R) : result (list R) :=
  let '(v_min, v_max) := oriented rng in
  v_step ← truediv_int (v_max - v_min)%num side_size;
  mret (grid_values v_min v_step side_size).
End Partitioner.

(** ** [draw_fractal] (lines 39-53) *)

(** Values numpy can sort and compare: [==] and [<]. *)
Class Comparable (A : Type) : Type := {
  eqb : A → A → bool;
  ltb : A → A → bool;
}.

#[export] Instance nat_comparable : Comparable nat :=
  {| eqb := Nat.eqb; ltb := Nat.ltb |}.
#[export] Instance Z_comparable : Comparable Z :=
  {| eqb := Z.eqb; ltb := Z.ltb |}.
#[export] Instance Q_comparable : Comparable Q :=
  {| eqb := Qeq_bool; ltb := λ a b, negb (Qle_bool b a) |}.
#[export] Instance Qc_comparable : Comparable Qc :=
  {| eqb := λ a b : Qc, Qeq_bool a b; ltb := λ a b : Qc, negb (Qle_bool b a) |}.
#[export] Instance float_comparable : Comparable float :=
  {| eqb := PrimFloat.eqb; ltb := PrimFloat.ltb |}.

(** The laws of a total order whose [==] is identity: numbers without NaN,
    each value in one representation. *)
Class TotalOrderLaws (A : Type) `{Comparable A} : Prop := {
  eqb_eq : ∀ a b : A, eqb a b = true ↔ a = b;
  ltb_irrefl : ∀ a : A, ltb a a = false;
  ltb_trans : ∀ a b c : A, ltb a b = true → ltb b c = true → ltb a c = true;
  ltb_connex : ∀ a b : A, ltb a b = false → ltb b a = false → a = b;
}.

(** The laws [==] and [<] keep on every number type, binary64 included:
    a value equal to itself is a number, anything else a NaN, which is
    equal to nothing and in no order with anything; the numbers are in a
    total order up to [==], which need not be identity (0.0 and -0.0). *)
Class OrderLaws (A : Type) `{Comparable A} : Prop := {
  ord_eqb_sym : ∀ a b : A, eqb a b = true → eqb b a = true;
  ord_eqb_trans : ∀ a b c : A, eqb a b = true → eqb b c = true → eqb a c = true;
  ord_ltb_number : ∀ a b : A, ltb a b = true → eqb a a = true ∧ eqb b b = true;
  ord_ltb_eqb : ∀ a b : A, ltb a b = true → eqb a b = false;
  ord_ltb_trans : ∀ a b c : A, ltb a b = true → ltb b c = true → ltb a c = true;
  ord_trichotomy : ∀ a b : A, eqb a a = true → eqb b b = true →
    ltb a b = true ∨ eqb a b = true ∨ ltb b a = true;
}.

Section Numpy.
Context {A : Type} `{Comparable A}.

(** [a == a]: false for a NaN only. *)
Definition is_number (a : A) : bool := eqb a a.

(** The order numpy sorts by: [a < b], or [b] is a NaN and [a] is not, so
    that the NaNs come last. *)
Definition np_lt (a b : A) : bool :=
  ltb a b || (negb (is_number b) && is_number a).

Definition before : relation A := λ a b, np_lt a b = true.

(** [a <= b] as the sort sees it: not [b < a]. *)
Definition not_after : relation A := λ a b, np_lt b a = false.

#[export] Instance not_after_dec : RelDecision not_after.
Proof. intros a b. unfold not_after. apply _. Defined.

(** [np.sort(arr)] *)
Definition np_sort (arr : list A) : list A := merge_sort not_after arr.

(** Two neighbours of the sorted array that [np.unique] takes for one
    value: equal, or both NaN. *)
Definition np_same (a b : A) : bool :=
  eqb a b || (negb (is_number a) && negb (is_number b)).

(** The mask of [np.unique]: an element of the sorted array stays when it
    differs from the one before it. *)
Fixpoint drop_repeats (prev : A) (l : list A) : list A :=
  match l with
  | [] => []
  | a :: l =>
    if np_same a prev then drop_repeats a l else a :: drop_repeats a l
  end.

(** [np.unique(arr)] *)
Definition np_unique (arr : list A) : list A :=
  match np_sort arr with
  | [] => []
  | a :: l => a :: drop_repeats a l
  end.

(** [np.argsort(arr)]: the positions of the elements in sorted order,
    equal elements in the order of their positions. *)
Definition key_before : relation (nat * A) := λ p q,
  np_lt q.2 p.2 = false ∧ (np_lt p.2 q.2 = true ∨ (p.1 ≤ q.1)%nat).

#[export] Instance key_before_dec : RelDecision key_before.
Proof. intros p q. unfold key_before. apply _. Defined.

Definition np_argsort (arr : list A) : list nat :=
  (merge_sort key_before (imap pair arr)).*1.

(** [np.where(arr == element)] *)
Definition np_where_eq (arr : list A) (element : A) : list nat :=
  (filter (λ p, eqb p.2 element = true) (imap pair arr)).*1.
End Numpy.

(** [arr[indices]] for an array of positions inside [arr]. *)
Definition np_take {B} (arr : list B) (indices : list nat) : list B :=
  omap (λ i, arr !! i) indices.

(** [np.array(rows).ravel()] for a list of one-dimensional arrays: rows
    of one length make a matrix, which [ravel] lays end to end; rows of
    different lengths make [np.array] raise [ValueError] (numpy 1.24 and
    later). *)
Definition np_array_ravel {B} (rows : list (list B)) : result (list B) :=
  match rows with
  | [] => Ok []
  | row :: _ =>
    if forallb (λ r, length r =? length row)%nat rows
    then Ok (concat rows) else Raise ValueError
  end.

Section Ranks.
Context {A : Type} `{Comparable A}.

(** Lines 40-43.  Each element selects the ranks at the positions where
    [unique] equals it: one position for a number, none for a NaN. *)
Definition get_ranks (arr : list A) : result (list nat) :=
  let unique := np_unique arr in
  let ranks := np_argsort unique in
  np_array_ravel
    ((λ element, np_take ranks (np_where_eq unique element)) <$> arr).

(** The rank of one element against the distinct values [unique]. *)
Definition rank_of (unique : list A) (element : A) : nat :=
  default 0%nat
    (head (np_take (np_argsort unique) (np_where_eq unique element))).
End Ranks.

(** A PIL image of mode RGB: [size = (width, height)] and the rows of
    pixels, top row first. *)
Definition rgb : Type := Z * Z * Z.

Record image : Type := Image {
  im_size : nat * nat;
  im_rows : list (list rgb);
}.

(** [Image.new(mode='RGB', size=size)]: all black. *)
Definition Image_new (size : nat * nat) : image :=
  Image size (replicate size.2 (replicate size.1 (0, 0, 0))).

(** [im.putpixel(xy, value)] *)
Definition putpixel (im : image) (xy : nat * nat) (value : rgb) : result image :=
  if decide (xy.1 < (im_size im).1 ∧ xy.2 < (im_size im).2)%nat
  then Ok (Image (im_size im) (alter (<[xy.1 := value]>) xy.2 (im_rows im)))
  else Raise IndexError.

(** [im.getpixel(xy)] *)
Definition getpixel (im : image) (xy : nat * nat) : option rgb :=
  im_rows im !! xy.2 ≫= (.!! xy.1).

Section Raster.
Context {A : Type} `{Comparable A}.

(** One turn of the loop of lines 50-52. *)
Definition paint (im : image) (p : nat * nat * Z) : result image :=
  let '(x, y, c) := p in
  if decide (c ≠ 0) then putpixel im (x, y) (255, 255, 255) else Ok im.

(** [zip(x, y, color)] *)
Definition zip3 {X Y C} (x : list X) (y : list Y) (color : list C)
    : list (X * Y * C) :=
  zip (zip x y) color.

(** Lines 49-52: the image after the loop. *)
Definition raster (x y : list nat) (color : list Z) : result image :=
  let im := Image_new (length (np_unique x), length (np_unique y)) in
  foldl (λ r p, im ← r; paint im p) (Ok im) (zip3 x y color).

(** The image handed to [im.save].  [np.array] of an empty list has one
    axis, so [fractal_list[:, 0]] raises [IndexError]. *)
Definition draw_fractal (fractal_list : list (A * A * Z)) : result image :=
  match fractal_list with
  | [] => Raise IndexError
  | _ =>
    x ← get_ranks (fractal_list.*1.*1);
    y ← get_ranks (fractal_list.*1.*2);
    let color := fractal_list.*2 in
    raster x y color
  end.
End Raster.

(** ** The worker pool of [__main__] (lines 115-137) *)

Section Pool.
Context {R : Type} `{Number R} `{Power R} `{Comparable R}.
Variable steps : Z.

(** The processes started at line 125 that have not ended, by [procnum],
    and the manager's [return_dict]. *)
Record pool : Type := Pool {
  return_dict : dict (list (R * R * Z));
  alive : list Z;
}.

(** A process ends in one of two ways: [mandelbrodt_job] returns, having
    stored its list at line 36, or the process dies before that line,
    killed or with an exception of its own. *)
Inductive event : Set :=
  | Returns (procnum : Z)
  | Dies (procnum : Z).

Inductive pool_step (job_pairs : list (list (R * R)))
    : event → pool → pool → Prop :=
  | step_returns d d' live i xy_values :
      i ∈ live →
      py_index job_pairs i = Ok xy_values →
      mandelbrodt_job xy_values steps i d = Ok d' →
      pool_step job_pairs (Returns i) (Pool d live)
        (Pool d' (filter (λ j, j ≠ i) live))
  | step_dies d live i :
      i ∈ live →
      pool_step job_pairs (Dies i) (Pool d live)
        (Pool d (filter (λ j, j ≠ i) live)).

Inductive pool_run (job_pairs : list (list (R * R)))
    : list event → pool → pool → Prop :=
  | run_nil p : pool_run job_pairs [] p p
  | run_cons e es p p' p'' :
      pool_step job_pairs e p p' →
      pool_run job_pairs es p' p'' →
      pool_run job_pairs (e :: es) p p''.

(** Lines 121-125: one process per band, numbered by [enumerate]. *)
Definition started (job_pairs : list (list (R * R)))
    (d : dict (list (R * R * Z))) : pool :=
  Pool d (range (Z.of_nat (length job_pairs))).

(** Lines 127-128 return once no process is alive; [join] does not look
    at how a process ended. *)
Definition joined (p : pool) : Prop := alive p = [].

(** Lines 134-136 *)
Definition collect (d : dict (list (R * R * Z))) : list (R * R * Z) :=
  concat (dict_values d).

(** Line 137, for a pool that has been joined. *)
Definition render (p : pool) : result image :=
  draw_fractal (collect (return_dict p)).

Definition is_return (e : event) : Prop :=
  match e with Returns _ => True | Dies _ => False end.

Definition procnum_of (e : event) : Z :=
  match e with Returns i | Dies i => i end.

End Pool.

#[export] Instance event_eq_dec : EqDecision event.
Proof. solve_decision. Defined.

(** The rows of an image agree with its size. *)
Definition well_formed (im : image) : Prop :=
  length (im_rows im) = (im_size im).2 ∧
  Forall (λ row, length row = (im_size im).1) (im_rows im).

Section Samples.
Context {A : Type} `{Comparable A}.

(** Some sample of the list with a colour other than 0 has an x equal to
    the [i]-th distinct x-value and a y equal to the [j]-th distinct
    y-value of the list. *)
Definition member_at (fractal_list : list (A * A * Z)) (i j : nat) : Prop :=
  ∃ t u v, t ∈ fractal_list ∧ t.2 ≠ 0 ∧
    np_unique (fractal_list.*1.*1) !! i = Some u ∧ eqb u t.1.1 = true ∧
    np_unique (fractal_list.*1.*2) !! j = Some v ∧ eqb v t.1.2 = true.
End Samples.

(** ** The loops of [__main__] (lines 106-143) *)

(** Line 111: a negative [--num-workers] stands for all cores. *)
Definition resolve_workers (cpu_count num_workers_arg : Z) : Z :=
  if num_workers_arg <? 0 then cpu_count else num_workers_arg.

(** Lines 115-116: the iterations of the two loops, in order. *)
Definition runs (side_sizes : list Z) (reps : Z) : list (Z * Z) :=
  side_size ← side_sizes; rep ← range reps; [(side_size, rep)].

(** Line 142: [[size for size in args.side_size for _ in range(args.reps)]] *)
Definition sizes_repeated (side_sizes : list Z) (reps : Z) : list Z :=
  size ← side_sizes; _ ← range reps; [size].

(** Line 142: the rows written after the header, [zip(times, ...)]. *)
Definition csv_rows (times : list float) (side_sizes : list Z) (reps : Z)
    : list (float * Z) :=
  zip times (sizes_repeated side_sizes reps).

Section MainLoop.
Context {R : Type} `{Number R} `{Power R} `{Comparable R}.

(** What the loops carry from one iteration to the next: the manager's
    dictionary, made once at line 107, the list [times], and the images
    saved so far, each with the [side_size] and [rep] in its file name. *)
Record main_state : Type := MainState {
  shared : dict (list (R * R * Z));
  times : list float;
  saved : list (Z * Z * image);
}.

(** The initial state: lines 107 and 113. *)
Definition main_start : main_state := MainState [] [] [].

(** [num_workers], [args.steps], the two ranges, and whether line 132 lets
    the image be drawn. *)
Variables (num_workers steps : Z) (xrange yrange : R * R) (draw : bool).

(** One iteration (lines 117-137) that runs to its end: the bands are
    made, the processes end in the order [es], the duration [t] is
    recorded, and the image, when asked for, is drawn without an error.  An
    iteration in which a line raises has no end state: the program stops. *)
Inductive iteration : Z * Z → list event → main_state → main_state → Prop :=
  | iteration_timed side_size rep es st job_pairs p t :
      draw = false →
      get_xy_pairs num_workers num_workers side_size xrange yrange = Ok job_pairs →
      pool_run steps job_pairs es (started job_pairs (shared st)) p →
      joined p →
      iteration (side_size, rep) es st
        (MainState (return_dict p) (times st ++ [t]) (saved st))
  | iteration_drawn side_size rep es st job_pairs p t im :
      draw = true →
      get_xy_pairs num_workers num_workers side_size xrange yrange = Ok job_pairs →
      pool_run steps job_pairs es (started job_pairs (shared st)) p →
      joined p →
      render p = Ok im →
      iteration (side_size, rep) es st
        (MainState (return_dict p) (times st ++ [t])
                   (saved st ++ [(side_size, rep, im)])).

Inductive main_loop
    : list (Z * Z) → list (list event) → main_state → main_state → Prop :=
  | main_loop_nil st : main_loop [] [] st st
  | main_loop_cons run es rest ess st st' st'' :
      iteration run es st st' →
      main_loop rest ess st' st'' →
      main_loop (run :: rest) (es :: ess) st st''.
End MainLoop.

(** ** Auxiliary notions *)

(** A key of three integers for each binary64 number, such that [<] and
    [==] on the numbers are the dictionary order and the equality of the
    keys. *)
Definition SF_key (f : spec_float) : Z * Z * Z :=
  match f with
  | S754_zero _ => (0, 0, 0)
  | S754_infinity s => (if s then -2 else 2, 0, 0)
  | S754_nan => (0, 0, 0)
  | S754_finite s m e => if s then (-1, - e, - Z.pos m) else (1, e, Z.pos m)
  end.

Definition key_lt (p q : Z * Z * Z) : Prop :=
  p.1.1 < q.1.1 ∨
  (p.1.1 = q.1.1 ∧ (p.1.2 < q.1.2 ∨ (p.1.2 = q.1.2 ∧ p.2 < q.2))).

(** * Properties *)

(** ** The escape-time classifier *)

Section ClassifierFacts.
Context {R : Type} `{Number R} `{Power R}.
Variables (x y : R) (steps : Z).

Lemma z_iter_succ (k : nat) : z_iter x y (S k) = z_iter x y k ≫= z_next x y.
Proof. reflexivity. Qed.

(** A pass entered with [z]: its test and the pair it leaves. *)
Lemma pass_cases (z : R * R) :
  (∃ e, escaped z = Raise e ∧ z_next x y z = Raise e) ∨
  (∃ b z', escaped z = Ok b ∧ z_next x y z = Ok z').
Proof.
  unfold escaped, z_next, squares.
  destruct (pow2 z.1) as [a|e]; simpl; [|left; by exists e].
  destruct (pow2 z.2) as [b|e]; simpl; [|left; by exists e].
  right. by eexists _, _.
Qed.

Lemma trace_succ (z : R * R) (j : nat) :
  trace x y z (S j) = trace x y z j ≫= z_next x y.
Proof.
  revert z. induction j as [|j IH]; intros z.
  - simpl. by destruct (z_next x y z).
  - change (trace x y z (S (S j))) with (z_next x y z ≫= λ z', trace x y z' (S j)).
    change (trace x y z (S j)) with (z_next x y z ≫= λ z', trace x y z' j).
    destruct (z_next x y z) as [z'|e]; [|done]. simpl. apply IH.
Qed.

Lemma z_iter_trace (k : nat) : z_iter x y k = trace x y (of_int 0, of_int 0) k.
Proof.
  induction k as [|k IH]; [done|]. by rewrite z_iter_succ, trace_succ, IH.
Qed.

(** The loop entered with [counter = k] and [m] iterations left to go,
    from the pair [z]: it ends at the first of the next [m] passes whose
    test does not say no, with false when the test says yes and with the
    exception when a square raises, or after all [m] of them, with true. *)
Lemma while_loop_spec (m : nat) : ∀ (k : nat) (z : R * R) (fuel : nat),
  Z.of_nat k + Z.of_nat m = steps + 1 →
  (m < fuel)%nat →
  ∃ out, while_loop x y steps fuel (Z.of_nat k) z.1 z.2 = Some out ∧
    match out with
    | Ok (true, n) =>
        n = steps + 1 ∧
        ∀ j, (j < m)%nat → trace x y z j ≫= escaped = Ok false
    | Ok (false, n) =>
        ∃ j, (j < m)%nat ∧ n = Z.of_nat (k + j) + 1 ∧
          trace x y z j ≫= escaped = Ok true ∧
          ∀ i, (i < j)%nat → trace x y z i ≫= escaped = Ok false
    | Raise e =>
        ∃ j, (j < m)%nat ∧ trace x y z j ≫= escaped = Raise e ∧
          ∀ i, (i < j)%nat → trace x y z i ≫= escaped = Ok false
    end.
Proof.
  induction m as [|m IH]; intros k z fuel Hk Hfuel.
  - destruct fuel as [|fuel]; [lia|]. simpl.
    destruct (Z.leb_spec (Z.of_nat k) steps) as [Hle|Hgt]; [lia|].
    eexists. split; [done|]. simpl. split; [lia|]. intros j Hj. lia.
  - destruct fuel as [|fuel]; [lia|]. cbn [while_loop].
    destruct (Z.leb_spec (Z.of_nat k) steps) as [Hle|Hgt]; [|lia].
    unfold escaped, z_next, squares in *.
    destruct (pow2 z.1) as [a|e] eqn:Ha.
    2:{ eexists. split; [done|]. exists 0%nat. simpl. rewrite Ha.
        split; [lia|]. split; [done|]. intros i Hi. lia. }
    destruct (pow2 z.2) as [b|e] eqn:Hb.
    2:{ eexists. split; [done|]. exists 0%nat. simpl. rewrite Ha, Hb.
        split; [lia|]. split; [done|]. intros i Hi. lia. }
    destruct (a + b >=? of_int 4)%num eqn:Hesc.
    + eexists. split; [done|]. exists 0%nat. simpl. rewrite Ha, Hb. simpl.
      split; [lia|]. split; [lia|]. split; [by rewrite Hesc|].
      intros i Hi. lia.
    + destruct (IH (S k) ((a - b + x)%num, (of_int 2 * z.1 * z.2 + y)%num) fuel)
        as (out & Hrun & Hout); [lia|lia|].
      replace (Z.of_nat (S k)) with (Z.of_nat k + 1) in Hrun by lia.
      exists out. split; [exact Hrun|].
      assert (∀ j, trace x y z (S j) ≫= (λ z, s ← (re_z_square ← pow2 z.1;
                                              im_z_square ← pow2 z.2;
                                              mret (re_z_square, im_z_square));
                                         mret (s.1 + s.2 >=? of_int 4)%num)
                = trace x y ((a - b + x)%num, (of_int 2 * z.1 * z.2 + y)%num) j
                  ≫= (λ z, s ← (re_z_square ← pow2 z.1;
                               im_z_square ← pow2 z.2;
                               mret (re_z_square, im_z_square));
                          mret (s.1 + s.2 >=? of_int 4)%num)) as Hshift.
      { intros j. cbn [trace]. unfold z_next, squares. by rewrite Ha, Hb. }
      assert (trace x y z 0 ≫= (λ z, s ← (re_z_square ← pow2 z.1;
                                      im_z_square ← pow2 z.2;
                                      mret (re_z_square, im_z_square));
                                 mret (s.1 + s.2 >=? of_int 4)%num)
              = Ok false) as Hzero.
      { simpl. rewrite Ha, Hb. simpl. by rewrite Hesc. }
      destruct out as [[[] n]|e].
      * destruct Hout as [-> Hall]. split; [done|].
        intros [|j] Hj; [exact Hzero|]. rewrite Hshift. apply Hall. lia.
      * destruct Hout as (j & Hj & -> & Hj1 & Hj2).
        exists (S j). split; [lia|]. split; [lia|].
        rewrite Hshift. split; [exact Hj1|].
        intros [|i] Hi; [exact Hzero|]. rewrite Hshift. apply Hj2. lia.
      * destruct Hout as (j & Hj & Hj1 & Hj2).
        exists (S j). split; [lia|]. rewrite Hshift. split; [exact Hj1|].
        intros [|i] Hi; [exact Hzero|]. rewrite Hshift. apply Hj2. lia.
Qed.

(** What a call with [0 <= steps] returns or raises, and the [counter] it
    ends with. *)
Lemma mandelbrodt_run_spec :
  0 ≤ steps →
  ∃ out, mandelbrodt_run x y steps = Some out ∧
    match out with
    | Ok (true, n) =>
        n = steps + 1 ∧
        ∀ j, Z.of_nat j ≤ steps → escapes_at x y j = Ok false
    | Ok (false, n) =>
        ∃ j, Z.of_nat j ≤ steps ∧ n = Z.of_nat j + 1 ∧
          escapes_at x y j = Ok true ∧
          ∀ i, (i < j)%nat → escapes_at x y i = Ok false
    | Raise e =>
        ∃ j, Z.of_nat j ≤ steps ∧ escapes_at x y j = Raise e ∧
          ∀ i, (i < j)%nat → escapes_at x y i = Ok false
    end.
Proof.
  intros Hsteps. unfold mandelbrodt_run, escapes_at.
  destruct (while_loop_spec (Z.to_nat (steps + 1)) 0 (of_int 0, of_int 0)
              (S (Z.to_nat (steps + 1)))) as (out & Hrun & Hout); [lia|lia|].
  simpl in Hrun. exists out. split; [exact Hrun|].
  destruct out as [[[] n]|e].
  - destruct Hout as [-> Hall]. split; [done|]. intros j Hj.
    rewrite z_iter_trace. apply Hall. lia.
  - destruct Hout as (j & Hj & -> & Hj1 & Hj2). exists j.
    split; [lia|]. split; [lia|]. rewrite z_iter_trace. split; [exact Hj1|].
    intros i Hi. rewrite z_iter_trace. by apply Hj2.
  - destruct Hout as (j & Hj & Hj1 & Hj2). exists j.
    split; [lia|]. rewrite z_iter_trace. split; [exact Hj1|].
    intros i Hi. rewrite z_iter_trace. by apply Hj2.
Qed.

Lemma mandelbrodt_run_negative_steps :
  steps < 0 → mandelbrodt_run x y steps = Some (Ok (true, 0)).
Proof.
  intros Hneg. unfold mandelbrodt_run.
  replace (Z.to_nat (steps + 1)) with 0%nat by lia. simpl.
  by destruct (Z.leb_spec 0 steps); [lia|].
Qed.

(** The loop ends within the fuel it is given, whatever [steps] is. *)
Lemma mandelbrodt_run_total :
  ∃ out, mandelbrodt_run x y steps = Some out ∧
    mandelbrodt_pixel x y steps = fst <$> out.
Proof.
  destruct (Z.le_gt_cases 0 steps) as [Hle|Hlt].
  - destruct (mandelbrodt_run_spec Hle) as (out & Hrun & _).
    exists out. split; [done|]. unfold mandelbrodt_pixel. rewrite Hrun.
    by destruct out as [[b n]|e].
  - eexists. split; [by apply mandelbrodt_run_negative_steps|].
    unfold mandelbrodt_pixel. by rewrite mandelbrodt_run_negative_steps.
Qed.

(** Once a pass has raised there is no later iterate to test. *)
Lemma escapes_at_raise (i j : nat) (e : exn) :
  (i ≤ j)%nat → escapes_at x y i = Raise e → escapes_at x y j = Raise e.
Proof.
  intros Hij Hi. induction Hij as [|j _ IH]; [done|].
  unfold escapes_at in *. rewrite z_iter_succ.
  destruct (z_iter x y j) as [z|e']; [|done]. simpl in *.
  destruct (pass_cases z) as [(e' & He & Hn)|(b & z' & He & Hn)].
  - rewrite Hn. simpl. congruence.
  - congruence.
Qed.

Lemma mandelbrodt_pixel_false_iff :
  0 ≤ steps →
  mandelbrodt_pixel x y steps = Ok false ↔
  ∃ k, Z.of_nat k ≤ steps ∧ escapes_at x y k = Ok true.
Proof.
  intros Hsteps. destruct (mandelbrodt_run_spec Hsteps) as (out & Hrun & Hout).
  unfold mandelbrodt_pixel. rewrite Hrun. destruct out as [[[] n]|e].
  - destruct Hout as [_ Hall]. split; [done|].
    intros (k & Hk & Hesc). rewrite Hall in Hesc; [done|lia].
  - destruct Hout as (j & Hj & _ & Hesc & _). split; [|done]. eauto.
  - destruct Hout as (j & Hj & Hesc & Hbefore). split; [done|].
    intros (k & Hk & Hyes). destruct (Nat.lt_ge_cases k j) as [Hlt|Hge].
    + rewrite Hbefore in Hyes; done.
    + rewrite (escapes_at_raise j k e Hge Hesc) in Hyes. done.
Qed.

Lemma mandelbrodt_pixel_true_iff :
  0 ≤ steps →
  mandelbrodt_pixel x y steps = Ok true ↔
  ∀ k, Z.of_nat k ≤ steps → escapes_at x y k = Ok false.
Proof.
  intros Hsteps. destruct (mandelbrodt_run_spec Hsteps) as (out & Hrun & Hout).
  unfold mandelbrodt_pixel. rewrite Hrun. destruct out as [[[] n]|e].
  - destruct Hout as [_ Hall]. by split.
  - destruct Hout as (j & Hj & _ & Hesc & _). split; [done|].
    intros Hall. rewrite Hall in Hesc; done.
  - destruct Hout as (j & Hj & Hesc & _). split; [done|].
    intros Hall. rewrite Hall in Hesc; done.
Qed.

Lemma mandelbrodt_pixel_raise_iff (e : exn) :
  0 ≤ steps →
  mandelbrodt_pixel x y steps = Raise e ↔
  ∃ k, Z.of_nat k ≤ steps ∧ escapes_at x y k = Raise e ∧
       ∀ i, (i < k)%nat → escapes_at x y i = Ok false.
Proof.
  intros Hsteps. destruct (mandelbrodt_run_spec Hsteps) as (out & Hrun & Hout).
  unfold mandelbrodt_pixel. rewrite Hrun. destruct out as [[[] n]|e'].
  - destruct Hout as [_ Hall]. split; [done|].
    intros (k & Hk & Hesc & _). rewrite Hall in Hesc; [done|lia].
  - destruct Hout as (j & Hj & _ & Hesc & Hbefore). split; [done|].
    intros (k & Hk & Hraise & Hno).
    destruct (Nat.lt_trichotomy j k) as [Hlt|[->|Hgt]].
    + rewrite Hno in Hesc; done.
    + congruence.
    + rewrite Hbefore in Hraise; done.
  - destruct Hout as (j & Hj & Hesc & Hbefore). split.
    + intros [= ->]. eauto.
    + intros (k & Hk & Hraise & Hno).
      destruct (Nat.lt_trichotomy j k) as [Hlt|[->|Hgt]].
      * rewrite Hno in Hesc; done.
      * congruence.
      * rewrite Hbefore in Hraise; done.
Qed.
End ClassifierFacts.

(** C3 (as stated, refuted): in binary64 the sample (1e200, 0) with
    [steps = 1] is given neither false nor true.  The first pass tests
    z_0 = 0 and leaves z_1 = (1e200, 0); the second pass squares 1e200,
    [pow] overflows, and the call raises [OverflowError] at line 18. *)
Lemma mandelbrodt_pixel_square_overflows :
  ¬ (∀ (L : Libm) (x y : float) (steps : Z),
       0 < steps →
       ∃ b, mandelbrodt_pixel x y steps = Ok b ∧
            (b = false ↔
               ∃ k, Z.of_nat k ≤ steps ∧ escapes_at x y k = Ok true)).
Proof.
  intros Hclaim.
  destruct (Hclaim rounded_libm 1e200%float 0%float 1 ltac:(lia)) as (b & Hb & _).
  vm_compute in Hb. discriminate Hb.
Qed.

Section EscapeTime.
Context {R : Type} `{Number R} `{Power R}.
Variables (x y : R) (steps : Z).

(** C3 (amended): for positive [steps] the call ends after at most
    [steps + 1] passes of z <- z^2 + c from z = 0, each testing
    |z|^2 >= 4 on the z it was entered with.  It returns false exactly
    when the test of one of z_0 .. z_steps says yes, stopping at the first;
    true exactly when the tests of all of them say no, after all
    [steps + 1] passes; and when [pow] raises on an iterate before any test
    has said yes, the call raises that exception and returns nothing. *)
Theorem mandelbrodt_pixel_escape_time :
  0 < steps →
  ∃ out, mandelbrodt_run x y steps = Some out ∧
    mandelbrodt_pixel x y steps = fst <$> out ∧
    (∀ b n, out = Ok (b, n) → 1 ≤ n ≤ steps + 1) ∧
    (mandelbrodt_pixel x y steps = Ok false ↔
       ∃ k, Z.of_nat k ≤ steps ∧ escapes_at x y k = Ok true) ∧
    (mandelbrodt_pixel x y steps = Ok true ↔
       ∀ k, Z.of_nat k ≤ steps → escapes_at x y k = Ok false) ∧
    (∀ e, mandelbrodt_pixel x y steps = Raise e ↔
       ∃ k, Z.of_nat k ≤ steps ∧ escapes_at x y k = Raise e ∧
            ∀ i, (i < k)%nat → escapes_at x y i = Ok false) ∧
    (∀ n, out = Ok (true, n) → n = steps + 1) ∧
    (∀ n, out = Ok (false, n) →
       escapes_at x y (Z.to_nat (n - 1)) = Ok true ∧
       ∀ k, Z.of_nat k < n - 1 → escapes_at x y k = Ok false).
Proof.
  intros Hsteps. assert (0 ≤ steps) as Hsteps' by lia.
  destruct (mandelbrodt_run_spec x y steps Hsteps') as (out & Hrun & Hout).
  exists out. split; [exact Hrun|]. split.
  { unfold mandelbrodt_pixel. rewrite Hrun. by destruct out as [[b n]|e]. }
  split.
  { intros b n ->. destruct b.
    - destruct Hout as [-> _]. lia.
    - destruct Hout as (j & ? & -> & _). lia. }
  split; [by apply mandelbrodt_pixel_false_iff|].
  split; [by apply mandelbrodt_pixel_true_iff|].
  split; [intros e; by apply mandelbrodt_pixel_raise_iff|].
  split.
  - intros n ->. apply Hout.
  - intros n ->. destruct Hout as (j & Hj & -> & Hesc & Hbefore).
    replace (Z.to_nat (Z.of_nat j + 1 - 1)) with j by lia.
    split; [exact Hesc|]. intros k Hk. apply Hbefore. lia.
Qed.
End EscapeTime.

Lemma mandelbrodt_pixel_escape_time_witness :
  ∃ out,
    mandelbrodt_run (H0:=float_power (H:=rounded_libm)) 0.25%float 0.5%float 3
      = Some out ∧
    mandelbrodt_pixel (H0:=float_power (H:=rounded_libm)) 0.25%float 0.5%float 3
      = fst <$> out.
Proof.
  destruct (mandelbrodt_pixel_escape_time (H0:=float_power (H:=rounded_libm))
              0.25%float 0.5%float 3 ltac:(lia)) as (out & Hrun & Hpix & _).
  exists out. split; [exact Hrun|exact Hpix].
Defined.

(** *** Reference points *)

Section ReferencePoints.
Local Open Scope Q_scope.

Lemma Q_escaped (z : Q * Q) :
  escaped z = Ok (Qle_bool 4 (z.1 * z.1 + z.2 * z.2)).
Proof. reflexivity. Qed.

Lemma Q_z_next (x y : Q) (z : Q * Q) :
  z_next x y z = Ok (z.1 * z.1 - z.2 * z.2 + x, 2 * z.1 * z.2 + y).
Proof. reflexivity. Qed.

(** In exact arithmetic no pass raises. *)
Lemma Q_z_iter_ok (x y : Q) (k : nat) : ∃ z, z_iter x y k = Ok z.
Proof.
  induction k as [|k [z Hz]]; [by eexists|].
  rewrite z_iter_succ, Hz. simpl. by eexists.
Qed.

Lemma Q_escapes_at_one (x y : Q) :
  escapes_at x y 1 = Ok (Qle_bool 4 (x * x + y * y)).
Proof.
  unfold escapes_at. simpl. rewrite Q_escaped. f_equal.
  apply Qleb_comp; [reflexivity|simpl; ring].
Qed.

Lemma Q_escapes_at_zero (x y : Q) : escapes_at x y 0 = Ok false.
Proof. by vm_compute. Qed.

Lemma Q_z_iter_origin (k : nat) : z_iter (R:=Q) 0 0 k = Ok (0, 0).
Proof.
  induction k as [|k IH]; [done|]. rewrite z_iter_succ, IH. reflexivity.
Qed.

(** C4 (as stated, refuted): the point (2, 2) has x^2 + y^2 = 8 >= 4 and is
    classified a member when [steps = 0]. *)
Lemma pixel_beyond_radius_member_at_zero_steps :
  ¬ (∀ x y : Q, Qle_bool 4 (x * x + y * y) = true →
                mandelbrodt_pixel x y 0%Z = Ok false).
Proof. intros Hclaim. specialize (Hclaim 2 2 eq_refl). discriminate Hclaim. Qed.
End ReferencePoints.

Section FloatPoints.
Context `{Libm}.

Lemma float_zero_add (x : float) : (0 + x)%float = x ∨ x = (-0)%float.
Proof.
  destruct (Prim2SF x) as [[]| | |] eqn:Hx.
  - right. rewrite <- (SF2Prim_Prim2SF x), Hx. reflexivity.
  - left. apply Prim2SF_inj. rewrite add_spec, Hx. reflexivity.
  - left. apply Prim2SF_inj. rewrite add_spec, Hx. reflexivity.
  - left. apply Prim2SF_inj. rewrite add_spec, Hx. reflexivity.
  - left. apply Prim2SF_inj. rewrite add_spec, Hx. reflexivity.
Qed.

(** Adding the sample to the zero of the first pass changes at most the
    sign of a zero, which squaring does not see. *)
Lemma float_pow2_zero_add (x : float) : pow2 (0 + x)%float = pow2 x.
Proof. destruct (float_zero_add x) as [->| ->]; reflexivity. Qed.

Lemma float_escapes_at_zero (x y : float) : escapes_at x y 0 = Ok false.
Proof. reflexivity. Qed.

Lemma float_escapes_at_one (x y : float) :
  escapes_at x y 1 = escaped (x, y).
Proof.
  unfold escapes_at.
  assert (z_iter x y 1 = Ok ((0 + x)%float, (0 + y)%float)) as ->
    by reflexivity.
  simpl. unfold escaped, squares. cbn [fst snd].
  by rewrite !float_pow2_zero_add.
Qed.

Lemma float_z_iter_origin (k : nat) :
  z_iter 0%float 0%float k = Ok (0%float, 0%float).
Proof.
  induction k as [|k IH]; [done|]. rewrite z_iter_succ, IH. reflexivity.
Qed.
End FloatPoints.

(** C4 (amended): with [steps = 0] every sample is classified a member,
    since the one test is made on z_0 = 0.  With [steps >= 1] a sample
    whose squares sum to at least 4 is classified a non-member on the
    second pass, in every arithmetic: in exact arithmetic that is every
    sample with x^2 + y^2 >= 4; in binary64 the squares are those [pow]
    returns, and the call raises instead when [pow] raises on one of them.
    (0, 0) is a member for every [steps]; (2, 2) is a non-member for every
    [steps >= 1]. *)
Theorem pixel_beyond_radius_escapes_after_one_step :
  (∀ (R : Type) (HN : Number R) (HP : Power R) (x y : R) (steps : Z),
     escapes_at x y 0 = Ok false →
     mandelbrodt_pixel x y 0 = Ok true ∧
     (1 ≤ steps → escapes_at x y 1 = Ok true →
      mandelbrodt_pixel x y steps = Ok false) ∧
     (∀ e, 1 ≤ steps → escapes_at x y 1 = Raise e →
      mandelbrodt_pixel x y steps = Raise e)) ∧
  (∀ (x y : Q) (steps : Z),
     mandelbrodt_pixel x y 0 = Ok true ∧
     (1 ≤ steps → (4 <= x * x + y * y)%Q →
      mandelbrodt_pixel x y steps = Ok false) ∧
     mandelbrodt_pixel 0%Q 0%Q steps = Ok true ∧
     (1 ≤ steps → mandelbrodt_pixel 2%Q 2%Q steps = Ok false)) ∧
  (∀ (L : Libm) (x y : float) (steps : Z),
     mandelbrodt_pixel x y 0 = Ok true ∧
     (∀ p q, 1 ≤ steps → pow2 x = Ok p → pow2 y = Ok q →
        (p + q >=? of_int 4)%num = true →
        mandelbrodt_pixel x y steps = Ok false) ∧
     (∀ e, 1 ≤ steps → squares (x, y) = Raise e →
        mandelbrodt_pixel x y steps = Raise e) ∧
     mandelbrodt_pixel 0%float 0%float steps = Ok true ∧
     (1 ≤ steps → libm_pow2 2 = (4%float, 0) →
      mandelbrodt_pixel 2%float 2%float steps = Ok false)).
Proof.
  assert (∀ (R : Type) (HN : Number R) (HP : Power R) (x y : R) (steps : Z),
     escapes_at x y 0 = Ok false →
     mandelbrodt_pixel x y 0 = Ok true ∧
     (1 ≤ steps → escapes_at x y 1 = Ok true →
      mandelbrodt_pixel x y steps = Ok false) ∧
     (∀ e, 1 ≤ steps → escapes_at x y 1 = Raise e →
      mandelbrodt_pixel x y steps = Raise e)) as Hany.
  { intros R HN HP x y steps Hzero. split; [|split].
    - apply mandelbrodt_pixel_true_iff; [done|].
      intros k Hk. by replace k with 0%nat by lia.
    - intros Hsteps Hone. apply mandelbrodt_pixel_false_iff; [lia|].
      exists 1%nat. split; [lia|done].
    - intros e Hsteps Hone. apply mandelbrodt_pixel_raise_iff; [lia|].
      exists 1%nat. split; [lia|]. split; [done|].
      intros i Hi. by replace i with 0%nat by lia. }
  assert (∀ (R : Type) (HN : Number R) (HP : Power R) (x y : R) (steps : Z),
     (∀ k, escapes_at x y k = Ok false) →
     mandelbrodt_pixel x y steps = Ok true) as Horigin.
  { intros R HN HP x y steps Hno.
    destruct (Z.le_gt_cases 0 steps) as [Hle|Hlt].
    - apply mandelbrodt_pixel_true_iff; [done|]. intros k _. apply Hno.
    - unfold mandelbrodt_pixel. by rewrite mandelbrodt_run_negative_steps. }
  split; [exact Hany|]. split.
  - intros x y steps.
    destruct (Hany Q _ _ x y steps (Q_escapes_at_zero x y)) as (Hzero & Hout & _).
    assert (∀ u v : Q, 1 ≤ steps → (4 <= u * u + v * v)%Q →
                       mandelbrodt_pixel u v steps = Ok false) as Hbeyond.
    { intros u v Hsteps Hnorm.
      destruct (Hany Q _ _ u v steps (Q_escapes_at_zero u v)) as (_ & Hu & _).
      apply Hu; [done|]. rewrite Q_escapes_at_one. f_equal.
      by apply Qle_bool_iff. }
    split; [done|]. split; [apply Hbeyond|]. split.
    + apply Horigin. intros k. unfold escapes_at.
      by rewrite Q_z_iter_origin.
    + intros Hsteps. apply Hbeyond; [done|]. by compute.
  - intros L x y steps.
    destruct (Hany float _ _ x y steps (float_escapes_at_zero x y))
      as (Hzero & Hout & Hraise).
    split; [done|]. split; [|split; [|split]].
    + intros p q Hsteps Hp Hq Hsum. apply Hout; [done|].
      rewrite float_escapes_at_one. unfold escaped, squares. cbn [fst snd].
      rewrite Hp, Hq. cbn [mbind result_bind mret result_ret fst snd].
      by rewrite Hsum.
    + intros e Hsteps Hsq. apply Hraise; [done|].
      rewrite float_escapes_at_one. unfold escaped. by rewrite Hsq.
    + apply Horigin. intros k. unfold escapes_at.
      by rewrite float_z_iter_origin.
    + intros Hsteps Hlibm.
      destruct (Hany float _ _ 2%float 2%float steps
                  (float_escapes_at_zero _ _)) as (_ & H22 & _).
      apply H22; [done|]. rewrite float_escapes_at_one.
      unfold escaped, squares. simpl. unfold float_pow2. simpl.
      rewrite Hlibm. reflexivity.
Qed.

Lemma pixel_beyond_radius_escapes_after_one_step_witness :
  mandelbrodt_pixel 3%Q (-1)%Q 0 = Ok true ∧
  mandelbrodt_pixel 3%Q (-1)%Q 5 = Ok false ∧
  mandelbrodt_pixel (H0:=float_power (H:=rounded_libm)) 3%float (-1)%float 5
    = Ok false ∧
  mandelbrodt_pixel (H0:=float_power (H:=rounded_libm)) 1e200%float 0%float 5
    = Raise OverflowError.
Proof.
  destruct pixel_beyond_radius_escapes_after_one_step as (_ & Hexact & Hfloat).
  destruct (Hexact 3%Q (-1)%Q 5) as (H0 & Hout & _).
  destruct (Hfloat rounded_libm 3%float (-1)%float 5) as (_ & Hfout & _).
  destruct (Hfloat rounded_libm 1e200%float 0%float 5) as (_ & _ & Hraise & _).
  split; [exact H0|]. split; [apply Hout; [lia|by compute]|]. split.
  - apply (Hfout 9%float 1%float); [lia|reflexivity..].
  - apply Hraise; [lia|reflexivity].
Defined.

(** ** Lists, slices and [mapM] *)

Lemma result_mapM_ok {A B} (f : A → result B) (g : A → B) (l : list A) :
  (∀ a, a ∈ l → f a = Ok (g a)) → mapM f l = Ok (g <$> l).
Proof.
  induction l as [|a l IH]; intros Hf; [done|].
  simpl. rewrite (Hf a) by left. simpl.
  rewrite IH by (intros b Hb; apply Hf; by right). done.
Qed.

Lemma range_length (n : Z) : length (range n) = Z.to_nat n.
Proof. apply length_seqZ. Qed.

Lemma range_lookup (n : Z) (i : nat) :
  Z.of_nat i < n → range n !! i = Some (Z.of_nat i).
Proof. intros Hi. unfold range. by rewrite lookup_seqZ_lt by lia. Qed.

Lemma range_elem_of (n i : Z) : i ∈ range n ↔ 0 ≤ i < n.
Proof. unfold range. rewrite elem_of_seqZ. lia. Qed.

Lemma range_of_nat (n : nat) : range (Z.of_nat n) = Z.of_nat <$> seq 0 n.
Proof.
  unfold range, seqZ. rewrite Nat2Z.id. apply list_fmap_ext.
  intros _ i _. lia.
Qed.

Lemma py_index_fmap_range (f : Z → Z) (n i : Z) :
  0 ≤ i < n → py_index (f <$> range n) i = Ok (f i).
Proof.
  intros Hi. unfold py_index. rewrite length_fmap, range_length.
  destruct (Z.ltb_spec i 0); [lia|].
  destruct (Z.leb_spec 0 i); [|lia].
  destruct (Z.ltb_spec i (Z.of_nat (Z.to_nat n))); [|lia]. simpl.
  rewrite list_lookup_fmap, range_lookup by lia. simpl.
  by rewrite Z2Nat.id by lia.
Qed.

(** A slice between two positions inside the list. *)
Lemma py_slice_inside {A} (l : list A) (a b : nat) :
  (a ≤ b)%nat → (b ≤ length l)%nat →
  py_slice l (Z.of_nat a) (Z.of_nat b) = take (b - a) (drop a l).
Proof.
  intros Hab Hb. unfold py_slice.
  destruct (Z.ltb_spec (Z.of_nat a) 0); [lia|].
  destruct (Z.ltb_spec (Z.of_nat b) 0); [lia|].
  rewrite !Z.min_l by lia. f_equal; [lia|]. f_equal. lia.
Qed.

(** ** The grid generator and the band partitioner *)

Section PartitionerFacts.
Context {R : Type} `{Number R} `{Power R}.

Lemma grid_values_length (v_min v_step : R) (side_size : Z) :
  length (grid_values v_min v_step side_size) = Z.to_nat side_size.
Proof. unfold grid_values. by rewrite length_fmap, range_length. Qed.

Lemma grid_values_lookup (v_min v_step : R) (side_size : Z) (i : nat) :
  Z.of_nat i < side_size →
  grid_values v_min v_step side_size !! i
    = Some (v_min + of_int (Z.of_nat i) * v_step)%num.
Proof.
  intros Hi. unfold grid_values.
  by rewrite list_lookup_fmap, range_lookup by lia.
Qed.

Lemma axis_values_ok (side_size : Z) (rng : R * R) :
  side_size ≠ 0 →
  axis_values side_size rng
    = Ok (grid_values (oriented rng).1
            (((oriented rng).2 - (oriented rng).1) / of_int side_size)%num
            side_size).
Proof.
  intros Hn. unfold axis_values, truediv_int.
  destruct (oriented rng) as [v_min v_max].
  destruct (Z.eqb_spec side_size 0); [done|]. reflexivity.
Qed.

Lemma band_slice_length (values : list R) (len i : nat) :
  ((i + 1) * len ≤ length values)%nat →
  length (band_slice values len i) = len.
Proof.
  intros Hi. unfold band_slice. rewrite length_take, length_drop. lia.
Qed.

Lemma band_slice_lookup (values : list R) (len i k : nat) :
  (k < len)%nat →
  band_slice values len i !! k = values !! (i * len + k)%nat.
Proof.
  intros Hk. unfold band_slice. by rewrite lookup_take_lt, lookup_drop by lia.
Qed.

(** The bands laid end to end are the first [w * len] values. *)
Lemma band_slice_concat (values : list R) (len w : nat) :
  concat ((λ i, band_slice values len i) <$> seq 0 w) = take (w * len) values.
Proof.
  induction w as [|w IH]; [done|].
  rewrite seq_S, fmap_app, concat_app, IH. simpl.
  rewrite app_nil_r. unfold band_slice.
  replace (len + w * len)%nat with (w * len + len)%nat by lia.
  by rewrite take_take_drop.
Qed.

(** The comprehension of line 75 runs over the x-values outermost. *)
Lemma pairs_of_cons (x : R) (xs ys : list R) :
  pairs_of (x :: xs) ys = (pair x <$> ys) ++ pairs_of xs ys.
Proof.
  unfold pairs_of. rewrite bind_cons. f_equal.
Qed.

Lemma pairs_of_length (xs ys : list R) :
  length (pairs_of xs ys) = (length xs * length ys)%nat.
Proof.
  induction xs as [|x xs IH]; [done|].
  rewrite pairs_of_cons, length_app, length_fmap, IH. simpl. lia.
Qed.

Lemma pairs_of_lookup (xs ys : list R) (a b : nat) (x y : R) :
  xs !! a = Some x → ys !! b = Some y →
  pairs_of xs ys !! (a * length ys + b)%nat = Some (x, y).
Proof.
  revert a. induction xs as [|x' xs IH]; intros a Hx Hy; [done|].
  rewrite pairs_of_cons. destruct a as [|a].
  - simpl in Hx. injection Hx as ->. simpl.
    rewrite lookup_app_l by (rewrite length_fmap; by eapply lookup_lt_Some).
    by rewrite list_lookup_fmap, Hy.
  - simpl in Hx. rewrite lookup_app_r by (rewrite length_fmap; lia).
    rewrite length_fmap.
    replace (S a * length ys + b - length ys)%nat
      with (a * length ys + b)%nat by lia.
    by apply IH.
Qed.

(** What [get_xy_pairs] returns when called as line 118 calls it, with
    [workers = num_workers]: one band per worker, band [i] being the
    [i]-th run of [side_size ÷ workers] x-values paired with every
    y-value. *)
Lemma get_xy_pairs_bands (W side_size : Z) (xrange yrange : R * R) :
  1 ≤ W → 1 ≤ side_size →
  ∃ x_values y_values,
    axis_values side_size xrange = Ok x_values ∧
    axis_values side_size yrange = Ok y_values ∧
    length x_values = Z.to_nat side_size ∧
    length y_values = Z.to_nat side_size ∧
    get_xy_pairs W W side_size xrange yrange
      = Ok ((λ i, pairs_of (band_slice x_values (Z.to_nat (side_size ÷ W)) i)
                           y_values) <$> seq 0 (Z.to_nat W)).
Proof.
  intros HW Hn.
  rewrite !axis_values_ok by lia.
  eexists _, _. split; [done|]. split; [done|].
  rewrite !grid_values_length. split; [done|]. split; [done|].
  unfold get_xy_pairs, truediv_int, int_truediv.
  destruct (oriented xrange) as [x_min x_max].
  destruct (oriented yrange) as [y_min y_max].
  destruct (Z.eqb_spec side_size 0); [lia|].
  destruct (Z.eqb_spec W 0); [lia|]. simpl.
  set (xs := grid_values x_min _ side_size).
  set (ys := grid_values y_min _ side_size).
  set (L := side_size ÷ W).
  assert (0 ≤ L ∧ W * L ≤ side_size) as [HL0 HL].
  { unfold L. rewrite Z.quot_div_nonneg by lia.
    split; [apply Z.div_pos; lia|apply Z.mul_div_le; lia]. }
  rewrite (result_mapM_ok _
    (λ i, pairs_of (band_slice xs (Z.to_nat L) (Z.to_nat i)) ys)).
  - f_equal. rewrite <- (Z2Nat.id W) at 1 by lia.
    rewrite range_of_nat, <- list_fmap_compose.
    apply list_fmap_ext. intros _ i _. simpl. by rewrite Nat2Z.id.
  - intros i Hi%range_elem_of.
    rewrite !py_index_fmap_range by lia. simpl.
    replace (i * L) with (Z.of_nat (Z.to_nat i * Z.to_nat L)) by nia.
    replace ((i + 1) * L)
      with (Z.of_nat (Z.to_nat i * Z.to_nat L + Z.to_nat L)) by nia.
    rewrite py_slice_inside;
      [|lia|subst xs; rewrite grid_values_length; nia].
    unfold band_slice. do 3 f_equal. lia.
Qed.

Lemma owns_unique (len i i' j : nat) : owns len i j → owns len i' j → i' = i.
Proof. unfold owns. nia. Qed.

Lemma owns_exists (len w j : nat) :
  (j < w * len)%nat → ∃ i, (i < w)%nat ∧ owns len i j.
Proof.
  intros Hj. assert (0 < len)%nat as Hlen by nia.
  exists (j / len)%nat. unfold owns.
  pose proof (Nat.div_mod_eq j len) as Hdiv.
  pose proof (Nat.mod_upper_bound j len) as Hmod.
  split; nia.
Qed.

(** The partition made by a call with [workers = num_workers = W] on a
    grid of side [side_size]: band [i] is the x-values at the positions
    it owns, in order, each paired with all y-values in order; the
    positions owned by some band are the first [W * (side_size / W)]. *)
Lemma get_xy_pairs_partition (W side_size : Z) (xrange yrange : R * R) :
  1 ≤ W → 1 ≤ side_size →
  ∃ x_values y_values bands,
    axis_values side_size xrange = Ok x_values ∧
    axis_values side_size yrange = Ok y_values ∧
    length x_values = Z.to_nat side_size ∧
    length y_values = Z.to_nat side_size ∧
    get_xy_pairs W W side_size xrange yrange = Ok bands ∧
    length bands = Z.to_nat W ∧
    let L := Z.to_nat (side_size / W) in
    (∀ i, (i < Z.to_nat W)%nat →
       bands !! i = Some (pairs_of (band_slice x_values L i) y_values) ∧
       length (band_slice x_values L i) = L ∧
       ∀ k, (k < L)%nat →
         band_slice x_values L i !! k = x_values !! (i * L + k)%nat) ∧
    concat (band_slice x_values L <$> seq 0 (Z.to_nat W))
      = take (Z.to_nat W * L) x_values ∧
    (Z.to_nat W * L ≤ Z.to_nat side_size)%nat.
Proof.
  intros HW Hn.
  destruct (get_xy_pairs_bands W side_size xrange yrange HW Hn)
    as (xs & ys & Hxs & Hys & Hlx & Hly & Hbands).
  rewrite Z.quot_div_nonneg in Hbands by lia.
  assert (Z.to_nat W * Z.to_nat (side_size / W) ≤ Z.to_nat side_size)%nat as HL.
  { pose proof (Z.mul_div_le side_size W ltac:(lia)).
    pose proof (Z.div_pos side_size W ltac:(lia) ltac:(lia)). nia. }
  eexists xs, ys, _. do 4 (split; [done|]). split; [exact Hbands|].
  split; [by rewrite length_fmap, length_seq|].
  split; [|split; [apply band_slice_concat|exact HL]].
  intros i Hi. split.
  - rewrite list_lookup_fmap, lookup_seq_lt by done. done.
  - split; [apply band_slice_length; nia|].
    intros k Hk. by apply band_slice_lookup.
Qed.

(** C1: when [W >= 1] divides [side_size], the [W] bands cover the
    positions of the x-values exactly.  Band [i] is the x-values at
    positions [i * L .. (i + 1) * L - 1], [L = side_size / W], in that
    order, each paired with every y-value in order; laid end to end the
    bands' x-values are all the x-values; every position is owned by one
    band and no other. *)
Theorem bands_cover_grid_exactly (W side_size : Z) (xrange yrange : R * R) :
  1 ≤ W → 1 ≤ side_size → (W | side_size) →
  ∃ x_values y_values bands,
    axis_values side_size xrange = Ok x_values ∧
    axis_values side_size yrange = Ok y_values ∧
    get_xy_pairs W W side_size xrange yrange = Ok bands ∧
    length bands = Z.to_nat W ∧
    let L := Z.to_nat (side_size / W) in
    (∀ i, (i < Z.to_nat W)%nat →
       bands !! i = Some (pairs_of (band_slice x_values L i) y_values) ∧
       length (band_slice x_values L i) = L ∧
       ∀ k, (k < L)%nat →
         band_slice x_values L i !! k = x_values !! (i * L + k)%nat) ∧
    (∀ i k b x y band, bands !! i = Some band →
       x_values !! (i * L + k)%nat = Some x → (k < L)%nat →
       y_values !! b = Some y →
       band !! (k * Z.to_nat side_size + b)%nat = Some (x, y)) ∧
    concat (band_slice x_values L <$> seq 0 (Z.to_nat W)) = x_values ∧
    (∀ j, (j < Z.to_nat side_size)%nat →
       ∃ i, (i < Z.to_nat W)%nat ∧ owns L i j ∧
            ∀ i', owns L i' j → i' = i).
Proof.
  intros HW Hn [q Hq].
  destruct (get_xy_pairs_partition W side_size xrange yrange HW Hn)
    as (xs & ys & bands & Hxs & Hys & Hlx & Hly & Hbands & Hlen & Hband
        & Hcat & _).
  assert (side_size / W = q) as HL by (subst side_size; apply Z.div_mul; lia).
  assert (Z.to_nat W * Z.to_nat (side_size / W) = Z.to_nat side_size)%nat
    as Hall by (rewrite HL; nia).
  exists xs, ys, bands. do 4 (split; [done|]). cbv zeta in *.
  split; [exact Hband|]. split; [|split].
  - intros i k b x y band Hi Hx Hk Hy.
    assert (i < Z.to_nat W)%nat as Hi'
      by (rewrite <- Hlen; by eapply lookup_lt_Some).
    destruct (Hband i Hi') as (Hbi & _ & Hslice).
    rewrite Hbi in Hi. injection Hi as <-.
    rewrite <- Hly. apply pairs_of_lookup; [|done].
    by rewrite Hslice.
  - rewrite Hcat, Hall, <- Hlx. apply firstn_all.
  - intros j Hj.
    destruct (owns_exists (Z.to_nat (side_size / W)) (Z.to_nat W) j)
      as (i & Hi & Hown); [lia|].
    exists i. split; [done|]. split; [done|].
    intros i' Hown'. by eapply owns_unique.
Qed.

(** C2: when [W >= 1] does not divide [side_size], the call still
    returns its [W] bands, without raising.  Band [i] holds, in order,
    the x-values at the positions [i * L .. (i + 1) * L - 1],
    [L = side_size / W], each paired with every y-value in order, and
    nothing else.  The positions that reach a band are those before
    [side_size - side_size mod W], each in one band only; the last
    [side_size mod W] x-values, at least one, are in no band. *)
Theorem bands_drop_trailing_remainder (W side_size : Z) (xrange yrange : R * R) :
  1 ≤ W → 1 ≤ side_size → ¬ (W | side_size) →
  ∃ x_values y_values bands,
    axis_values side_size xrange = Ok x_values ∧
    axis_values side_size yrange = Ok y_values ∧
    length x_values = Z.to_nat side_size ∧
    length y_values = Z.to_nat side_size ∧
    get_xy_pairs W W side_size xrange yrange = Ok bands ∧
    length bands = Z.to_nat W ∧
    let L := Z.to_nat (side_size / W) in
    let r := Z.to_nat (side_size mod W) in
    (∀ i, (i < Z.to_nat W)%nat →
       bands !! i = Some (pairs_of (band_slice x_values L i) y_values) ∧
       length (band_slice x_values L i) = L ∧
       ∀ k, (k < L)%nat →
         band_slice x_values L i !! k = x_values !! (i * L + k)%nat) ∧
    (∀ i band, bands !! i = Some band →
       length band = (L * Z.to_nat side_size)%nat ∧
       (∀ k b x y, x_values !! (i * L + k)%nat = Some x → (k < L)%nat →
          y_values !! b = Some y →
          band !! (k * Z.to_nat side_size + b)%nat = Some (x, y)) ∧
       (∀ p x y, band !! p = Some (x, y) →
          ∃ k b, p = (k * Z.to_nat side_size + b)%nat ∧ (k < L)%nat ∧
                 (b < Z.to_nat side_size)%nat ∧
                 x_values !! (i * L + k)%nat = Some x ∧
                 y_values !! b = Some y)) ∧
    (0 < r)%nat ∧
    concat (band_slice x_values L <$> seq 0 (Z.to_nat W))
      = take (Z.to_nat side_size - r) x_values ∧
    length (drop (Z.to_nat side_size - r) x_values) = r ∧
    (∀ j, (j < Z.to_nat side_size - r)%nat →
       ∃ i, (i < Z.to_nat W)%nat ∧ owns L i j ∧
            ∀ i', owns L i' j → i' = i) ∧
    (∀ j, (Z.to_nat side_size - r ≤ j < Z.to_nat side_size)%nat →
       ∀ i, (i < Z.to_nat W)%nat → ¬ owns L i j).
Proof.
  intros HW Hn Hndiv.
  destruct (get_xy_pairs_partition W side_size xrange yrange HW Hn)
    as (xs & ys & bands & Hxs & Hys & Hlx & Hly & Hbands & Hlen & Hband
        & Hcat & _).
  pose proof (Z.div_mod side_size W ltac:(lia)) as Hdm.
  pose proof (Z.mod_pos_bound side_size W ltac:(lia)) as Hmod.
  pose proof (Z.div_pos side_size W ltac:(lia) ltac:(lia)) as Hdiv.
  assert (side_size mod W ≠ 0) as Hr
    by (intros Hz; apply Hndiv; apply Z.mod_divide; [lia|done]).
  assert (Z.to_nat W * Z.to_nat (side_size / W)
          = Z.to_nat side_size - Z.to_nat (side_size mod W))%nat as Hkept by nia.
  exists xs, ys, bands. do 6 (split; [done|]). cbv zeta in *.
  split; [exact Hband|]. split.
  { intros i band Hi.
    assert (i < Z.to_nat W)%nat as Hi'
      by (rewrite <- Hlen; by eapply lookup_lt_Some).
    destruct (Hband i Hi') as (Hbi & Hslen & Hslice).
    rewrite Hbi in Hi. injection Hi as <-.
    assert (∀ k b x y, xs !! (i * Z.to_nat (side_size / W) + k)%nat = Some x →
              (k < Z.to_nat (side_size / W))%nat → ys !! b = Some y →
              pairs_of (band_slice xs (Z.to_nat (side_size / W)) i) ys
                !! (k * Z.to_nat side_size + b)%nat = Some (x, y)) as Hpos.
    { intros k b x y Hx Hk Hy. rewrite <- Hly. apply pairs_of_lookup; [|done].
      by rewrite Hslice. }
    split; [by rewrite pairs_of_length, Hslen, Hly|]. split; [exact Hpos|].
    intros p x y Hp.
    pose proof (lookup_lt_Some _ _ _ Hp) as Hplt.
    rewrite pairs_of_length, Hslen, Hly in Hplt.
    set (n := Z.to_nat side_size) in *.
    assert (0 < n)%nat as Hn0 by (unfold n; lia).
    pose proof (Nat.div_mod_eq p n) as Hpdiv.
    pose proof (Nat.mod_upper_bound p n ltac:(lia)) as Hpmod.
    assert (p / n < Z.to_nat (side_size / W))%nat as Hk
      by (apply Nat.Div0.div_lt_upper_bound; lia).
    destruct (lookup_lt_is_Some_2 xs (i * Z.to_nat (side_size / W) + p / n))
      as [x' Hx']; [nia|].
    destruct (lookup_lt_is_Some_2 ys (p mod n)) as [y' Hy']; [lia|].
    pose proof (Hpos (p / n)%nat (p mod n)%nat x' y' Hx' Hk Hy') as Hp'.
    replace (p / n * n + p mod n)%nat with p in Hp' by lia.
    rewrite Hp in Hp'. injection Hp' as -> ->.
    exists (p / n)%nat, (p mod n)%nat. repeat split; try done; lia. }
  split; [lia|]. split; [by rewrite Hcat, Hkept|].
  split; [rewrite length_drop; lia|]. split.
  - intros j Hj.
    destruct (owns_exists (Z.to_nat (side_size / W)) (Z.to_nat W) j)
      as (i & Hi & Hown); [lia|].
    exists i. split; [done|]. split; [done|].
    intros i' Hown'. by eapply owns_unique.
  - intros j Hj i Hi. unfold owns. nia.
Qed.

(** C10: with fewer x-values than workers, [1 <= side_size < W], the
    length of a band's slice is 0: the call returns [W] empty bands, so
    that no sample reaches a worker. *)
Theorem bands_empty_when_fewer_columns_than_workers
    (W side_size : Z) (xrange yrange : R * R) :
  1 ≤ side_size → side_size < W →
  int_truediv side_size W = Ok 0 ∧
  get_xy_pairs W W side_size xrange yrange = Ok (replicate (Z.to_nat W) []) ∧
  ∀ steps procnum d band,
    band ∈ replicate (Z.to_nat W) ([] : list (R * R)) →
    mandelbrodt_job band steps procnum d = Ok (dict_set procnum [] d).
Proof.
  intros Hn HW.
  destruct (get_xy_pairs_partition W side_size xrange yrange) as
    (xs & ys & bands & _ & _ & _ & _ & Hbands & Hlen & Hband & _); [lia|lia|].
  assert (side_size / W = 0) as HL by (apply Z.div_small; lia).
  split; [|split].
  - unfold int_truediv. destruct (Z.eqb_spec W 0); [lia|].
    by rewrite Z.quot_div_nonneg, HL by lia.
  - rewrite Hbands. f_equal. apply list_eq. intros i.
    destruct (decide (i < Z.to_nat W)%nat) as [Hi|Hi].
    + destruct (Hband i Hi) as (-> & _). rewrite HL.
      by rewrite lookup_replicate_2.
    + rewrite !lookup_ge_None_2; [done| |]; rewrite ?length_replicate; lia.
  - intros steps procnum d band [-> _]%elem_of_replicate. reflexivity.
Qed.
End PartitionerFacts.

Lemma bands_cover_grid_exactly_witness :
  ∃ x_values bands,
    axis_values (R:=Q) 4 (-2, 1)%Q = Ok x_values ∧
    get_xy_pairs (R:=Q) 2 2 4 (-2, 1)%Q (-(3#2), 3#2)%Q = Ok bands ∧
    length bands = 2%nat ∧
    concat (band_slice x_values 2 <$> seq 0 2) = x_values.
Proof.
  destruct (bands_cover_grid_exactly (R:=Q) 2 4 (-2, 1)%Q (-(3#2), 3#2)%Q)
    as (xs & ys & bands & Hxs & _ & Hbands & Hlen & _ & _ & Hcat & _);
    [lia|lia|by exists 2|].
  exists xs, bands. repeat split; assumption.
Defined.

Lemma bands_drop_trailing_remainder_witness :
  ∃ x_values bands,
    axis_values (R:=Q) 5 (-2, 1)%Q = Ok x_values ∧
    get_xy_pairs (R:=Q) 2 2 5 (-2, 1)%Q (-(3#2), 3#2)%Q = Ok bands ∧
    length bands = 2%nat ∧
    concat (band_slice x_values 2 <$> seq 0 2) = take 4 x_values ∧
    length (drop 4 x_values) = 1%nat.
Proof.
  destruct (bands_drop_trailing_remainder (R:=Q) 2 5 (-2, 1)%Q (-(3#2), 3#2)%Q)
    as (xs & ys & bands & Hxs & _ & _ & _ & Hbands & Hlen & _ & _ & _ & Hcat
        & Hdrop & _);
    [lia|lia|intros [q Hq]; lia|].
  exists xs, bands. repeat split; assumption.
Defined.

Lemma bands_empty_when_fewer_columns_than_workers_witness :
  get_xy_pairs (R:=Q) 4 4 3 (-2, 1)%Q (-(3#2), 3#2)%Q = Ok [[]; []; []; []].
Proof.
  apply (bands_empty_when_fewer_columns_than_workers (R:=Q) 4 3); lia.
Defined.

(** *** The grid generator *)

Section GridFacts.
Context {R : Type} `{Number R}.

(** The coordinates of one axis: [side_size] values, the [i]-th being
    [min + i * step], [step = (max - min) / side_size], on the endpoints
    put in order. *)
Lemma axis_values_spec (side_size : Z) (rng : R * R) :
  1 ≤ side_size →
  ∃ values,
    axis_values side_size rng = Ok values ∧
    length values = Z.to_nat side_size ∧
    oriented rng = (if (rng.1 >? rng.2)%num then (rng.2, rng.1) else rng) ∧
    ∀ i, 0 ≤ i < side_size →
      values !! Z.to_nat i
        = Some ((oriented rng).1 + of_int i *
                 (((oriented rng).2 - (oriented rng).1) / of_int side_size))%num.
Proof.
  intros Hn. rewrite axis_values_ok by lia. eexists. split; [done|].
  split; [apply grid_values_length|]. split.
  - unfold oriented. destruct rng as [a b]. simpl. by destruct (a >? b)%num.
  - intros i Hi. rewrite grid_values_lookup by lia. by rewrite Z2Nat.id by lia.
Qed.
End GridFacts.

Section ExactGrid.
Local Open Scope Q_scope.

Lemma Q_oriented_le (rng : Q * Q) : (oriented rng).1 <= (oriented rng).2.
Proof.
  unfold oriented. destruct rng as [a b]. simpl.
  destruct (Qle_bool a b) eqn:Hab; simpl.
  - by apply Qle_bool_iff.
  - apply Qnot_lt_le. intros Hlt. apply Qlt_le_weak, Qle_bool_iff in Hlt.
    congruence.
Qed.

Lemma Q_step_below (lo hi : Q) (side_size i : Z) :
  (0 ≤ i < side_size)%Z → lo < hi →
  lo <= lo + inject_Z i * ((hi - lo) / inject_Z side_size) < hi.
Proof.
  intros Hi Hlt.
  assert (0 < inject_Z side_size) as Hn
    by (change 0 with (inject_Z 0); rewrite <- Zlt_Qlt; lia).
  assert (0 <= inject_Z i) as Hi0
    by (change 0 with (inject_Z 0); rewrite <- Zle_Qle; lia).
  assert (inject_Z i + 1 <= inject_Z side_size) as Hi1.
  { change 1 with (inject_Z 1). rewrite <- inject_Z_plus, <- Zle_Qle. lia. }
  set (s := (hi - lo) / inject_Z side_size).
  assert (s * inject_Z side_size == hi - lo) as Hs.
  { unfold s. field. intros Hz. rewrite Hz in Hn. by apply Qlt_irrefl in Hn. }
  assert (0 < s) as Hs0.
  { unfold s. apply Qlt_shift_div_l; [done|]. lra. }
  split; nra.
Qed.

(** C5 (as stated, refuted): in binary64 the sum [min + i * step] of the
    last sample can round up to the max endpoint.  With the endpoints
    1e16 and 1e16 + 2 and [side_size = 3] the values are
    1e16, 1e16, 1e16 + 2. *)
Lemma float_axis_reaches_max_endpoint :
  ¬ (∀ (side_size : Z) (rng : float * float) (values : list float),
       (1 ≤ side_size)%Z →
       axis_values side_size rng = Ok values →
       ltb (oriented rng).1 (oriented rng).2 = true →
       ∀ v, v ∈ values → eqb v (oriented rng).2 = false).
Proof.
  intros Hclaim.
  specialize (Hclaim 3%Z
    (10000000000000000%float, 10000000000000002%float)
    [10000000000000000%float; 10000000000000000%float;
     10000000000000002%float]).
  specialize (Hclaim ltac:(lia) ltac:(vm_compute; reflexivity)
                     ltac:(vm_compute; reflexivity)
                     10000000000000002%float).
  assert (eqb 10000000000000002%float 10000000000000002%float = true) as Heq
    by (vm_compute; reflexivity).
  simpl in Hclaim. rewrite Hclaim in Heq; [discriminate|].
  repeat constructor.
Qed.
End ExactGrid.

(** C5 (amended): for [side_size >= 1] each axis has exactly [side_size]
    values, the [i]-th being [min + i * step] with
    [step = (max - min) / side_size], computed in the arithmetic of the
    endpoints after swapping them when [min > max]; in exact arithmetic
    every value lies in the half-open range from min to max when
    [max > min], so the max endpoint is not generated. *)
Theorem grid_axis_half_open :
  (∀ (R : Type) (HR : Number R) (side_size : Z) (rng : R * R),
     1 ≤ side_size →
     ∃ values,
       axis_values side_size rng = Ok values ∧
       length values = Z.to_nat side_size ∧
       oriented rng = (if (rng.1 >? rng.2)%num then (rng.2, rng.1) else rng) ∧
       ∀ i, 0 ≤ i < side_size →
         values !! Z.to_nat i
           = Some ((oriented rng).1 + of_int i *
                    (((oriented rng).2 - (oriented rng).1) / of_int side_size))%num) ∧
  (∀ (side_size : Z) (rng : Q * Q) (values : list Q),
     1 ≤ side_size →
     axis_values side_size rng = Ok values →
     ((oriented rng).1 <= (oriented rng).2)%Q ∧
     (((oriented rng).1 < (oriented rng).2)%Q →
      ∀ v, v ∈ values → ((oriented rng).1 <= v < (oriented rng).2)%Q)).
Proof.
  split.
  - intros R HR side_size rng Hn. by apply axis_values_spec.
  - intros side_size rng values Hn Hvalues.
    split; [apply Q_oriented_le|]. intros Hlt v Hv.
    destruct (axis_values_spec side_size rng Hn) as (values' & Hv' & Hlen & _ & Hi).
    rewrite Hvalues in Hv'. injection Hv' as <-.
    apply list_elem_of_lookup in Hv as [i Hv].
    assert (i < Z.to_nat side_size)%nat as Hilt
      by (rewrite <- Hlen; by eapply lookup_lt_Some).
    specialize (Hi (Z.of_nat i) ltac:(lia)).
    rewrite Nat2Z.id, Hv in Hi. injection Hi as ->.
    apply Q_step_below; [lia|done].
Qed.

Lemma grid_axis_half_open_witness :
  (∃ values, axis_values (R:=float) 4 (1, -2)%float = Ok values ∧
             length values = 4%nat) ∧
  (∀ values, axis_values (R:=Q) 4 (1, -2)%Q = Ok values →
             ∀ v, v ∈ values → (-2 <= v < 1)%Q).
Proof.
  destruct grid_axis_half_open as [Hany Hexact]. split.
  - destruct (Hany float _ 4 (1, -2)%float) as (values & Hv & Hlen & _); [lia|].
    by exists values.
  - intros values Hvalues.
    destruct (Hexact 4 (1, -2)%Q values) as [_ Hin]; [lia|done|].
    apply Hin. reflexivity.
Defined.

(** ** The order of the coordinates *)

#[export] Instance nat_order_laws : TotalOrderLaws nat.
Proof.
  split; simpl.
  - intros a b. apply Nat.eqb_eq.
  - intros a. apply Nat.ltb_irrefl.
  - intros a b c. rewrite !Nat.ltb_lt. lia.
  - intros a b. rewrite !Nat.ltb_ge. lia.
Qed.

#[export] Instance Z_order_laws : TotalOrderLaws Z.
Proof.
  split; simpl.
  - intros a b. apply Z.eqb_eq.
  - intros a. apply Z.ltb_irrefl.
  - intros a b c. rewrite !Z.ltb_lt. lia.
  - intros a b. rewrite !Z.ltb_ge. lia.
Qed.

#[export] Instance Qc_order_laws : TotalOrderLaws Qc.
Proof.
  split; simpl.
  - intros a b. rewrite Qeq_bool_iff. split; [apply Qc_is_canon|by intros ->].
  - intros a. apply negb_false_iff, Qle_bool_iff, Qle_refl.
  - intros a b c. rewrite !negb_true_iff, <- !not_true_iff_false, !Qle_bool_iff.
    intros Hab%Qnot_le_lt Hbc%Qnot_le_lt. apply Qlt_not_le.
    exact (Qlt_trans _ _ _ Hab Hbc).
  - intros a b. rewrite !negb_false_iff, !Qle_bool_iff. intros Hba Hab.
    apply Qc_is_canon. by apply Qle_antisym.
Qed.

Section TotalOrders.
Context {A : Type} `{Comparable A} `{!TotalOrderLaws A}.

Lemma ltb_asym (a b : A) : ltb a b = true → ltb b a = false.
Proof.
  intros Hab. destruct (ltb b a) eqn:Hba; [|done].
  pose proof (ltb_trans a b a Hab Hba) as Haa.
  by rewrite ltb_irrefl in Haa.
Qed.

Lemma eqb_refl (a : A) : eqb a a = true.
Proof. by apply eqb_eq. Qed.

Lemma eqb_neq (a b : A) : eqb a b = false ↔ a ≠ b.
Proof.
  split.
  - intros Hf ->. by rewrite eqb_refl in Hf.
  - intros Hne. destruct (eqb a b) eqn:Heq; [|done]. by apply eqb_eq in Heq.
Qed.

(** A total order whose [==] is identity keeps the laws of every number
    type, and has no NaN. *)
#[export] Instance total_order_laws : OrderLaws A.
Proof.
  split.
  - intros a b ->%eqb_eq. apply eqb_refl.
  - intros a b c ->%eqb_eq. done.
  - intros a b _. split; apply eqb_refl.
  - intros a b Hab. apply eqb_neq. intros ->. by rewrite ltb_irrefl in Hab.
  - apply ltb_trans.
  - intros a b _ _. destruct (ltb a b) eqn:Hab; [by left|].
    destruct (ltb b a) eqn:Hba; [by right; right|].
    right; left. apply eqb_eq. by apply ltb_connex.
Qed.
End TotalOrders.

(** *** binary64 *)

Lemma SFcompare_key (f g : spec_float) :
  match SFcompare f g with
  | None => f = S754_nan ∨ g = S754_nan
  | Some c =>
    f ≠ S754_nan ∧ g ≠ S754_nan ∧
    match c with
    | Lt => key_lt (SF_key f) (SF_key g)
    | Eq => SF_key f = SF_key g
    | Gt => key_lt (SF_key g) (SF_key f)
    end
  end.
Proof.
  unfold key_lt.
  destruct f as [sf|sf| |sf mf ef], g as [sg|sg| |sg mg eg];
    simpl; auto; try (destruct sf); try (destruct sg); simpl;
    try (split; [done|]; split; [done|]; first [done|lia]).
  - destruct (Z.compare_spec ef eg) as [->|?|?].
    + rewrite Pos.compare_cont_spec. simpl.
      destruct (Pos.compare_spec mf mg) as [->|?|?]; simpl;
        (split; [done|]; split; [done|]; first [done|lia]).
    + split; [done|]; split; [done|]; lia.
    + split; [done|]; split; [done|]; lia.
  - destruct (Z.compare_spec ef eg) as [->|?|?].
    + rewrite Pos.compare_cont_spec. simpl.
      destruct (Pos.compare_spec mf mg) as [->|?|?]; simpl;
        (split; [done|]; split; [done|]; first [done|lia]).
    + split; [done|]; split; [done|]; lia.
    + split; [done|]; split; [done|]; lia.
Qed.

Lemma float_eqb_iff (a b : float) :
  PrimFloat.eqb a b = true ↔
  Prim2SF a ≠ S754_nan ∧ Prim2SF b ≠ S754_nan ∧
  SF_key (Prim2SF a) = SF_key (Prim2SF b).
Proof.
  rewrite FloatAxioms.eqb_spec. unfold SFeqb.
  pose proof (SFcompare_key (Prim2SF a) (Prim2SF b)) as Hc.
  destruct (SFcompare (Prim2SF a) (Prim2SF b)) as [[]|].
  - tauto.
  - split; [done|]. intros (_ & _ & Heq). destruct Hc as (_ & _ & Hlt).
    rewrite Heq in Hlt. unfold key_lt in Hlt. lia.
  - split; [done|]. intros (_ & _ & Heq). destruct Hc as (_ & _ & Hlt).
    rewrite Heq in Hlt. unfold key_lt in Hlt. lia.
  - split; [done|]. tauto.
Qed.

Lemma float_ltb_iff (a b : float) :
  PrimFloat.ltb a b = true ↔
  Prim2SF a ≠ S754_nan ∧ Prim2SF b ≠ S754_nan ∧
  key_lt (SF_key (Prim2SF a)) (SF_key (Prim2SF b)).
Proof.
  rewrite FloatAxioms.ltb_spec. unfold SFltb.
  pose proof (SFcompare_key (Prim2SF a) (Prim2SF b)) as Hc.
  destruct (SFcompare (Prim2SF a) (Prim2SF b)) as [[]|].
  - split; [done|]. intros (_ & _ & Hlt). destruct Hc as (_ & _ & Heq).
    rewrite Heq in Hlt. unfold key_lt in Hlt. lia.
  - tauto.
  - split; [done|]. intros (_ & _ & Hlt). destruct Hc as (_ & _ & Hgt).
    unfold key_lt in *. lia.
  - split; [done|]. tauto.
Qed.

(** [==] and [<] of binary64 keep the laws, NaN, the infinities and the two
    zeros included. *)
#[export] Instance float_order_laws : OrderLaws float.
Proof.
  split; simpl.
  - intros a b. rewrite !float_eqb_iff. intros (? & ? & ?). auto.
  - intros a b c. rewrite !float_eqb_iff.
    intros (? & ? & ?) (? & ? & ?). split; [done|]. split; [done|]. congruence.
  - intros a b. rewrite float_ltb_iff, !float_eqb_iff. intros (? & ? & ?). auto.
  - intros a b. rewrite float_ltb_iff. intros (? & ? & Hlt).
    apply not_true_iff_false. rewrite float_eqb_iff. intros (_ & _ & Heq).
    rewrite Heq in Hlt. unfold key_lt in Hlt. lia.
  - intros a b c. rewrite !float_ltb_iff. unfold key_lt.
    intros (? & ? & ?) (? & ? & ?). split; [done|]. split; [done|]. lia.
  - intros a b. rewrite !float_eqb_iff, !float_ltb_iff.
    intros (Ha & _ & _) (Hb & _ & _).
    destruct (SF_key (Prim2SF a)) as [[a1 a2] a3] eqn:Hka.
    destruct (SF_key (Prim2SF b)) as [[b1 b2] b3] eqn:Hkb.
    unfold key_lt. simpl.
    destruct (Z.lt_trichotomy a1 b1) as [?|[->|?]]; [left; auto| |right; right; auto].
    destruct (Z.lt_trichotomy a2 b2) as [?|[->|?]]; [left; auto 6| |right; right; auto 6].
    destruct (Z.lt_trichotomy a3 b3) as [?|[->|?]]; [left; auto 8| |right; right; auto 8].
    right; left. auto.
Qed.

(** ** Sorting and [np.unique] *)

Section OrderFacts.
Context {A : Type} `{Comparable A} `{!OrderLaws A}.

Lemma eqb_number_l (a b : A) : eqb a b = true → is_number a = true.
Proof.
  intros Hab. unfold is_number.
  eapply ord_eqb_trans; [exact Hab|]. by apply ord_eqb_sym.
Qed.

Lemma eqb_number_r (a b : A) : eqb a b = true → is_number b = true.
Proof. intros Hab. eapply eqb_number_l. by apply ord_eqb_sym. Qed.

Lemma ltb_eqb_l (a b c : A) :
  eqb a b = true → ltb a c = true → ltb b c = true.
Proof.
  intros Hab Hac. destruct (ord_ltb_number a c Hac) as [_ Hc].
  destruct (ord_trichotomy b c (eqb_number_r a b Hab) Hc) as [?|[Hbc|Hcb]]; [done| |].
  - pose proof (ord_ltb_eqb a c Hac).
    pose proof (ord_eqb_trans a b c Hab Hbc). congruence.
  - pose proof (ord_ltb_trans a c b Hac Hcb) as Hlt.
    apply ord_ltb_eqb in Hlt. congruence.
Qed.

Lemma ltb_eqb_r (a b c : A) :
  eqb a b = true → ltb c a = true → ltb c b = true.
Proof.
  intros Hab Hca. destruct (ord_ltb_number c a Hca) as [Hc _].
  destruct (ord_trichotomy c b Hc (eqb_number_r a b Hab)) as [?|[Hcb|Hbc]]; [done| |].
  - pose proof (ord_eqb_trans c b a Hcb (ord_eqb_sym a b Hab)) as Heq.
    apply ord_ltb_eqb in Hca. congruence.
  - pose proof (ord_ltb_trans b c a Hbc Hca) as Hlt.
    apply ord_ltb_eqb in Hlt. apply ord_eqb_sym in Hab. congruence.
Qed.

Lemma np_lt_true (a b : A) :
  np_lt a b = true ↔
  ltb a b = true ∨ (is_number a = true ∧ is_number b = false).
Proof.
  unfold np_lt. rewrite orb_true_iff, andb_true_iff, negb_true_iff. tauto.
Qed.

Lemma np_same_true (a b : A) :
  np_same a b = true ↔
  eqb a b = true ∨ (is_number a = false ∧ is_number b = false).
Proof.
  unfold np_same. rewrite orb_true_iff, andb_true_iff, !negb_true_iff. tauto.
Qed.

Lemma np_same_refl (a : A) : np_same a a = true.
Proof.
  apply np_same_true. unfold is_number. destruct (eqb a a); auto.
Qed.

Lemma np_same_sym (a b : A) : np_same a b = true → np_same b a = true.
Proof.
  rewrite !np_same_true. intros [?%ord_eqb_sym|[? ?]]; auto.
Qed.

Lemma np_same_trans (a b c : A) :
  np_same a b = true → np_same b c = true → np_same a c = true.
Proof.
  rewrite !np_same_true. intros [Hab|[Ha Hb]] [Hbc|[Hb' Hc]].
  - left. by eapply ord_eqb_trans.
  - apply eqb_number_r in Hab. congruence.
  - apply eqb_number_l in Hbc. congruence.
  - by right.
Qed.

(** For a number, being taken for one value is being equal. *)
Lemma np_same_number (a b : A) :
  is_number b = true → np_same a b = true → eqb a b = true.
Proof. rewrite np_same_true. intros Hb [?|[_ ?]]; [done|congruence]. Qed.

#[export] Instance before_irrefl : Irreflexive (before (A:=A)).
Proof.
  intros a [Hlt|[Ha Hn]]%np_lt_true; [|congruence].
  pose proof (ord_ltb_eqb a a Hlt) as Hne.
  destruct (ord_ltb_number a a Hlt) as [Hnum _]. unfold is_number in *. congruence.
Qed.

#[export] Instance before_trans : Transitive (before (A:=A)).
Proof.
  intros a b c. unfold before. rewrite !np_lt_true.
  intros [Hab|[Ha Hb]] [Hbc|[Hb' Hc]].
  - left. by eapply ord_ltb_trans.
  - right. split; [|done]. by destruct (ord_ltb_number a b Hab).
  - destruct (ord_ltb_number b c Hbc). unfold is_number in *. congruence.
  - congruence.
Qed.

Lemma before_asym (a b : A) : before a b → ¬ before b a.
Proof. intros Hab Hba. apply (before_irrefl a). by etrans. Qed.

Lemma before_trichotomy (a b : A) :
  before a b ∨ np_same a b = true ∨ before b a.
Proof.
  unfold before. rewrite !np_lt_true, np_same_true.
  destruct (is_number a) eqn:Ha, (is_number b) eqn:Hb; [|tauto..].
  destruct (ord_trichotomy a b Ha Hb) as [?|[?|?]]; tauto.
Qed.

Lemma before_not_same (a b : A) : before a b → np_same a b = false.
Proof.
  unfold before. rewrite np_lt_true. intros Hlt.
  apply not_true_iff_false. rewrite np_same_true.
  intros [Heq|[Ha Hb]]; destruct Hlt as [Hlt|[Ha' Hb']]; try congruence.
  - apply ord_ltb_eqb in Hlt. congruence.
  - apply eqb_number_r in Heq. congruence.
  - destruct (ord_ltb_number a b Hlt). unfold is_number in *. congruence.
Qed.

Lemma before_same_l (a b c : A) :
  np_same a b = true → before a c → before b c.
Proof.
  unfold before. rewrite !np_lt_true, np_same_true.
  intros [Hab|[Ha Hb]] [Hac|[Ha' Hc]].
  - left. by eapply ltb_eqb_l.
  - right. split; [|done]. by eapply eqb_number_r.
  - destruct (ord_ltb_number a c Hac). unfold is_number in *. congruence.
  - congruence.
Qed.

Lemma before_same_r (a b c : A) :
  np_same a b = true → before c a → before c b.
Proof.
  unfold before. rewrite !np_lt_true, np_same_true.
  intros [Hab|[Ha Hb]] [Hca|[Hc Ha']].
  - left. by eapply ltb_eqb_r.
  - apply eqb_number_l in Hab. congruence.
  - destruct (ord_ltb_number c a Hca). unfold is_number in *. congruence.
  - by right.
Qed.

#[export] Instance not_after_total : Total (not_after (A:=A)).
Proof.
  intros a b. unfold not_after.
  destruct (np_lt b a) eqn:Hba; [right|by left].
  apply not_true_iff_false. by apply before_asym.
Qed.

#[export] Instance not_after_trans : Transitive (not_after (A:=A)).
Proof.
  intros a b c Hab Hbc. unfold not_after in *.
  apply not_true_iff_false. intros Hca.
  destruct (before_trichotomy a b) as [Hlt|[Hsame|Hgt]].
  - assert (before c b) as Hcb by (by etrans). unfold before in Hcb. congruence.
  - pose proof (before_same_r a b c Hsame Hca) as Hcb.
    unfold before in Hcb. congruence.
  - unfold before in Hgt. congruence.
Qed.

Lemma not_after_not_same_before (a b : A) :
  not_after a b → np_same a b = false → before a b.
Proof.
  intros Hab Hne. destruct (before_trichotomy a b) as [?|[?|Hba]]; [done|congruence|].
  unfold not_after, before in *. congruence.
Qed.

Lemma np_sort_sorted (arr : list A) : StronglySorted not_after (np_sort arr).
Proof. apply StronglySorted_merge_sort; apply _. Qed.

Lemma np_sort_perm (arr : list A) : np_sort arr ≡ₚ arr.
Proof. apply merge_sort_Permutation. Qed.

Lemma drop_repeats_spec (l : list A) : ∀ a,
  StronglySorted not_after (a :: l) →
  StronglySorted before (a :: drop_repeats a l) ∧
  (∀ b, b ∈ a :: drop_repeats a l → b ∈ a :: l) ∧
  (∀ b, b ∈ a :: l → ∃ u, u ∈ a :: drop_repeats a l ∧ np_same u b = true).
Proof.
  induction l as [|c l IH]; intros a Hs.
  - split; [repeat constructor|]. split; [done|].
    intros b ->%list_elem_of_singleton. exists a.
    split; [left|apply np_same_refl].
  - apply StronglySorted_inv in Hs as [Hs Hall].
    destruct (IH c Hs) as (IHs & IHsub & IHcover). simpl.
    apply Forall_cons_1 in Hall as [Hac _].
    apply StronglySorted_inv in IHs as [IHs IHall].
    destruct (np_same c a) eqn:Hca.
    + split; [|split].
      * constructor; [done|]. eapply Forall_impl; [exact IHall|].
        intros b Hb. by eapply before_same_l.
      * intros b [->|Hb]%elem_of_cons; [left|].
        right. apply IHsub. by right.
      * intros b [->|Hb]%elem_of_cons.
        { exists a. split; [left|apply np_same_refl]. }
        destruct (IHcover b Hb) as (u & [->|Hu]%elem_of_cons & Hub).
        -- exists a. split; [left|].
           eapply np_same_trans; [apply np_same_sym; exact Hca|done].
        -- exists u. split; [by right|done].
    + assert (before a c) as Hlt.
      { apply not_after_not_same_before; [done|].
        apply not_true_iff_false. intros ?%np_same_sym. congruence. }
      split; [|split].
      * constructor; [by constructor|]. constructor; [done|].
        eapply Forall_impl; [exact IHall|]. intros b Hb. by etrans.
      * intros b [->|Hb]%elem_of_cons; [left|]. right. by apply IHsub.
      * intros b [->|Hb]%elem_of_cons.
        { exists a. split; [left|apply np_same_refl]. }
        destruct (IHcover b Hb) as (u & Hu & Hub).
        exists u. split; [by right|done].
Qed.

(** [np.unique] returns values of the array, in ascending order, one for
    each value of the array. *)
Lemma np_unique_sorted (arr : list A) : StronglySorted before (np_unique arr).
Proof.
  unfold np_unique. pose proof (np_sort_sorted arr) as Hs.
  destruct (np_sort arr) as [|a l]; [constructor|].
  by apply drop_repeats_spec.
Qed.

Lemma np_unique_sub (arr : list A) (a : A) : a ∈ np_unique arr → a ∈ arr.
Proof.
  unfold np_unique. pose proof (np_sort_perm arr) as Hp.
  pose proof (np_sort_sorted arr) as Hs.
  destruct (np_sort arr) as [|c l]; rewrite <- Hp; [done|].
  by apply drop_repeats_spec.
Qed.

Lemma np_unique_cover (arr : list A) (a : A) :
  a ∈ arr → ∃ u, u ∈ np_unique arr ∧ np_same u a = true.
Proof.
  unfold np_unique. pose proof (np_sort_perm arr) as Hp.
  pose proof (np_sort_sorted arr) as Hs. rewrite <- Hp.
  destruct (np_sort arr) as [|c l]; [by intros ?%elem_of_nil|].
  by apply drop_repeats_spec.
Qed.

(** Two ascending lists with the same values are the same list, value by
    value. *)
Lemma sorted_same_unique (l1 : list A) : ∀ l2 : list A,
  StronglySorted before l1 → StronglySorted before l2 →
  (∀ a, a ∈ l1 → ∃ b, b ∈ l2 ∧ np_same a b = true) →
  (∀ b, b ∈ l2 → ∃ a, a ∈ l1 ∧ np_same a b = true) →
  Forall2 (λ a b, np_same a b = true) l1 l2.
Proof.
  induction l1 as [|a l1 IH]; intros l2 Hs1 Hs2 H12 H21.
  - destruct l2 as [|b l2]; [constructor|].
    destruct (H21 b ltac:(left)) as (a & []%elem_of_nil & _).
  - destruct l2 as [|b l2].
    { destruct (H12 a ltac:(left)) as (b & []%elem_of_nil & _). }
    apply StronglySorted_inv in Hs1 as [Hs1 Ha].
    apply StronglySorted_inv in Hs2 as [Hs2 Hb].
    rewrite Forall_forall in Ha, Hb.
    assert (np_same a b = true) as Hab.
    { destruct (H12 a ltac:(left)) as (b0 & [->|Hb0]%elem_of_cons & Hab0); [done|].
      destruct (H21 b ltac:(left)) as (a0 & [->|Ha0]%elem_of_cons & Ha0b); [done|].
      assert (before a b) as Hlt.
      { eapply before_same_r; [exact Ha0b|]. by apply Ha. }
      assert (before b a) as Hgt.
      { eapply before_same_r; [apply np_same_sym; exact Hab0|]. by apply Hb. }
      by destruct (before_asym a b). }
    constructor; [done|]. apply IH; [done|done| |].
    + intros a' Ha'. destruct (H12 a' ltac:(by right))
        as (b' & [->|Hb']%elem_of_cons & Hab'); [|by exists b'].
      pose proof (before_not_same a a' (Ha a' Ha')) as Hne.
      rewrite (np_same_trans a b a' Hab (np_same_sym _ _ Hab')) in Hne. done.
    + intros b' Hb'. destruct (H21 b' ltac:(by right))
        as (a' & [->|Ha']%elem_of_cons & Hab'); [|by exists a'].
      pose proof (before_not_same b b' (Hb b' Hb')) as Hne.
      rewrite (np_same_trans b a b' (np_same_sym _ _ Hab) Hab') in Hne. done.
Qed.

Lemma np_unique_perm_same (arr arr' : list A) :
  arr ≡ₚ arr' →
  Forall2 (λ a b, np_same a b = true) (np_unique arr) (np_unique arr').
Proof.
  intros Hp. apply sorted_same_unique; try apply np_unique_sorted.
  - intros a Ha%np_unique_sub. rewrite Hp in Ha.
    destruct (np_unique_cover arr' a Ha) as (u & Hu & Hua).
    exists u. split; [done|]. by apply np_same_sym.
  - intros b Hb%np_unique_sub. rewrite <- Hp in Hb.
    by apply np_unique_cover.
Qed.

(** In an ascending list a value stands at one position only. *)
Lemma sorted_lookup_before (u : list A) (r s : nat) (a b : A) :
  StronglySorted before u → u !! r = Some a → u !! s = Some b →
  (r < s)%nat → before a b.
Proof.
  intros Hs Hr Hb Hlt. rewrite <- (take_drop s u) in Hs.
  apply (StronglySorted_app_1_elem_of _ _ _ a b Hs).
  - apply list_elem_of_lookup. exists r. by rewrite lookup_take_lt.
  - apply list_elem_of_lookup. exists 0%nat.
    by rewrite lookup_drop, Nat.add_0_r.
Qed.

Lemma sorted_same_position (u : list A) (r s : nat) (a b : A) :
  StronglySorted before u → u !! r = Some a → u !! s = Some b →
  np_same a b = true → r = s.
Proof.
  intros Hs Hr Hb Hab. destruct (Nat.lt_trichotomy r s) as [Hlt|[?|Hgt]]; [|done|].
  - pose proof (before_not_same _ _ (sorted_lookup_before u r s a b Hs Hr Hb Hlt)).
    congruence.
  - pose proof (before_not_same _ _ (sorted_lookup_before u s r b a Hs Hb Hr Hgt))
      as Hne. apply np_same_sym in Hab. congruence.
Qed.
End OrderFacts.

(** ** [np.argsort], [np.where] and the rank of a value *)

Section RankFacts.
Context {A : Type} `{Comparable A} `{!OrderLaws A}.

Lemma key_before_iff (p q : nat * A) :
  key_before p q ↔
  before p.2 q.2 ∨ (np_same p.2 q.2 = true ∧ (p.1 ≤ q.1)%nat).
Proof.
  unfold key_before. split.
  - intros [Hqp [Hpq|Hle]]; [by left|].
    destruct (before_trichotomy p.2 q.2) as [?|[?|Hlt]]; [by left|by right|].
    unfold before in Hlt. congruence.
  - intros [Hpq|[Hsame Hle]].
    + split; [|by left]. apply not_true_iff_false. by apply before_asym.
    + split; [|by right]. apply not_true_iff_false. intros Hqp.
      apply before_not_same in Hqp. apply np_same_sym in Hsame. congruence.
Qed.

#[export] Instance key_before_total : Total (key_before (A:=A)).
Proof.
  intros p q. rewrite !key_before_iff.
  destruct (before_trichotomy p.2 q.2) as [?|[Hs|?]]; [tauto| |tauto].
  pose proof (np_same_sym _ _ Hs).
  destruct (Nat.le_ge_cases p.1 q.1); [left|right]; right; split; auto.
Qed.

#[export] Instance key_before_trans : Transitive (key_before (A:=A)).
Proof.
  intros p q r. rewrite !key_before_iff.
  intros [Hpq|[Hpq Hle1]] [Hqr|[Hqr Hle2]].
  - left. by etrans.
  - left. by eapply before_same_r.
  - left. eapply before_same_l; [apply np_same_sym; exact Hpq|done].
  - right. split; [by eapply np_same_trans|lia].
Qed.

Lemma indexed_sorted (u : list A) : ∀ k,
  StronglySorted before u →
  StronglySorted key_before (imap (λ i a, ((k + i)%nat, a)) u).
Proof.
  induction u as [|a u IH]; intros k Hs; [constructor|].
  apply StronglySorted_inv in Hs as [Hs Hall].
  rewrite imap_cons. constructor.
  - rewrite (imap_ext _ (λ i b, ((S k + i)%nat, b))); [by apply IH|].
    intros i b _. simpl. f_equal. lia.
  - apply Forall_forall. intros [j b] (i & c & [= -> ->] & Hc)%elem_of_lookup_imap.
    apply key_before_iff. left. simpl.
    rewrite Forall_forall in Hall. apply Hall. by eapply list_elem_of_lookup_2.
Qed.

(** On distinct values in ascending order [np.argsort] is the identity. *)
Lemma np_argsort_sorted (u : list A) :
  StronglySorted before u → np_argsort u = seq 0 (length u).
Proof.
  intros Hs. unfold np_argsort.
  rewrite (StronglySorted_unique_strong key_before
             (merge_sort key_before (imap pair u)) (imap pair u)).
  - rewrite fmap_imap, <- (list_fmap_id (seq 0 (length u))).
    rewrite <- (imap_seq_0 u id). by apply imap_ext.
  - intros [i a] [j b] Hp (j' & b' & [= -> ->] & Hb)%elem_of_lookup_imap.
    rewrite merge_sort_Permutation in Hp.
    apply elem_of_lookup_imap in Hp as (i' & a' & [= -> ->] & Ha).
    rewrite !key_before_iff. simpl.
    intros [Hab|[Hab Hij]] [Hba|[Hba Hji]].
    + by destruct (before_asym a' b').
    + apply before_not_same in Hab. apply np_same_sym in Hba. congruence.
    + apply before_not_same in Hba. apply np_same_sym in Hab. congruence.
    + assert (i' = j') as -> by lia. congruence.
  - apply StronglySorted_merge_sort; apply _.
  - by apply (indexed_sorted u 0%nat).
  - apply merge_sort_Permutation.
Qed.

Lemma where_none (f : nat → A → nat * A) (u : list A) (e : A) :
  (∀ i a, (f i a).2 = a) → (∀ a, a ∈ u → eqb a e = false) →
  filter (λ p, eqb p.2 e = true) (imap f u) = [].
Proof.
  revert f. induction u as [|a u IH]; intros f Hf He; [done|].
  rewrite imap_cons, filter_cons, Hf.
  rewrite decide_False by (rewrite (He a) by left; done).
  apply IH; [|intros b Hb; apply He; by right]. intros i b. apply Hf.
Qed.

Lemma where_present (u : list A) (e v : A) : ∀ r k,
  (∀ i a, u !! i = Some a → eqb a e = true → i = r) →
  u !! r = Some v → eqb v e = true →
  (filter (λ p, eqb p.2 e = true) (imap (λ i a, ((k + i)%nat, a)) u)).*1
    = [(k + r)%nat].
Proof.
  induction u as [|a u IH]; intros r k Hone Hr Hv; [done|].
  rewrite imap_cons, filter_cons. simpl. destruct r as [|r]; simpl in Hr.
  - injection Hr as ->. rewrite decide_True by done.
    rewrite where_none; [simpl; f_equal; lia|done|].
    intros b [i Hi]%list_elem_of_lookup. apply not_true_iff_false. intros Hb.
    by specialize (Hone (S i) b Hi Hb).
  - rewrite decide_False
      by (intros Ha; by specialize (Hone 0%nat a eq_refl Ha)).
    rewrite (imap_ext _ (λ i b, ((S k + i)%nat, b)));
      [|intros i b _; simpl; f_equal; lia].
    rewrite (IH r (S k)); [f_equal; lia| |done|done].
    intros i b Hi Hb. specialize (Hone (S i) b Hi Hb). lia.
Qed.

(** [np.where(unique == element)]: the one position of a value equal to
    the element, and nothing for a NaN. *)
Lemma np_where_eq_present (u : list A) (e v : A) (r : nat) :
  StronglySorted before u → u !! r = Some v → eqb v e = true →
  np_where_eq u e = [r].
Proof.
  intros Hs Hr Hv. apply (where_present u e v r 0%nat); [|done|done].
  intros i a Hi Ha. apply (sorted_same_position u i r a v Hs Hi Hr).
  apply np_same_true. left.
  eapply ord_eqb_trans; [exact Ha|]. by apply ord_eqb_sym.
Qed.

Lemma np_where_eq_nan (u : list A) (e : A) :
  is_number e = false → np_where_eq u e = [].
Proof.
  intros He. unfold np_where_eq. rewrite where_none; [done|done|].
  intros a _. apply not_true_iff_false. intros Ha%eqb_number_r. congruence.
Qed.

Lemma rank_selected (u : list A) (e v : A) (r : nat) :
  StronglySorted before u → u !! r = Some v → eqb v e = true →
  np_take (np_argsort u) (np_where_eq u e) = [r].
Proof.
  intros Hs Hr Hv.
  rewrite np_argsort_sorted, (np_where_eq_present u e v r) by done.
  unfold np_take. simpl.
  by rewrite lookup_seq_lt by (by eapply lookup_lt_Some).
Qed.

Lemma rank_of_lookup (u : list A) (e v : A) (r : nat) :
  StronglySorted before u → u !! r = Some v → eqb v e = true →
  rank_of u e = r.
Proof. intros Hs Hr Hv. unfold rank_of. by rewrite (rank_selected u e v r). Qed.

(** A number of the array has its rank: the position in [np.unique] of the
    value equal to it. *)
Lemma rank_of_number (arr : list A) (e : A) :
  e ∈ arr → is_number e = true →
  ∃ v, np_unique arr !! rank_of (np_unique arr) e = Some v ∧
       eqb v e = true ∧
       np_take (np_argsort (np_unique arr)) (np_where_eq (np_unique arr) e)
         = [rank_of (np_unique arr) e].
Proof.
  intros He Hnum.
  destruct (np_unique_cover arr e He) as (v & [r Hr]%list_elem_of_lookup & Hsame).
  apply np_same_number in Hsame; [|done].
  pose proof (np_unique_sorted arr) as Hs.
  rewrite (rank_of_lookup _ e v r Hs Hr Hsame). exists v.
  split; [done|]. split; [done|]. by eapply rank_selected.
Qed.

(** The ranks keep the order and the equality of the numbers. *)
Lemma rank_of_order (arr : list A) (a b : A) :
  a ∈ arr → b ∈ arr → is_number a = true → is_number b = true →
  (rank_of (np_unique arr) a = rank_of (np_unique arr) b ↔ eqb a b = true) ∧
  ((rank_of (np_unique arr) a < rank_of (np_unique arr) b)%nat
     ↔ ltb a b = true).
Proof.
  intros Ha Hb Hna Hnb.
  destruct (rank_of_number arr a Ha Hna) as (u & Hu & Hua & _).
  destruct (rank_of_number arr b Hb Hnb) as (v & Hv & Hvb & _).
  pose proof (np_unique_sorted arr) as Hs. split; split.
  - intros Heq. rewrite Heq, Hv in Hu. injection Hu as ->.
    eapply ord_eqb_trans; [apply ord_eqb_sym; exact Hua|done].
  - intros Hab. eapply sorted_same_position; [exact Hs|exact Hu|exact Hv|].
    apply np_same_true. left.
    eapply ord_eqb_trans; [exact Hua|].
    eapply ord_eqb_trans; [exact Hab|]. by apply ord_eqb_sym.
  - intros Hlt.
    pose proof (sorted_lookup_before _ _ _ _ _ Hs Hu Hv Hlt) as Huv.
    apply np_lt_true in Huv as [Huv|[_ Hnan]].
    + eapply ltb_eqb_l; [exact Hua|]. by eapply ltb_eqb_r.
    + apply eqb_number_l in Hvb. congruence.
  - intros Hab.
    destruct (Nat.lt_trichotomy (rank_of (np_unique arr) a)
                (rank_of (np_unique arr) b)) as [?|[Heq|Hgt]]; [done| |].
    + rewrite Heq, Hv in Hu. injection Hu as ->.
      pose proof (ord_eqb_trans _ _ _ (ord_eqb_sym _ _ Hua) Hvb) as Heqab.
      apply ord_ltb_eqb in Hab. congruence.
    + pose proof (sorted_lookup_before _ _ _ _ _ Hs Hv Hu Hgt) as Hvu.
      apply np_lt_true in Hvu as [Hvu|[_ Hnan]].
      * pose proof (ltb_eqb_r _ _ _ Hua (ltb_eqb_l _ _ _ Hvb Hvu)) as Hba.
        pose proof (ord_ltb_trans _ _ _ Hab Hba) as Haa.
        pose proof (ord_ltb_eqb _ _ Haa).
        destruct (ord_ltb_number _ _ Haa). congruence.
      * apply eqb_number_l in Hua. congruence.
Qed.

Lemma rank_selected_nan (u : list A) (e : A) :
  is_number e = false → np_take (np_argsort u) (np_where_eq u e) = [].
Proof. intros He. by rewrite np_where_eq_nan. Qed.

(** Ranks do not tell apart two lists of distinct values that are equal
    value by value. *)
Lemma np_where_eq_same (u u' : list A) (e : A) :
  Forall2 (λ a b, np_same a b = true) u u' →
  np_where_eq u e = np_where_eq u' e.
Proof.
  unfold np_where_eq. intros Hsame.
  assert (∀ k,
    (filter (λ p, eqb p.2 e = true) (imap (λ i a, ((k + i)%nat, a)) u)).*1 =
    (filter (λ p, eqb p.2 e = true) (imap (λ i a, ((k + i)%nat, a)) u')).*1)
    as Hk; [|exact (Hk 0%nat)].
  induction Hsame as [|a b u u' Hab _ IH]; intros k; [done|].
  rewrite !imap_cons, !filter_cons. simpl.
  rewrite (imap_ext _ (λ i b, ((S k + i)%nat, b)) u),
    (imap_ext _ (λ i b, ((S k + i)%nat, b)) u')
    by (intros i c _; simpl; f_equal; lia).
  assert (eqb a e = eqb b e) as Heq.
  { apply np_same_true in Hab as [Hab|[Ha Hb]].
    - destruct (eqb a e) eqn:Hae, (eqb b e) eqn:Hbe; try done.
      + pose proof (ord_eqb_trans b a e (ord_eqb_sym _ _ Hab) Hae). congruence.
      + pose proof (ord_eqb_trans a b e Hab Hbe). congruence.
    - destruct (eqb a e) eqn:Hae.
      { apply eqb_number_l in Hae. congruence. }
      destruct (eqb b e) eqn:Hbe; [|done].
      apply eqb_number_l in Hbe. congruence. }
  rewrite Heq.
  destruct (decide (eqb b e = true)); [rewrite !fmap_cons; f_equal|]; apply IH.
Qed.

Lemma rank_of_same (u u' : list A) (e : A) :
  StronglySorted before u → StronglySorted before u' →
  Forall2 (λ a b, np_same a b = true) u u' →
  rank_of u e = rank_of u' e.
Proof.
  intros Hs Hs' Hsame. unfold rank_of.
  rewrite !np_argsort_sorted by done.
  by rewrite (np_where_eq_same u u' e Hsame), (Forall2_length _ _ _ Hsame).
Qed.
End RankFacts.

(** ** [np.array(rows).ravel()] *)

Lemma np_array_ravel_singletons {B C} (f : B → C) (l : list B) :
  np_array_ravel ((λ b, [f b]) <$> l) = Ok (f <$> l).
Proof.
  assert (concat ((λ b, [f b]) <$> l) = f <$> l) as Hc.
  { induction l as [|c l IH]; [done|]. simpl. by f_equal. }
  destruct l as [|b l]; [done|].
  change (np_array_ravel ((λ b, [f b]) <$> b :: l)) with
    (if forallb (λ r, length r =? 1)%nat ((λ b, [f b]) <$> b :: l)
     then Ok (concat ((λ b, [f b]) <$> b :: l)) else Raise ValueError).
  rewrite Hc, (proj2 (forallb_forall _ _)); [done|].
  intros r (c & -> & _)%list_elem_of_In%list_elem_of_fmap. done.
Qed.

Lemma np_array_ravel_empties {B} (rows : list (list B)) :
  Forall (λ r, r = []) rows → np_array_ravel rows = Ok [].
Proof.
  intros Hrows. destruct rows as [|row rows]; [done|]. unfold np_array_ravel.
  rewrite (proj2 (forallb_forall _ _)).
  - f_equal. induction Hrows as [|r rs -> _ IH]; [done|]. done.
  - rewrite Forall_forall in Hrows.
    intros r Hr%list_elem_of_In. rewrite (Hrows r Hr).
    by rewrite (Hrows row) by left.
Qed.

Lemma np_array_ravel_ragged {B} (rows : list (list B)) (r1 r2 : list B) :
  r1 ∈ rows → r2 ∈ rows → length r1 ≠ length r2 →
  np_array_ravel rows = Raise ValueError.
Proof.
  intros H1 H2 Hne. destruct rows as [|row rows]; [by apply elem_of_nil in H1|].
  unfold np_array_ravel.
  destruct (forallb _ (row :: rows)) eqn:Hall; [|done].
  rewrite forallb_forall in Hall.
  pose proof (Hall r1 (proj1 (list_elem_of_In _ _) H1)) as E1.
  pose proof (Hall r2 (proj1 (list_elem_of_In _ _) H2)) as E2.
  apply Nat.eqb_eq in E1, E2. congruence.
Qed.

(** ** [get_ranks] *)

Section GetRanksFacts.
Context {A : Type} `{Comparable A} `{!OrderLaws A}.

(** On numbers [get_ranks] maps every element to its rank. *)
Lemma get_ranks_numbers (arr : list A) :
  Forall (λ a, is_number a = true) arr →
  get_ranks arr = Ok (rank_of (np_unique arr) <$> arr).
Proof.
  intros Hnum. unfold get_ranks.
  rewrite <- np_array_ravel_singletons. f_equal.
  apply Forall_fmap_ext_1, Forall_forall. intros e He.
  rewrite Forall_forall in Hnum.
  by destruct (rank_of_number arr e He (Hnum e He)) as (v & _ & _ & ->).
Qed.

(** On NaNs alone every selection is empty, and so is the result. *)
Lemma get_ranks_nans (arr : list A) :
  Forall (λ a, is_number a = false) arr → get_ranks arr = Ok [].
Proof.
  intros Hnan. unfold get_ranks. apply np_array_ravel_empties.
  apply Forall_fmap. eapply Forall_impl; [exact Hnan|].
  intros e He. simpl. by apply rank_selected_nan.
Qed.

(** A number next to a NaN: selections of one rank and of none, which
    [np.array] refuses. *)
Lemma get_ranks_mixed (arr : list A) (a b : A) :
  a ∈ arr → is_number a = true → b ∈ arr → is_number b = false →
  get_ranks arr = Raise ValueError.
Proof.
  intros Ha Hnum Hb Hnan. unfold get_ranks.
  destruct (rank_of_number arr a Ha Hnum) as (v & _ & _ & Hsel).
  eapply np_array_ravel_ragged.
  - apply list_elem_of_fmap. by exists a.
  - apply list_elem_of_fmap. by exists b.
  - cbv beta zeta. rewrite ?Hsel, (rank_selected_nan _ b Hnan). done.
Qed.

Lemma numbers_or_nan (arr : list A) :
  Forall (λ a, is_number a = true) arr ∨
  ∃ b, b ∈ arr ∧ is_number b = false.
Proof.
  induction arr as [|a arr [IH|(b & Hb & Hnan)]].
  - left. constructor.
  - destruct (is_number a) eqn:Ha; [left; by constructor|].
    right. exists a. split; [left|done].
  - right. exists b. split; [by right|done].
Qed.

Lemma nans_or_number (arr : list A) :
  Forall (λ a, is_number a = false) arr ∨
  ∃ a, a ∈ arr ∧ is_number a = true.
Proof.
  induction arr as [|a arr [IH|(b & Hb & Hnan)]].
  - left. constructor.
  - destruct (is_number a) eqn:Ha; [|left; by constructor].
    right. exists a. split; [left|done].
  - right. exists b. split; [by right|done].
Qed.

(** The three outcomes of [get_ranks]. *)
Lemma get_ranks_cases (arr : list A) :
  (Forall (λ a, is_number a = true) arr ∧
   get_ranks arr = Ok (rank_of (np_unique arr) <$> arr)) ∨
  (Forall (λ a, is_number a = false) arr ∧ get_ranks arr = Ok []) ∨
  ((∃ a, a ∈ arr ∧ is_number a = true) ∧
   (∃ b, b ∈ arr ∧ is_number b = false) ∧
   get_ranks arr = Raise ValueError).
Proof.
  destruct (numbers_or_nan arr) as [Hnum|(b & Hb & Hnan)].
  { left. split; [done|]. by apply get_ranks_numbers. }
  destruct (nans_or_number arr) as [Hnans|(a & Ha & Hnum)].
  { right; left. split; [done|]. by apply get_ranks_nans. }
  right; right. split; [by exists a|]. split; [by exists b|].
  exact (get_ranks_mixed arr a b Ha Hnum Hb Hnan).
Qed.

Lemma get_ranks_ok_numbers (arr : list A) (ranks : list nat) :
  arr ≠ [] → get_ranks arr = Ok ranks → ranks ≠ [] →
  Forall (λ a, is_number a = true) arr.
Proof.
  intros Hne Hr Hranks.
  destruct (get_ranks_cases arr) as [[? _]|[[_ Hnil]|(_ & _ & Hraise)]];
    [done|congruence|congruence].
Qed.

Lemma get_ranks_lookup (arr : list A) (i : nat) (e : A) :
  Forall (λ a, is_number a = true) arr → arr !! i = Some e →
  ∃ ranks r v, get_ranks arr = Ok ranks ∧ ranks !! i = Some r ∧
    np_unique arr !! r = Some v ∧ eqb v e = true.
Proof.
  intros Hnum Hi. exists (rank_of (np_unique arr) <$> arr),
    (rank_of (np_unique arr) e).
  assert (e ∈ arr) as He by (by eapply list_elem_of_lookup_2).
  rewrite Forall_forall in Hnum.
  destruct (rank_of_number arr e He (Hnum e He)) as (v & Hv & Heq & _).
  exists v. split; [apply get_ranks_numbers; by apply Forall_forall|].
  by rewrite list_lookup_fmap, Hi.
Qed.

(** The ranks handed out are 0, 1, ..., one for each distinct value. *)
Lemma get_ranks_elem_of (arr : list A) (r : nat) :
  Forall (λ a, is_number a = true) arr →
  r ∈ rank_of (np_unique arr) <$> arr ↔ (r < length (np_unique arr))%nat.
Proof.
  intros Hnum. rewrite Forall_forall in Hnum. split.
  - intros (e & -> & He)%list_elem_of_fmap.
    destruct (rank_of_number arr e He (Hnum e He)) as (v & Hv & _).
    by eapply lookup_lt_Some.
  - intros Hr. destruct (lookup_lt_is_Some_2 _ _ Hr) as [e He].
    assert (e ∈ arr) as Hin
      by (eapply np_unique_sub; by eapply list_elem_of_lookup_2).
    apply list_elem_of_fmap. exists e. split; [|done]. symmetry.
    apply (rank_of_lookup _ e e r); [apply np_unique_sorted|done|].
    by apply Hnum.
Qed.
End GetRanksFacts.

(** ** Total orders: every value is a number *)

Section TotalOrderFacts.
Context {A : Type} `{Comparable A} `{!TotalOrderLaws A}.

Lemma all_numbers (arr : list A) : Forall (λ a, is_number a = true) arr.
Proof. apply Forall_forall. intros a _. apply eqb_refl. Qed.

Lemma np_same_eq (a b : A) : np_same a b = true ↔ a = b.
Proof.
  rewrite np_same_true. unfold is_number. rewrite !eqb_refl, eqb_eq.
  split; [by intros [?|[? _]]|by left].
Qed.

Lemma before_ltb (a b : A) : before a b ↔ ltb a b = true.
Proof.
  unfold before. rewrite np_lt_true. unfold is_number. rewrite !eqb_refl.
  split; [by intros [?|[_ ?]]|by left].
Qed.

Lemma same_list_eq (l1 l2 : list A) :
  Forall2 (λ a b, np_same a b = true) l1 l2 → l1 = l2.
Proof.
  induction 1 as [|a b l1 l2 Hab%np_same_eq _ IH]; [done|]. by subst.
Qed.

Lemma StronglySorted_before_NoDup (l : list A) :
  StronglySorted before l → NoDup l.
Proof.
  induction 1 as [|a l Hl IH Hall]; constructor; [|done].
  intros Hin. rewrite Forall_forall in Hall.
  by apply (before_irrefl a), Hall.
Qed.

Lemma np_unique_elem_of (arr : list A) (a : A) : a ∈ np_unique arr ↔ a ∈ arr.
Proof.
  split; [apply np_unique_sub|].
  intros (u & Hu & ->%np_same_eq)%np_unique_cover. done.
Qed.

Lemma np_unique_NoDup (arr : list A) : NoDup (np_unique arr).
Proof. apply StronglySorted_before_NoDup, np_unique_sorted. Qed.

(** An ascending list without repeats is determined by its elements. *)
Lemma np_unique_characterised (arr u : list A) :
  StronglySorted before u → (∀ a, a ∈ u ↔ a ∈ arr) → np_unique arr = u.
Proof.
  intros Hu Hel. apply same_list_eq.
  apply sorted_same_unique; [apply np_unique_sorted|done| |].
  - intros a Ha%np_unique_elem_of%Hel. exists a.
    split; [done|apply np_same_refl].
  - intros b Hb%Hel%np_unique_elem_of. exists b.
    split; [done|apply np_same_refl].
Qed.

Lemma np_unique_perm (arr arr' : list A) :
  arr ≡ₚ arr' → np_unique arr = np_unique arr'.
Proof. intros Hp. by apply same_list_eq, np_unique_perm_same. Qed.

Lemma get_ranks_fmap (arr : list A) :
  get_ranks arr = Ok (rank_of (np_unique arr) <$> arr).
Proof. apply get_ranks_numbers, all_numbers. Qed.

Lemma rank_of_elem_of (arr : list A) (e : A) :
  e ∈ arr → np_unique arr !! rank_of (np_unique arr) e = Some e.
Proof.
  intros He.
  destruct (rank_of_number arr e He (eqb_refl e)) as (v & Hv & ->%eqb_eq & _).
  done.
Qed.
End TotalOrderFacts.

Lemma seq_sorted (k n : nat) : StronglySorted (before (A:=nat)) (seq k n).
Proof.
  revert k. induction n as [|n IH]; intros k; [constructor|].
  simpl. constructor; [apply IH|].
  apply Forall_forall. intros j Hj%elem_of_seq.
  unfold before, np_lt. simpl. apply orb_true_iff. left.
  apply Nat.ltb_lt. lia.
Qed.

Section RankCount.
Context {A : Type} `{Comparable A} `{!OrderLaws A}.

(** The distinct ranks along an axis are 0, 1, ..., one per distinct
    value. *)
Lemma np_unique_ranks (arr : list A) :
  Forall (λ a, is_number a = true) arr →
  np_unique (rank_of (np_unique arr) <$> arr) = seq 0 (length (np_unique arr)).
Proof.
  intros Hnum. apply np_unique_characterised; [apply seq_sorted|].
  intros r. rewrite get_ranks_elem_of, elem_of_seq by done. lia.
Qed.
End RankCount.

(** ** The rasteriser *)

Lemma zip3_fmap {T X Y C} (f : T → X) (g : T → Y) (h : T → C) (l : list T) :
  zip3 (f <$> l) (g <$> l) (h <$> l) = (λ t, (f t, g t, h t)) <$> l.
Proof. unfold zip3. induction l as [|t l IH]; [done|]. simpl. by f_equal. Qed.

Lemma zip3_nil_r {X Y C} (x : list X) (color : list C) :
  zip3 x ([] : list Y) color = [].
Proof. unfold zip3. by destruct x. Qed.

Lemma putpixel_size (im im' : image) (xy : nat * nat) (value : rgb) :
  putpixel im xy value = Ok im' → im_size im' = im_size im.
Proof. unfold putpixel. case_decide; [|done]. by intros [= <-]. Qed.

Lemma paint_size (im im' : image) (p : nat * nat * Z) :
  paint im p = Ok im' → im_size im' = im_size im.
Proof.
  destruct p as [[x y] c]. unfold paint. case_decide.
  - apply putpixel_size.
  - by intros [= <-].
Qed.

Lemma paint_inside (im : image) (p : nat * nat * Z) :
  (p.1.1 < (im_size im).1)%nat → (p.1.2 < (im_size im).2)%nat →
  ∃ im', paint im p = Ok im'.
Proof.
  destruct p as [[x y] c]. simpl. intros Hx Hy. unfold paint, putpixel.
  case_decide; [|by eexists]. simpl. rewrite decide_True by done. by eexists.
Qed.

(** Painting white at two places gives the same image in either order; an
    [IndexError] is raised in one order exactly when it is in the other. *)
Lemma paint_comm (im : image) (p q : nat * nat * Z) :
  (paint im p ≫= λ im', paint im' q) = (paint im q ≫= λ im', paint im' p).
Proof.
  destruct p as [[x1 y1] c1], q as [[x2 y2] c2]. unfold paint, putpixel.
  repeat (case_decide; simpl); try done.
  do 2 f_equal. destruct (decide (y1 = y2)) as [->|Hy].
  - rewrite !list_alter_alter_eq. apply list_alter_ext; [|done].
    intros row _. simpl. destruct (decide (x1 = x2)) as [->|Hx]; [done|].
    by apply list_insert_insert_ne.
  - by apply list_alter_alter_ne.
Qed.

Lemma paint_fold_perm (ps ps' : list (nat * nat * Z)) :
  ps ≡ₚ ps' →
  ∀ r : result image,
    foldl (λ r p, im ← r; paint im p) r ps
    = foldl (λ r p, im ← r; paint im p) r ps'.
Proof.
  induction 1 as [|p ps ps' _ IH|p q ps|ps ps' ps'' _ IH1 _ IH2]; intros r.
  - done.
  - simpl. apply IH.
  - simpl. f_equal. destruct r as [im|e]; [|done]. apply paint_comm.
  - by rewrite IH1.
Qed.

Lemma paint_fold_inside (ps : list (nat * nat * Z)) : ∀ im : image,
  Forall (λ p, (p.1.1 < (im_size im).1)%nat ∧ (p.1.2 < (im_size im).2)%nat) ps →
  ∃ im', foldl (λ r p, im ← r; paint im p) (Ok im) ps = Ok im' ∧
         im_size im' = im_size im.
Proof.
  induction ps as [|p ps IH]; intros im Hall; [by exists im|].
  apply Forall_cons_1 in Hall as [[Hx Hy] Hall].
  destruct (paint_inside im p Hx Hy) as [im1 Hp]. simpl. rewrite Hp. simpl.
  pose proof (paint_size im im1 p Hp) as Hsize.
  destruct (IH im1) as (im' & Hfold & Hsize'); [by rewrite Hsize|].
  exists im'. split; [done|congruence].
Qed.

Lemma raster_nil_l (y : list nat) (color : list Z) :
  raster [] y color = Ok (Image_new (0%nat, length (np_unique y))).
Proof. done. Qed.

Lemma raster_nil_r (x : list nat) (color : list Z) :
  raster x [] color = Ok (Image_new (length (np_unique x), 0%nat)).
Proof. unfold raster. by rewrite zip3_nil_r. Qed.

Lemma raster_perm {T} (f g : T → nat) (h : T → Z) (l l' : list T) :
  l ≡ₚ l' →
  raster (f <$> l) (g <$> l) (h <$> l) = raster (f <$> l') (g <$> l') (h <$> l').
Proof.
  intros Hp. unfold raster. rewrite !zip3_fmap.
  rewrite (np_unique_perm (f <$> l) (f <$> l')) by (by rewrite Hp).
  rewrite (np_unique_perm (g <$> l) (g <$> l')) by (by rewrite Hp).
  apply paint_fold_perm. by rewrite Hp.
Qed.

Section RasterFacts.
Context {A : Type} `{Comparable A} `{!OrderLaws A}.

(** [get_ranks] of an array and of a permutation of it: the same error, no
    rank at all, or one rank function for both. *)
Lemma get_ranks_perm (arr arr' : list A) :
  arr ≡ₚ arr' →
  (∃ e, get_ranks arr = Raise e ∧ get_ranks arr' = Raise e) ∨
  (get_ranks arr = Ok [] ∧ get_ranks arr' = Ok []) ∨
  (∃ f : A → nat, get_ranks arr = Ok (f <$> arr) ∧
                  get_ranks arr' = Ok (f <$> arr')).
Proof.
  intros Hp.
  destruct (get_ranks_cases arr)
    as [[Hnum Hr]|[[Hnan Hr]|((a & Ha & Hnum) & (b & Hb & Hnan) & Hr)]].
  - right; right. exists (rank_of (np_unique arr)). split; [done|].
    rewrite get_ranks_numbers by (by rewrite <- Hp). f_equal.
    apply Forall_fmap_ext_1, Forall_forall. intros e _.
    apply rank_of_same; try apply np_unique_sorted.
    apply np_unique_perm_same. by symmetry.
  - right; left. split; [done|]. apply get_ranks_nans. by rewrite <- Hp.
  - left. exists ValueError. split; [done|].
    apply (get_ranks_mixed arr' a b); [by rewrite <- Hp|done|by rewrite <- Hp|done].
Qed.

(** The order of the samples does not matter. *)
Lemma draw_fractal_perm (l l' : list (A * A * Z)) :
  l ≡ₚ l' → draw_fractal l = draw_fractal l'.
Proof.
  intros Hp. destruct (decide (l = [])) as [->|Hne].
  { by apply Permutation_nil_l in Hp as ->. }
  assert (l' ≠ []) as Hne' by (intros ->; by apply Permutation_nil_r in Hp).
  assert (∀ k : list (A * A * Z), k ≠ [] →
    draw_fractal k = (x ← get_ranks (k.*1.*1); y ← get_ranks (k.*1.*2);
                      raster x y (k.*2))) as Hdraw by (by intros [|? ?]).
  rewrite !Hdraw by done.
  assert (l.*1.*1 ≡ₚ l'.*1.*1) as Hx by (by rewrite Hp).
  assert (l.*1.*2 ≡ₚ l'.*1.*2) as Hy by (by rewrite Hp).
  destruct (get_ranks_perm _ _ Hx)
    as [(e & -> & ->)|[[-> ->]|(f & -> & ->)]]; [done| |];
    (destruct (get_ranks_perm _ _ Hy)
       as [(e' & -> & ->)|[[-> ->]|(g & -> & ->)]]; [done| |];
     cbn [mbind result_bind]).
  - done.
  - rewrite !raster_nil_l.
    by rewrite (np_unique_perm (g <$> l.*1.*2) (g <$> l'.*1.*2))
      by (by rewrite Hy).
  - rewrite !raster_nil_r.
    by rewrite (np_unique_perm (f <$> l.*1.*1) (f <$> l'.*1.*1))
      by (by rewrite Hx).
  - rewrite <- !list_fmap_compose. by apply raster_perm.
Qed.

(** The ranked samples the loop of lines 50-52 runs over, when no
    coordinate is a NaN. *)
Lemma draw_fractal_numbers (fractal_list : list (A * A * Z)) :
  fractal_list ≠ [] →
  Forall (λ a, is_number a = true) (fractal_list.*1.*1) →
  Forall (λ a, is_number a = true) (fractal_list.*1.*2) →
  draw_fractal fractal_list
  = foldl (λ r p, im ← r; paint im p)
      (Ok (Image_new (length (np_unique (fractal_list.*1.*1)),
                      length (np_unique (fractal_list.*1.*2)))))
      ((λ t, (rank_of (np_unique (fractal_list.*1.*1)) t.1.1,
              rank_of (np_unique (fractal_list.*1.*2)) t.1.2, t.2))
         <$> fractal_list).
Proof.
  intros Hne Hx Hy. unfold draw_fractal.
  destruct fractal_list as [|t l] eqn:Hl; [done|]. rewrite <- Hl in *.
  rewrite !get_ranks_numbers by done. cbn [mbind result_bind]. unfold raster.
  rewrite !np_unique_ranks, !length_seq by done.
  by rewrite <- !list_fmap_compose, (zip3_fmap _ _ snd).
Qed.

(** A list with a sample in it and without a NaN is drawn, on an image as
    wide as there are distinct x-values and as high as there are distinct
    y-values. *)
Lemma draw_fractal_ok (fractal_list : list (A * A * Z)) :
  fractal_list ≠ [] →
  Forall (λ a, is_number a = true) (fractal_list.*1.*1) →
  Forall (λ a, is_number a = true) (fractal_list.*1.*2) →
  ∃ im, draw_fractal fractal_list = Ok im ∧
        im_size im = (length (np_unique (fractal_list.*1.*1)),
                      length (np_unique (fractal_list.*1.*2))).
Proof.
  intros Hne Hx Hy. rewrite draw_fractal_numbers by done.
  apply paint_fold_inside. simpl.
  apply Forall_forall. intros p (t & -> & Ht)%list_elem_of_fmap. simpl.
  rewrite Forall_forall in Hx, Hy.
  assert (t.1.1 ∈ fractal_list.*1.*1) as Htx.
  { apply list_elem_of_fmap. exists t.1. split; [done|].
    apply list_elem_of_fmap. by exists t. }
  assert (t.1.2 ∈ fractal_list.*1.*2) as Hty.
  { apply list_elem_of_fmap. exists t.1. split; [done|].
    apply list_elem_of_fmap. by exists t. }
  destruct (rank_of_number _ _ Htx (Hx _ Htx)) as (u & Hu & _).
  destruct (rank_of_number _ _ Hty (Hy _ Hty)) as (v & Hv & _).
  split; by eapply lookup_lt_Some.
Qed.

(** C7 (amended): [np.unique(arr)] is the values of [arr] in ascending
    order, one for each value ([-0.0] and [0.0] being one value, and all
    NaNs one, at the end).  For an array without a NaN [get_ranks] returns
    one rank for each position: the 0-based position in [np.unique(arr)] of
    the value equal to the coordinate; two positions have the same rank
    exactly when their coordinates are equal, and there are as many
    distinct ranks as distinct values.  An array of NaNs only gets no rank
    at all, and an array with a number and a NaN makes [get_ranks] raise
    [ValueError].  The image drawn from a list of samples without a NaN is
    as wide as the distinct x-values are many and as high as the distinct
    y-values are many. *)
Theorem get_ranks_position_among_distinct :
  (∀ arr : list A,
     StronglySorted before (np_unique arr) ∧
     (∀ u, u ∈ np_unique arr → u ∈ arr) ∧
     (∀ a, a ∈ arr → ∃ u, u ∈ np_unique arr ∧ np_same u a = true) ∧
     (Forall (λ a, is_number a = true) arr →
        ∃ ranks, get_ranks arr = Ok ranks ∧
          length ranks = length arr ∧
          (∀ i e, arr !! i = Some e →
             ∃ r v, ranks !! i = Some r ∧ np_unique arr !! r = Some v ∧
                    eqb v e = true) ∧
          (∀ i j a b r s, arr !! i = Some a → arr !! j = Some b →
             ranks !! i = Some r → ranks !! j = Some s →
             (r = s ↔ eqb a b = true) ∧ ((r < s)%nat ↔ ltb a b = true)) ∧
          length (np_unique ranks) = length (np_unique arr)) ∧
     (Forall (λ a, is_number a = false) arr → get_ranks arr = Ok []) ∧
     (∀ a b, a ∈ arr → is_number a = true → b ∈ arr → is_number b = false →
        get_ranks arr = Raise ValueError)) ∧
  (∀ fractal_list : list (A * A * Z),
     fractal_list ≠ [] →
     Forall (λ a, is_number a = true) (fractal_list.*1.*1) →
     Forall (λ a, is_number a = true) (fractal_list.*1.*2) →
     ∃ im x y, draw_fractal fractal_list = Ok im ∧
       get_ranks (fractal_list.*1.*1) = Ok x ∧
       get_ranks (fractal_list.*1.*2) = Ok y ∧
       im_size im = (length (np_unique x), length (np_unique y)) ∧
       im_size im = (length (np_unique (fractal_list.*1.*1)),
                     length (np_unique (fractal_list.*1.*2)))).
Proof.
  split.
  - intros arr. split; [apply np_unique_sorted|].
    split; [apply np_unique_sub|]. split; [apply np_unique_cover|].
    split; [|split; [apply get_ranks_nans|apply get_ranks_mixed]].
    intros Hnum. exists (rank_of (np_unique arr) <$> arr).
    split; [by apply get_ranks_numbers|]. split; [by rewrite length_fmap|].
    assert (∀ i e, arr !! i = Some e →
      ∃ v, np_unique arr !! rank_of (np_unique arr) e = Some v ∧
           eqb v e = true) as Hrank.
    { intros i e Hi. rewrite Forall_forall in Hnum.
      assert (e ∈ arr) as He by (by eapply list_elem_of_lookup_2).
      destruct (rank_of_number arr e He (Hnum e He)) as (v & Hv & Heq & _).
      by exists v. }
    split; [|split].
    + intros i e Hi. destruct (Hrank i e Hi) as (v & Hv & Heq).
      exists (rank_of (np_unique arr) e), v.
      by rewrite list_lookup_fmap, Hi.
    + intros i j a b r s Hi Hj. rewrite !list_lookup_fmap, Hi, Hj.
      intros [= <-] [= <-]. rewrite Forall_forall in Hnum.
      assert (a ∈ arr) as Ha by (by eapply list_elem_of_lookup_2).
      assert (b ∈ arr) as Hb by (by eapply list_elem_of_lookup_2).
      by apply rank_of_order; auto.
    + by rewrite np_unique_ranks, length_seq.
  - intros fractal_list Hne Hx Hy.
    destruct (draw_fractal_ok fractal_list Hne Hx Hy) as (im & Him & Hsize).
    exists im, (rank_of (np_unique (fractal_list.*1.*1)) <$> fractal_list.*1.*1),
      (rank_of (np_unique (fractal_list.*1.*2)) <$> fractal_list.*1.*2).
    split; [done|]. split; [by apply get_ranks_numbers|].
    split; [by apply get_ranks_numbers|]. split; [|done].
    by rewrite !np_unique_ranks, !length_seq.
Qed.
End RasterFacts.

(** C7 (as stated, refuted): in binary64 the array holding one NaN gets no
    rank: [np.where(unique == element)] is empty for a NaN, and so is the
    array [get_ranks] returns. *)
Lemma get_ranks_nan_has_no_rank :
  ¬ (∀ arr : list float,
       ∃ ranks, get_ranks arr = Ok ranks ∧
         ∀ i e, arr !! i = Some e → ∃ r, ranks !! i = Some r).
Proof.
  intros Hclaim. destruct (Hclaim [nan]) as (ranks & Hranks & Hrank).
  vm_compute in Hranks. injection Hranks as <-.
  by destruct (Hrank 0%nat nan eq_refl) as (r & Hr).
Qed.

Lemma get_ranks_position_among_distinct_witness :
  (∃ ranks, get_ranks [3; 1; -0; 3; 0]%float = Ok ranks ∧
     length (np_unique ranks) = length (np_unique [3; 1; -0; 3; 0]%float)) ∧
  get_ranks [nan; 1]%float = Raise ValueError ∧
  ∃ im, draw_fractal [(3%float, 1%float, 1); (1%float, 1%float, 0);
                      (2%float, 5%float, 1)] = Ok im ∧
        im_size im = (3%nat, 2%nat).
Proof.
  destruct (get_ranks_position_among_distinct (A:=float)) as [Hranks Hdraw].
  split; [|split].
  - destruct (Hranks [3; 1; -0; 3; 0]%float) as (_ & _ & _ & Hnum & _).
    destruct Hnum as (ranks & Hr & _ & _ & _ & Hlen);
      [by repeat constructor|].
    exists ranks. split; [exact Hr|exact Hlen].
  - destruct (Hranks [nan; 1]%float) as (_ & _ & _ & _ & _ & Hmixed).
    apply (Hmixed 1 nan)%float; [by right; left|reflexivity|by left|reflexivity].
  - destruct (Hdraw [(3%float, 1%float, 1); (1%float, 1%float, 0);
                     (2%float, 5%float, 1)])
      as (im & x & y & Him & _ & _ & _ & Hsize);
      [done|by repeat constructor|by repeat constructor|].
    exists im. split; [exact Him|exact Hsize].
Defined.

(** ** The shared dictionary *)

Section DictFacts.
Context {V : Type}.
Implicit Types (d : dict V) (k j : Z) (v : V).

Lemma dict_get_set k j v d :
  dict_get j (dict_set k v d) = if decide (j = k) then Some v else dict_get j d.
Proof.
  induction d as [|[k' v'] d IH]; simpl.
  - by repeat case_decide.
  - repeat (case_decide; simpl; subst); try done; try congruence.
Qed.

Lemma dict_get_is_Some k d : is_Some (dict_get k d) ↔ k ∈ dict_keys d.
Proof.
  unfold dict_keys. induction d as [|[k' v'] d IH]; simpl.
  - split; [by intros [? ?]|by intros ?%elem_of_nil].
  - rewrite elem_of_cons. case_decide; simpl; [|tauto].
    split; [by left|by eexists].
Qed.

Lemma dict_keys_set k v d :
  dict_keys (dict_set k v d)
  = if decide (k ∈ dict_keys d) then dict_keys d else dict_keys d ++ [k].
Proof.
  unfold dict_keys. induction d as [|[k' v'] d IH]; [done|].
  cbn [dict_set]. destruct (decide (k = k')) as [->|Hne].
  - rewrite !fmap_cons. cbn [fst]. rewrite decide_True; [done|by left].
  - rewrite !fmap_cons, IH. cbn [fst].
    destruct (decide (k ∈ d.*1)) as [Hin|Hnin].
    + rewrite decide_True; [done|by right].
    + rewrite decide_False; [done|]. rewrite not_elem_of_cons. auto.
Qed.

Lemma dict_set_NoDup k v d : NoDup (dict_keys d) → NoDup (dict_keys (dict_set k v d)).
Proof.
  intros Hnd. rewrite dict_keys_set. case_decide; [done|].
  apply NoDup_app. split; [done|]. split; [|apply NoDup_singleton].
  intros j Hj ->%list_elem_of_singleton. done.
Qed.

(** A dictionary lists, for each of its keys in order, the value stored
    under the key. *)
Lemma dict_values_by_key (dflt : V) d :
  NoDup (dict_keys d) →
  dict_values d = (λ k, default dflt (dict_get k d)) <$> dict_keys d.
Proof.
  unfold dict_values, dict_keys. induction d as [|[k v] d IH]; [done|].
  rewrite !fmap_cons. cbn [fst snd]. intros [Hk Hnd]%NoDup_cons.
  cbn [dict_get]. rewrite decide_True by done. cbn [default].
  f_equal. rewrite IH by done. apply list_fmap_ext. intros i j Hj.
  rewrite decide_False; [done|]. intros ->.
  apply Hk. by eapply list_elem_of_lookup_2.
Qed.
End DictFacts.

Lemma py_index_nat {A} (l : list A) (i : nat) (a : A) :
  l !! i = Some a → py_index l (Z.of_nat i) = Ok a.
Proof.
  intros Hi. pose proof (lookup_lt_Some _ _ _ Hi) as Hlt. unfold py_index.
  destruct (Z.ltb_spec (Z.of_nat i) 0); [lia|].
  destruct (Z.leb_spec 0 (Z.of_nat i)); [|lia].
  destruct (Z.ltb_spec (Z.of_nat i) (Z.of_nat (length l))); [|lia].
  simpl. by rewrite Nat2Z.id, Hi.
Qed.

Lemma concat_length_uniform {A} (ls : list (list A)) (c : nat) :
  Forall (λ l, length l = c) ls → length (concat ls) = (length ls * c)%nat.
Proof.
  induction 1 as [|l ls Hl _ IH]; [done|].
  simpl. rewrite length_app, IH, Hl. lia.
Qed.

Lemma filter_all {A} (P : A → Prop) `{∀ x, Decision (P x)} (l : list A) :
  Forall P l → filter P l = l.
Proof.
  induction 1 as [|x l Hx _ IH]; [done|].
  by rewrite filter_cons_True, IH.
Qed.

(** A loop of calls that can raise returns the list of their results when
    each of them returns. *)
Lemma result_mapM_Ok {A B} (f : A → result B) (l : list A) (k : list B) :
  mapM f l = Ok k ↔ Forall2 (λ a b, f a = Ok b) l k.
Proof.
  revert k. induction l as [|a l IH]; intros k.
  - simpl. split; [intros [= <-]; constructor|by intros ->%Forall2_nil_inv_l].
  - cbn [mapM]. split.
    + destruct (f a) as [b|e] eqn:Ha; [|done]. cbn [mbind result_bind].
      destruct (mapM f l) as [k'|e] eqn:Hl; [|done]. cbn [mbind result_bind].
      intros [= <-]. constructor; [done|]. by apply IH.
    + intros (b & k' & Hb & Hk' & ->)%Forall2_cons_inv_l.
      rewrite Hb. cbn [mbind result_bind].
      apply IH in Hk'. rewrite Hk'. done.
Qed.

Lemma result_mapM_defined {A B} (f : A → result B) (l : list A) :
  (∀ a, a ∈ l → ∃ b, f a = Ok b) → ∃ k, mapM f l = Ok k.
Proof.
  induction l as [|a l IH]; intros Hf; [by exists []|].
  destruct (Hf a ltac:(left)) as [b Hb].
  destruct IH as [k Hk]; [intros c Hc; apply Hf; by right|].
  exists (b :: k). apply result_mapM_Ok. constructor; [done|].
  by apply result_mapM_Ok.
Qed.

(** ** The job of one worker *)

Section JobFacts.
Context {R : Type} `{Number R} `{Power R}.

(** The list a job stores: one entry for each sample of the band, in the
    band's order, holding the sample and its class. *)
Lemma return_list_Ok (xy_values : list (R * R)) (steps : Z)
    (l : list (R * R * Z)) :
  return_list xy_values steps = Ok l ↔
  length l = length xy_values ∧
  ∀ k x y, xy_values !! k = Some (x, y) →
    ∃ b, mandelbrodt_pixel x y steps = Ok b ∧ l !! k = Some (x, y, Z.b2z b).
Proof.
  unfold return_list. rewrite result_mapM_Ok. split.
  - intros Hall. split; [symmetry; by eapply Forall2_length|].
    intros k x y Hk.
    destruct (Forall2_lookup_l _ _ _ _ _ Hall Hk) as (t & Ht & Hc).
    unfold classify in Hc. simpl in Hc.
    destruct (mandelbrodt_pixel x y steps) as [b|e]; [|done].
    injection Hc as <-. by exists b.
  - intros [Hlen Hentry]. apply Forall2_same_length_lookup.
    split; [done|]. intros k [x y] t Hk Ht.
    destruct (Hentry k x y Hk) as (b & Hb & Hl).
    rewrite Hl in Ht. injection Ht as <-.
    unfold classify. simpl. by rewrite Hb.
Qed.

Lemma mandelbrodt_job_Ok (xy_values : list (R * R)) (steps procnum : Z)
    (d d' : dict (list (R * R * Z))) :
  mandelbrodt_job xy_values steps procnum d = Ok d' ↔
  ∃ l, return_list xy_values steps = Ok l ∧ d' = dict_set procnum l d.
Proof.
  unfold mandelbrodt_job.
  destruct (return_list xy_values steps) as [l|e]; simpl.
  - split; [intros [= <-]; by exists l|by intros (l' & [= <-] & ->)].
  - split; [done|by intros (l' & ? & _)].
Qed.

(** Where squares are always defined no call raises. *)
Lemma mandelbrodt_pixel_defined `{!SquaresDefined R} (x y : R) (steps : Z) :
  ∃ b, mandelbrodt_pixel x y steps = Ok b.
Proof.
  destruct (mandelbrodt_pixel x y steps) as [b|e] eqn:Hp; [by exists b|].
  destruct (Z.le_gt_cases 0 steps) as [Hle|Hlt].
  - apply mandelbrodt_pixel_raise_iff in Hp as (k & _ & Hk & _); [|done].
    assert (∀ z : R * R, ∃ s, squares z = Ok s) as Hsq.
    { intros z. unfold squares.
      destruct (pow2_defined z.1) as [a ->], (pow2_defined z.2) as [b ->].
      by eexists. }
    assert (∀ j, ∃ z, z_iter x y j = Ok z) as Hz.
    { induction j as [|j [z Hz]]; [by eexists|].
      rewrite z_iter_succ, Hz. unfold z_next. simpl.
      destruct (Hsq z) as [s ->]. by eexists. }
    unfold escapes_at in Hk. destruct (Hz k) as [z Hzk].
    rewrite Hzk in Hk. unfold escaped in Hk. simpl in Hk.
    destruct (Hsq z) as [s Hs]. by rewrite Hs in Hk.
  - unfold mandelbrodt_pixel in Hp.
    by rewrite mandelbrodt_run_negative_steps in Hp.
Qed.

Lemma return_list_defined `{!SquaresDefined R} (xy_values : list (R * R))
    (steps : Z) :
  ∃ l, return_list xy_values steps = Ok l.
Proof.
  apply result_mapM_defined. intros [x y] _. unfold classify. simpl.
  destruct (mandelbrodt_pixel_defined x y steps) as [b ->]. by eexists.
Qed.
End JobFacts.

#[export] Instance Q_squares_defined : SquaresDefined Q.
Proof. intros r. by eexists. Qed.

#[export] Instance Qc_squares_defined : SquaresDefined Qc.
Proof. intros r. by eexists. Qed.

(** ** The worker pool *)

Section PoolFacts.
Context {R : Type} `{Number R} `{Power R}.
Variable steps : Z.
Variable job_pairs : list (list (R * R)).

(** What a run of the pool leaves behind: the processes still alive are
    those that have not ended; a process that returned has stored the
    results of its band; the entry of any other key is as it was; only
    processes that were alive end, each once; the keys stay distinct. *)
Lemma pool_run_spec (es : list event) (p p' : pool (R:=R)) :
  pool_run steps job_pairs es p p' →
  (∀ j, j ∈ alive p' ↔ j ∈ alive p ∧ (Returns j ∉ es) ∧ (Dies j ∉ es)) ∧
  (∀ j, Returns j ∈ es →
     ∃ xy_values l, py_index job_pairs j = Ok xy_values ∧
       return_list xy_values steps = Ok l ∧
       dict_get j (return_dict p') = Some l) ∧
  (∀ j, Returns j ∉ es →
     dict_get j (return_dict p') = dict_get j (return_dict p)) ∧
  (∀ e, e ∈ es → procnum_of e ∈ alive p) ∧
  NoDup (procnum_of <$> es) ∧
  (NoDup (dict_keys (return_dict p)) → NoDup (dict_keys (return_dict p'))).
Proof.
  induction 1 as [p|e es p p1 p2 Hstep Hrun IH].
  - split; [intros j; rewrite !elem_of_nil; tauto|].
    split; [by intros j ?%elem_of_nil|]. split; [done|].
    split; [by intros e ?%elem_of_nil|]. split; [constructor|done].
  - destruct IH as (IHalive & IHret & IHother & IHproc & IHnd & IHkeys).
    assert (∀ j, j ∈ alive p1 ↔ j ∈ alive p ∧ j ≠ procnum_of e) as Halive1.
    { intros j. destruct Hstep; simpl; rewrite list_elem_of_filter; tauto. }
    assert (procnum_of e ∈ alive p) as He by (destruct Hstep; assumption).
    assert (∀ e', e' ∈ es → procnum_of e' ≠ procnum_of e) as Hfresh.
    { intros e' He'. apply IHproc in He'. by apply Halive1 in He' as [_ ?]. }
    split; [|split; [|split; [|split; [|split]]]].
    + intros j. rewrite IHalive, Halive1, !elem_of_cons.
      destruct Hstep; simpl; split.
      * intros ((? & ?) & ? & ?). split; [done|]. split; intros [?|?]; congruence.
      * intros (? & Hr & Hd). split; [split; [done|]|split]; try tauto.
        intros ->. apply Hr. by left.
      * intros ((? & ?) & ? & ?). split; [done|]. split; intros [?|?]; congruence.
      * intros (? & Hr & Hd). split; [split; [done|]|split]; try tauto.
        intros ->. apply Hd. by left.
    + intros j Hj. destruct (decide (Returns j ∈ es)) as [Hin|Hnin]; [by apply IHret|].
      apply elem_of_cons in Hj as [<-|Hj]; [|done].
      rewrite (IHother j Hnin).
      inversion Hstep as [d d' live i xy Hi Hxy Hjob|]; subst.
      apply mandelbrodt_job_Ok in Hjob as (l & Hl & ->).
      exists xy, l. split; [done|]. split; [done|]. simpl.
      by rewrite dict_get_set, decide_True.
    + intros j Hj. rewrite not_elem_of_cons in Hj. destruct Hj as [Hne Hj].
      rewrite (IHother j Hj).
      destruct Hstep as [d d' live i xy Hi Hxy Hjob|]; [|done].
      apply mandelbrodt_job_Ok in Hjob as (l & Hl & ->).
      simpl. rewrite dict_get_set, decide_False; [done|].
      congruence.
    + intros e' [->|He']%elem_of_cons; [done|].
      apply IHproc in He'. by apply Halive1 in He' as [? _].
    + rewrite fmap_cons. constructor; [|done].
      intros (e' & Heq & He')%list_elem_of_fmap. by apply (Hfresh e').
    + intros Hnd. apply IHkeys.
      destruct Hstep as [d d' live i xy Hi Hxy Hjob|]; [|done].
      apply mandelbrodt_job_Ok in Hjob as (l & Hl & ->).
      simpl. by apply dict_set_NoDup.
Qed.

(** After the join every process has ended, one way or the other. *)
Lemma joined_all_ended (es : list event) (d0 : dict (list (R * R * Z)))
    (p : pool) (i : Z) :
  pool_run steps job_pairs es (started job_pairs d0) p → joined p →
  0 ≤ i < Z.of_nat (length job_pairs) →
  Returns i ∈ es ∨ Dies i ∈ es.
Proof.
  intros Hrun Hjoin Hi.
  destruct (pool_run_spec es _ _ Hrun) as (Halive & _).
  specialize (Halive i). rewrite Hjoin in Halive. simpl in Halive.
  rewrite range_elem_of in Halive.
  destruct (decide (Returns i ∈ es)) as [?|Hr]; [by left|].
  destruct (decide (Dies i ∈ es)) as [?|Hd]; [by right|].
  destruct (not_elem_of_nil i). apply Halive. auto.
Qed.

(** The collection after a join in which every worker has returned, for
    any list of bands: every job has run to its end, the keys are the
    workers' numbers, each key holds the list of its worker, and the lists
    together are the bands' results. *)
Lemma returned_collection
    (d0 : dict (list (R * R * Z))) (es : list event) (p : pool) :
  NoDup (dict_keys d0) →
  (∀ k, k ∈ dict_keys d0 → 0 ≤ k < Z.of_nat (length job_pairs)) →
  pool_run steps job_pairs es (started job_pairs d0) p →
  Forall is_return es → joined p →
  ∃ results,
    mapM (λ band, return_list band steps) job_pairs = Ok results ∧
    dict_keys (return_dict p) ≡ₚ range (Z.of_nat (length job_pairs)) ∧
    (∀ i l, results !! i = Some l →
       dict_get (Z.of_nat i) (return_dict p) = Some l) ∧
    collect (return_dict p) ≡ₚ concat results.
Proof.
  intros Hnd0 Hkeys0 Hrun Hret Hjoin.
  destruct (pool_run_spec es _ _ Hrun)
    as (_ & Hreturned & Hother & Hproc & _ & Hnd).
  specialize (Hnd Hnd0). simpl in Hother, Hproc.
  assert (∀ i band, job_pairs !! i = Some band →
            ∃ l, return_list band steps = Ok l ∧
                 dict_get (Z.of_nat i) (return_dict p) = Some l) as Hget.
  { intros i band Hi. pose proof (lookup_lt_Some _ _ _ Hi) as Hlt.
    destruct (joined_all_ended es d0 p (Z.of_nat i) Hrun Hjoin)
      as [Hr|Hd]; [lia| |].
    - destruct (Hreturned _ Hr) as (xy & l & Hxy & Hl & Hd).
      rewrite (py_index_nat _ _ _ Hi) in Hxy. injection Hxy as <-.
      by exists l.
    - rewrite Forall_forall in Hret. destruct (Hret _ Hd). }
  destruct (result_mapM_defined (λ band, return_list band steps) job_pairs)
    as [results Hresults].
  { intros band [i Hi]%list_elem_of_lookup.
    destruct (Hget i band Hi) as (l & Hl & _). by exists l. }
  exists results. split; [done|].
  apply result_mapM_Ok in Hresults.
  assert (∀ i l, results !! i = Some l →
            dict_get (Z.of_nat i) (return_dict p) = Some l) as Hentry.
  { intros i l Hi.
    destruct (Forall2_lookup_r _ _ _ _ _ Hresults Hi) as (band & Hband & Hl).
    destruct (Hget i band Hband) as (l' & Hl' & Hd). congruence. }
  assert (∀ k, k ∈ dict_keys (return_dict p)
               ↔ k ∈ range (Z.of_nat (length job_pairs))) as Hkeys.
  { intros k. rewrite <- dict_get_is_Some, range_elem_of. split.
    - intros Hsome. destruct (decide (Returns k ∈ es)) as [Hr|Hr].
      + apply Hproc in Hr. simpl in Hr. by apply range_elem_of in Hr.
      + rewrite (Hother k Hr) in Hsome. by apply Hkeys0, dict_get_is_Some.
    - intros Hk.
      destruct (lookup_lt_is_Some_2 job_pairs (Z.to_nat k)) as [band Hb]; [lia|].
      destruct (Hget _ _ Hb) as (l & _ & Hl).
      rewrite Z2Nat.id in Hl by lia. by rewrite Hl. }
  assert (dict_keys (return_dict p) ≡ₚ range (Z.of_nat (length job_pairs)))
    as Hperm by (apply NoDup_Permutation; [done|apply NoDup_seqZ|done]).
  split; [done|]. split; [done|].
  unfold collect. rewrite (dict_values_by_key [] _ Hnd), Hperm.
  rewrite range_of_nat, <- list_fmap_compose.
  match goal with |- concat ?l ≡ₚ concat ?k => cut (l = k); [by intros ->|] end.
  apply list_eq. intros i. rewrite !list_lookup_fmap.
  pose proof (Forall2_length _ _ _ Hresults) as Hlen.
  destruct (results !! i) as [l|] eqn:Hi.
  - rewrite lookup_seq_lt by (rewrite Hlen; by eapply lookup_lt_Some). simpl.
    by rewrite (Hentry i l Hi).
  - rewrite lookup_seq_ge; [done|]. rewrite Hlen. by apply lookup_ge_None.
Qed.

(** When every job runs to its end there is a run of the pool in which
    the workers return one after the other. *)
Lemma pool_run_returns (d0 : dict (list (R * R * Z))) :
  (∀ band, band ∈ job_pairs → ∃ l, return_list band steps = Ok l) →
  ∃ p, pool_run steps job_pairs
         (Returns <$> range (Z.of_nat (length job_pairs)))
         (started job_pairs d0) p ∧ joined p.
Proof.
  intros Hjobs. unfold started.
  assert (∀ (todo : list Z) (d : dict (list (R * R * Z))),
    NoDup todo →
    (∀ i, i ∈ todo → 0 ≤ i < Z.of_nat (length job_pairs)) →
    ∃ p, pool_run steps job_pairs (Returns <$> todo) (Pool d todo) p ∧
         joined p) as Hgen.
  { intros todo. induction todo as [|i todo IH]; intros d Hnd Hin.
    - exists (Pool d []). split; [constructor|done].
    - apply NoDup_cons in Hnd as [Hi Hnd].
      destruct (Hin i ltac:(left)) as [Hi0 Hi1].
      destruct (lookup_lt_is_Some_2 job_pairs (Z.to_nat i)) as [band Hb]; [lia|].
      destruct (Hjobs band) as [l Hl]; [by eapply list_elem_of_lookup_2|].
      destruct (IH (dict_set i l d) Hnd) as (p & Hrun & Hjoin);
        [intros j Hj; apply Hin; by right|].
      exists p. split; [|done]. rewrite fmap_cons.
      eapply run_cons; [|].
      + apply (step_returns steps job_pairs d (dict_set i l d) (i :: todo) i band);
          [left| |].
        * rewrite <- (Z2Nat.id i) by lia. by apply py_index_nat.
        * apply mandelbrodt_job_Ok. by exists l.
      + assert (filter (λ j, j ≠ i) (i :: todo) = todo) as ->; [|done].
        rewrite filter_cons_False by (intros Hne; by apply Hne).
        apply filter_all. apply Forall_forall. by intros j Hj ->. }
  apply Hgen; [apply NoDup_seqZ|]. intros i. by rewrite range_elem_of.
Qed.
End PoolFacts.

(** ** The result collection *)

Section CollectionFacts.
Context {R : Type} `{Number R} `{Power R}.

(** The entries of a job's list begin with the samples of the band. *)
Lemma return_list_samples (band : list (R * R)) (steps : Z)
    (l : list (R * R * Z)) :
  return_list band steps = Ok l → l.*1 = band.
Proof.
  unfold return_list. rewrite result_mapM_Ok.
  induction 1 as [|[x y] t band l Ht _ IH]; [done|].
  rewrite fmap_cons, IH. f_equal. unfold classify in Ht. simpl in Ht.
  destruct (mandelbrodt_pixel x y steps); [|done]. by injection Ht as <-.
Qed.

Lemma results_samples (steps : Z) (job_pairs : list (list (R * R)))
    (results : list (list (R * R * Z))) :
  mapM (λ band, return_list band steps) job_pairs = Ok results →
  (concat results).*1 = concat job_pairs.
Proof.
  rewrite result_mapM_Ok. induction 1 as [|band l bands ls Hl _ IH]; [done|].
  simpl. by rewrite fmap_app, IH, (return_list_samples band steps l Hl).
Qed.

(** C6: once every one of the [W] workers started on the bands of
    [get_xy_pairs] has returned, in whatever order, the result collection
    has exactly the keys 0 .. W-1; key [i] holds one entry for each sample
    of band [i], in the band's order, the entry of the sample (x, y) being
    (x, y, int(mandelbrodt_pixel(x, y, steps))); laid end to end the lists
    hold the bands' samples, each once, and there are
    [int(side_size / W) * W * side_size] of them. *)
Theorem result_collection_complete
    (W side_size steps : Z) (xrange yrange : R * R)
    (job_pairs : list (list (R * R))) (d0 : dict (list (R * R * Z)))
    (es : list event) (p : pool) :
  1 ≤ W → 1 ≤ side_size →
  get_xy_pairs W W side_size xrange yrange = Ok job_pairs →
  NoDup (dict_keys d0) → (∀ k, k ∈ dict_keys d0 → 0 ≤ k < W) →
  pool_run steps job_pairs es (started job_pairs d0) p →
  Forall is_return es → joined p →
  dict_keys (return_dict p) ≡ₚ range W ∧
  (∀ i band, job_pairs !! i = Some band →
     ∃ l, dict_get (Z.of_nat i) (return_dict p) = Some l ∧
       return_list band steps = Ok l ∧
       length l = length band ∧
       ∀ k x y, band !! k = Some (x, y) →
         ∃ b, mandelbrodt_pixel x y steps = Ok b ∧
              l !! k = Some (x, y, Z.b2z b)) ∧
  (∃ results,
     mapM (λ band, return_list band steps) job_pairs = Ok results ∧
     collect (return_dict p) ≡ₚ concat results) ∧
  (collect (return_dict p)).*1 ≡ₚ concat job_pairs ∧
  Z.of_nat (length (collect (return_dict p))) = (side_size ÷ W) * W * side_size.
Proof.
  intros HW Hn Hpairs Hnd0 Hkeys0 Hrun Hret Hjoin.
  destruct (get_xy_pairs_partition W side_size xrange yrange HW Hn)
    as (xs & ys & bands & _ & _ & Hlx & Hly & Hbands & Hlen & Hband & _).
  rewrite Hpairs in Hbands. injection Hbands as <-.
  assert (Z.of_nat (length job_pairs) = W) as HlenW by lia.
  destruct (returned_collection steps job_pairs d0 es p Hnd0) as
    (results & Hresults & Hkeys & Hget & Hcollect);
    [by rewrite HlenW|done|done|done|].
  rewrite HlenW in Hkeys. split; [done|].
  pose proof (proj1 (result_mapM_Ok _ _ _) Hresults) as Hall.
  assert ((collect (return_dict p)).*1 ≡ₚ concat job_pairs) as Hsamples
    by (by rewrite Hcollect, (results_samples steps job_pairs results)).
  split; [|split; [by exists results|split; [done|]]].
  - intros i band Hi.
    destruct (Forall2_lookup_l _ _ _ _ _ Hall Hi) as (l & Hl & Hlist).
    exists l. split; [by apply Hget|]. split; [done|].
    by apply return_list_Ok.
  - rewrite <- (length_fmap fst), Hsamples.
    rewrite (concat_length_uniform _
               (Z.to_nat (side_size / W) * Z.to_nat side_size)%nat).
    + rewrite Hlen, Z.quot_div_nonneg by lia.
      pose proof (Z.div_pos side_size W ltac:(lia) ltac:(lia)). nia.
    + apply Forall_forall. intros band [i Hi]%list_elem_of_lookup.
      destruct (Hband i) as (Hbi & Hslice & _);
        [rewrite <- Hlen; by eapply lookup_lt_Some|].
      rewrite Hi in Hbi. injection Hbi as ->.
      by rewrite pairs_of_length, Hslice, Hly.
Qed.
End CollectionFacts.

(** A process that has not ended yet is alive. *)
Ltac is_alive :=
  repeat (apply list_elem_of_filter; split; [done|]);
  apply range_elem_of; simpl; lia.

Lemma result_collection_complete_witness :
  ∃ job_pairs p,
    get_xy_pairs 2 2 2 (-2, 1)%float (-1.5, 1.5)%float = Ok job_pairs ∧
    pool_run (H0:=float_power (H:=rounded_libm)) 50 job_pairs
      [Returns 1; Returns 0] (started job_pairs []) p ∧
    dict_keys (return_dict p) ≡ₚ range 2 ∧
    dict_get 0 (return_dict p)
      = Some [((-2)%float, (-1.5)%float, 0); ((-2)%float, 0%float, 0)] ∧
    Z.of_nat (length (collect (return_dict p))) = (2 ÷ 2) * 2 * 2.
Proof.
  set (job_pairs := [[((-2)%float, (-1.5)%float); ((-2)%float, 0%float)];
                     [((-0.5)%float, (-1.5)%float); ((-0.5)%float, 0%float)]]).
  assert (get_xy_pairs 2 2 2 (-2, 1)%float (-1.5, 1.5)%float = Ok job_pairs)
    as Hpairs
    by (vm_compute; reflexivity).
  assert (∃ p, pool_run (H0:=float_power (H:=rounded_libm)) 50 job_pairs
                 [Returns 1; Returns 0] (started job_pairs []) p ∧
               joined p) as (p & Hrun & Hjoin).
  { eexists. split.
    - eapply run_cons; [eapply step_returns;
        [is_alive|reflexivity|vm_compute; reflexivity]|].
      eapply run_cons; [eapply step_returns;
        [is_alive|reflexivity|vm_compute; reflexivity]|].
      apply run_nil.
    - reflexivity. }
  exists job_pairs, p. split; [exact Hpairs|]. split; [exact Hrun|].
  destruct (result_collection_complete (H0:=float_power (H:=rounded_libm))
              2 2 50 (-2, 1)%float (-1.5, 1.5)%float
              job_pairs [] [Returns 1; Returns 0] p ltac:(lia) ltac:(lia) Hpairs
              ltac:(constructor) ltac:(by intros k ?%elem_of_nil) Hrun
              ltac:(by repeat constructor) Hjoin)
    as (Hkeys & Hentries & _ & _ & Hcount).
  split; [exact Hkeys|]. split; [|exact Hcount].
  destruct (Hentries 0%nat _ eq_refl) as (l & Hl & Hlist & _).
  change (dict_get (Z.of_nat 0) (return_dict p)) with (dict_get 0 (return_dict p))
    in Hl.
  rewrite Hl. f_equal. vm_compute in Hlist. by injection Hlist as <-.
Defined.

(** ** A worker that does not return *)

(** C9 (as stated, refuted): with two workers on a grid of side 2 in
    binary64, worker 0 returns and worker 1 dies.  The join ends all the
    same, the collection holds key 0 only, and line 137 draws an image from
    it: no error comes up. *)
Lemma dead_worker_run_still_draws :
  ¬ (∀ (L : Libm) (job_pairs : list (list (float * float)))
       (d0 : dict (list (float * float * Z))) (es : list event) (p : pool),
       get_xy_pairs 2 2 2 (-2, 1)%float (-1.5, 1.5)%float = Ok job_pairs →
       pool_run 50 job_pairs es (started job_pairs d0) p → joined p →
       (∃ i, Dies i ∈ es) → ∃ e, render p = Raise e).
Proof.
  intros Hclaim.
  set (job_pairs := [[((-2)%float, (-1.5)%float); ((-2)%float, 0%float)];
                     [((-0.5)%float, (-1.5)%float); ((-0.5)%float, 0%float)]]).
  destruct (Hclaim rounded_libm job_pairs [] [Returns 0; Dies 1]
              (Pool [(0, [((-2)%float, (-1.5)%float, 0);
                          ((-2)%float, 0%float, 0)])] []))
    as [e He].
  - vm_compute. reflexivity.
  - eapply run_cons; [apply step_returns with
                        (xy_values := [((-2)%float, (-1.5)%float);
                                       ((-2)%float, 0%float)]);
      [is_alive|reflexivity|vm_compute; reflexivity]|].
    eapply run_cons; [apply step_dies; is_alive|].
    apply run_nil.
  - reflexivity.
  - exists 1. by right; left.
  - vm_compute in He. discriminate He.
Qed.

Section FailureFacts.
Context {R : Type} `{Number R} `{Power R} `{Comparable R}.

(** C9 (amended): the pool does not look at how a worker ended.  A worker
    whose job raises, as one that is killed, ends without storing anything,
    and the join returns all the same.  Once all workers have ended, the
    list of a worker that returned is in the collection, the key of a
    worker that did not holds what it held before the run (nothing, on a
    first run), and line 137 draws from the lists that are there:
    [IndexError] when they hold no sample, and, for coordinates with the
    order of numbers, an image when they hold samples without a NaN and
    [ValueError] when an axis holds a NaN next to a number. *)
Theorem dead_worker_goes_unnoticed
    (steps : Z) (job_pairs : list (list (R * R)))
    (d0 : dict (list (R * R * Z))) (es : list event) (p : pool) :
  pool_run steps job_pairs es (started job_pairs d0) p → joined p →
  (∀ i, 0 ≤ i < Z.of_nat (length job_pairs) → Returns i ∈ es ∨ Dies i ∈ es) ∧
  (∀ i, Returns i ∈ es →
     ∃ band l, py_index job_pairs i = Ok band ∧
       return_list band steps = Ok l ∧
       dict_get i (return_dict p) = Some l) ∧
  (∀ i band e, py_index job_pairs i = Ok band →
     return_list band steps = Raise e →
     0 ≤ i < Z.of_nat (length job_pairs) → Dies i ∈ es) ∧
  (∀ i, Dies i ∈ es → dict_get i (return_dict p) = dict_get i d0) ∧
  (collect (return_dict p) = [] → render p = Raise IndexError) ∧
  (OrderLaws R →
     (collect (return_dict p) ≠ [] →
      Forall (λ a, is_number a = true) ((collect (return_dict p)).*1.*1) →
      Forall (λ a, is_number a = true) ((collect (return_dict p)).*1.*2) →
      ∃ im, render p = Ok im ∧
        im_size im = (length (np_unique ((collect (return_dict p)).*1.*1)),
                      length (np_unique ((collect (return_dict p)).*1.*2)))) ∧
     (∀ a b, a ∈ (collect (return_dict p)).*1.*1 → is_number a = true →
        b ∈ (collect (return_dict p)).*1.*1 → is_number b = false →
        render p = Raise ValueError)).
Proof.
  intros Hrun Hjoin.
  destruct (pool_run_spec steps job_pairs es _ _ Hrun)
    as (_ & Hreturned & Hother & _ & Hnd & _).
  assert (∀ i, 0 ≤ i < Z.of_nat (length job_pairs) →
            Returns i ∈ es ∨ Dies i ∈ es) as Hended
    by (intros i Hi; by eapply joined_all_ended).
  split; [done|]. split; [exact Hreturned|].
  split; [|split; [|split; [|intros Hlaws; split]]].
  - intros i band e Hband Hraise Hi.
    destruct (Hended i Hi) as [Hr|Hd]; [|done].
    destruct (Hreturned i Hr) as (band' & l & Hband' & Hl & _). congruence.
  - intros i [a Ha]%list_elem_of_lookup. apply Hother.
    intros [b Hb]%list_elem_of_lookup.
    assert (a = b) as ->.
    { eapply NoDup_lookup; [exact Hnd| |];
        rewrite list_lookup_fmap; [rewrite Ha|rewrite Hb]; done. }
    congruence.
  - intros Hnil. unfold render. by rewrite Hnil.
  - intros Hne Hx Hy. unfold render. by apply draw_fractal_ok.
  - intros a b Ha Hnum Hb Hnan. unfold render, draw_fractal.
    destruct (collect (return_dict p)) as [|t l] eqn:Hc;
      [by apply elem_of_nil in Ha|].
    by rewrite (get_ranks_mixed _ a b Ha Hnum Hb Hnan).
Qed.
End FailureFacts.

Lemma dead_worker_goes_unnoticed_witness :
  ∃ p : pool (R:=float),
    pool_run (H0:=float_power (H:=rounded_libm)) 50
      [[(0, 0)]; [(1e200, 1)]]%float [Returns 0; Dies 1]
      (started [[(0, 0)]; [(1e200, 1)]]%float []) p ∧
    return_list (H0:=float_power (H:=rounded_libm)) [(1e200, 1)]%float 50
      = Raise OverflowError ∧
    dict_get 1 (return_dict p) = None ∧
    ∃ im, render p = Ok im.
Proof.
  set (job_pairs := [[(0, 0)]; [(1e200, 1)]]%float).
  assert (pool_run (H0:=float_power (H:=rounded_libm)) 50 job_pairs
            [Returns 0; Dies 1] (started job_pairs [])
            (Pool [(0, [(0%float, 0%float, 1)])] [])) as Hrun.
  { eapply run_cons; [apply step_returns with (xy_values := [(0, 0)]%float);
      [is_alive|reflexivity|vm_compute; reflexivity]|].
    eapply run_cons; [apply step_dies; is_alive|].
    apply run_nil. }
  destruct (dead_worker_goes_unnoticed (H0:=float_power (H:=rounded_libm))
              50 job_pairs [] [Returns 0; Dies 1] _ Hrun eq_refl)
    as (_ & _ & _ & Hdied & _ & Hdraw).
  eexists. split; [exact Hrun|]. split; [vm_compute; reflexivity|]. split.
  - apply (Hdied 1). by right; left.
  - destruct (Hdraw float_order_laws) as [Hok _].
    destruct Hok as (im & Him & _);
      [discriminate|by repeat constructor|by repeat constructor|].
    by exists im.
Defined.

(** ** Order independence of the image *)

Section DeterminismFacts.
Context {R : Type} `{Number R} `{Power R} `{Comparable R} `{!OrderLaws R}.

(** C8: what [draw_fractal] gives for a list of classification results
    it gives for any permutation of it: the same image, in its size and in
    every pixel, or the same error; so the outcome does not depend on the
    order in which the bands' results are laid end to end, nor, for two
    runs on the same bands in which all workers return, on the order in
    which the workers ended. *)
Theorem draw_fractal_order_independent :
  (∀ l l' : list (R * R * Z), l ≡ₚ l' → draw_fractal l = draw_fractal l') ∧
  (∀ band_results band_results' : list (list (R * R * Z)),
     band_results ≡ₚ band_results' →
     draw_fractal (concat band_results) = draw_fractal (concat band_results')) ∧
  (∀ (l l' : list (R * R * Z)) (im im' : image),
     l ≡ₚ l' → draw_fractal l = Ok im → draw_fractal l' = Ok im' →
     im_size im = im_size im' ∧ ∀ xy, getpixel im xy = getpixel im' xy) ∧
  (∀ (l l' : list (R * R * Z)) (im : image),
     l ≡ₚ l' → draw_fractal l = Ok im → draw_fractal l' = Ok im) ∧
  (∀ (steps : Z) (job_pairs : list (list (R * R)))
     (d0 : dict (list (R * R * Z))) (es es' : list event) (p p' : pool),
     NoDup (dict_keys d0) →
     (∀ k, k ∈ dict_keys d0 → 0 ≤ k < Z.of_nat (length job_pairs)) →
     pool_run steps job_pairs es (started job_pairs d0) p →
     pool_run steps job_pairs es' (started job_pairs d0) p' →
     Forall is_return es → Forall is_return es' → joined p → joined p' →
     render p = render p').
Proof.
  split; [apply draw_fractal_perm|]. split; [|split; [|split]].
  - intros bs bs' Hp. apply draw_fractal_perm. by rewrite Hp.
  - intros l l' im im' Hp Him Him'.
    rewrite (draw_fractal_perm l l' Hp), Him' in Him. by injection Him as ->.
  - intros l l' im Hp Him. by rewrite <- (draw_fractal_perm l l' Hp).
  - intros steps job_pairs d0 es es' p p' Hnd Hkeys Hrun Hrun' Hret Hret'
      Hjoin Hjoin'.
    destruct (returned_collection steps job_pairs d0 es p)
      as (results & Hresults & _ & _ & Hc); [done..|].
    destruct (returned_collection steps job_pairs d0 es' p')
      as (results' & Hresults' & _ & _ & Hc'); [done..|].
    rewrite Hresults in Hresults'. injection Hresults' as <-.
    unfold render. apply draw_fractal_perm. by rewrite Hc, Hc'.
Qed.
End DeterminismFacts.

Lemma draw_fractal_order_independent_witness :
  (∃ p p' : pool (R:=float),
    pool_run (H0:=float_power (H:=rounded_libm)) 50
      [[(0, 0)]; [(1, 1)]]%float [Returns 0; Returns 1]
      (started [[(0, 0)]; [(1, 1)]]%float []) p ∧
    pool_run (H0:=float_power (H:=rounded_libm)) 50
      [[(0, 0)]; [(1, 1)]]%float [Returns 1; Returns 0]
      (started [[(0, 0)]; [(1, 1)]]%float []) p' ∧
    dict_keys (return_dict p) = [0; 1] ∧
    dict_keys (return_dict p') = [1; 0] ∧
    render p = render p') ∧
  draw_fractal [(nan, 0%float, 1); (1%float, 0%float, 1)]
  = draw_fractal [(1%float, 0%float, 1); (nan, 0%float, 1)].
Proof.
  set (job_pairs := [[(0, 0)]; [(1, 1)]]%float).
  assert (∃ p, pool_run (H0:=float_power (H:=rounded_libm)) 50 job_pairs
                 [Returns 0; Returns 1] (started job_pairs []) p ∧
               joined p ∧ dict_keys (return_dict p) = [0; 1])
    as (p & Hrun & Hjoin & Hkeys).
  { eexists. split.
    - eapply run_cons; [eapply step_returns;
        [is_alive|reflexivity|vm_compute; reflexivity]|].
      eapply run_cons; [eapply step_returns;
        [is_alive|reflexivity|vm_compute; reflexivity]|].
      apply run_nil.
    - split; reflexivity. }
  assert (∃ p', pool_run (H0:=float_power (H:=rounded_libm)) 50 job_pairs
                  [Returns 1; Returns 0] (started job_pairs []) p' ∧
                joined p' ∧ dict_keys (return_dict p') = [1; 0])
    as (p' & Hrun' & Hjoin' & Hkeys').
  { eexists. split.
    - eapply run_cons; [eapply step_returns;
        [is_alive|reflexivity|vm_compute; reflexivity]|].
      eapply run_cons; [eapply step_returns;
        [is_alive|reflexivity|vm_compute; reflexivity]|].
      apply run_nil.
    - split; reflexivity. }
  destruct (draw_fractal_order_independent (R:=float)
              (H0:=float_power (H:=rounded_libm)))
    as (Hperm & _ & _ & _ & Hruns).
  split.
  - exists p, p'. do 4 (split; [done|]).
    apply (Hruns 50 job_pairs [] [Returns 0; Returns 1] [Returns 1; Returns 0]);
      try done; try (by repeat constructor).
    by intros k ?%elem_of_nil.
  - apply Hperm. apply perm_swap.
Defined.

(** * Further properties of the code *)

(** ** [get_xy_pairs]: errors, the two worker counts, negative sizes *)

Lemma result_mapM_raise {A B} (f : A → result B) (g : A → B)
    (l1 l2 : list A) (a : A) (e : exn) :
  (∀ b, b ∈ l1 → f b = Ok (g b)) → f a = Raise e →
  mapM f (l1 ++ a :: l2) = Raise e.
Proof.
  induction l1 as [|b l1 IH]; intros Hok Ha; simpl.
  - by rewrite Ha.
  - rewrite (Hok b) by left. simpl.
    rewrite IH; [done|intros c Hc; apply Hok; by right|done].
Qed.

Lemma py_index_outside {A} (l : list A) (i : Z) :
  Z.of_nat (length l) ≤ i → py_index l i = Raise IndexError.
Proof.
  intros Hi. unfold py_index.
  destruct (Z.ltb_spec i 0); [lia|].
  destruct (Z.ltb_spec i (Z.of_nat (length l))); [lia|].
  by rewrite andb_false_r.
Qed.

Lemma py_slice_nil {A} (a b : Z) : py_slice ([] : list A) a b = [].
Proof. unfold py_slice. by rewrite drop_nil, take_nil. Qed.

Lemma range_nonpos (n : Z) : n ≤ 0 → range n = [].
Proof. intros Hn. unfold range, seqZ. by replace (Z.to_nat n) with 0%nat by lia. Qed.

Lemma range_split (n m : Z) :
  0 ≤ n → 0 ≤ m → range (n + m) = range n ++ seqZ n m.
Proof. intros Hn Hm. unfold range. by rewrite seqZ_app by lia. Qed.

Section PartitionerEdges.
Context {R : Type} `{Number R}.

Lemma get_xy_pairs_zero_side (NW w : Z) (xrange yrange : R * R) :
  get_xy_pairs NW w 0 xrange yrange = Raise ZeroDivisionError.
Proof. unfold get_xy_pairs. by destruct (oriented xrange). Qed.

Lemma get_xy_pairs_zero_workers (w side_size : Z) (xrange yrange : R * R) :
  get_xy_pairs 0 w side_size xrange yrange = Raise ZeroDivisionError.
Proof.
  unfold get_xy_pairs, truediv_int.
  destruct (oriented xrange), (oriented yrange).
  by destruct (Z.eqb_spec side_size 0).
Qed.

(** A call with any [workers] up to the global [num_workers]: the slices
    are cut by the global count. *)
Lemma get_xy_pairs_slices (NW w side_size : Z) (xrange yrange : R * R) :
  1 ≤ NW → side_size ≠ 0 → w ≤ NW →
  ∃ x_values y_values,
    axis_values side_size xrange = Ok x_values ∧
    axis_values side_size yrange = Ok y_values ∧
    get_xy_pairs NW w side_size xrange yrange
      = Ok ((λ i, pairs_of (py_slice x_values (i * (side_size ÷ NW))
                                     ((i + 1) * (side_size ÷ NW))) y_values)
              <$> range w).
Proof.
  intros HNW Hn Hw. rewrite !axis_values_ok by done.
  eexists _, _. split; [done|]. split; [done|].
  unfold get_xy_pairs, truediv_int, int_truediv.
  destruct (oriented xrange) as [x_min x_max].
  destruct (oriented yrange) as [y_min y_max].
  destruct (Z.eqb_spec side_size 0); [done|].
  destruct (Z.eqb_spec NW 0); [lia|]. simpl.
  apply (result_mapM_ok _ (λ i, pairs_of (py_slice _ (i * (side_size ÷ NW))
                                  ((i + 1) * (side_size ÷ NW))) _)).
  intros i Hi%range_elem_of. by rewrite !py_index_fmap_range by lia.
Qed.

(** X1: called as line 118 calls it, with a worker count [W >= 0] and a
    [side_size] that a float holds exactly ([|side_size| < 2^53]),
    [get_xy_pairs] raises [ZeroDivisionError] when [side_size] or [W] is 0
    and in no other case; otherwise it returns [W] bands, all of them
    empty when [side_size] is negative. *)
Theorem get_xy_pairs_outcome (W side_size : Z) (xrange yrange : R * R) :
  0 ≤ W → Z.abs side_size < 2 ^ 53 →
  (side_size = 0 ∨ W = 0 →
     get_xy_pairs W W side_size xrange yrange = Raise ZeroDivisionError) ∧
  (side_size ≠ 0 → W ≠ 0 →
     ∃ bands, get_xy_pairs W W side_size xrange yrange = Ok bands ∧
       length bands = Z.to_nat W ∧
       (side_size < 0 → ∀ band, band ∈ bands → band = [])).
Proof.
  intros HW _. split.
  - intros [->| ->]; [apply get_xy_pairs_zero_side|apply get_xy_pairs_zero_workers].
  - intros Hn HW0.
    destruct (get_xy_pairs_slices W W side_size xrange yrange)
      as (xs & ys & Hxs & _ & Hbands); [lia|done|lia|].
    eexists. split; [exact Hbands|].
    split; [by rewrite length_fmap, range_length|].
    intros Hneg band (i & -> & _)%list_elem_of_fmap.
    rewrite axis_values_ok in Hxs by done. injection Hxs as <-.
    unfold grid_values. rewrite range_nonpos by lia. simpl.
    by rewrite py_slice_nil.
Qed.

(** X2: the length of a band's slice and the list [intervals] come from
    the global [num_workers], the number of bands from the parameter
    [workers].  With [workers <= num_workers] the call returns the first
    [workers] bands of the partition into [num_workers] bands; with
    [workers > num_workers] it raises [IndexError] at line 75. *)
Theorem get_xy_pairs_workers_against_global
    (NW w side_size : Z) (xrange yrange : R * R) :
  1 ≤ NW → 1 ≤ side_size →
  (w ≤ NW →
     ∃ x_values y_values,
       axis_values side_size xrange = Ok x_values ∧
       axis_values side_size yrange = Ok y_values ∧
       get_xy_pairs NW w side_size xrange yrange
         = Ok ((λ i, pairs_of (band_slice x_values (Z.to_nat (side_size / NW)) i)
                              y_values) <$> seq 0 (Z.to_nat w))) ∧
  (NW < w → get_xy_pairs NW w side_size xrange yrange = Raise IndexError).
Proof.
  intros HNW Hn.
  assert (0 ≤ side_size ÷ NW ∧ NW * (side_size ÷ NW) ≤ side_size) as [HL0 HL].
  { rewrite Z.quot_div_nonneg by lia.
    split; [apply Z.div_pos; lia|apply Z.mul_div_le; lia]. }
  split.
  - intros Hw.
    destruct (get_xy_pairs_slices NW w side_size xrange yrange)
      as (xs & ys & Hxs & Hys & Hbands); [lia|lia|lia|].
    exists xs, ys. do 2 (split; [done|]). rewrite Hbands. f_equal.
    rewrite axis_values_ok in Hxs by lia. injection Hxs as <-.
    rewrite <- Z.quot_div_nonneg by lia.
    destruct (Z.le_gt_cases w 0) as [Hw0|Hw0].
    { rewrite range_nonpos by done. by replace (Z.to_nat w) with 0%nat by lia. }
    rewrite <- (Z2Nat.id w) at 1 by lia.
    rewrite range_of_nat, <- list_fmap_compose.
    apply list_fmap_ext. intros k i [-> Hi]%lookup_seq. simpl.
    f_equal. set (L := side_size ÷ NW) in *.
    replace (Z.of_nat k * L) with (Z.of_nat (k * Z.to_nat L)) by nia.
    replace ((Z.of_nat k + 1) * L)
      with (Z.of_nat (k * Z.to_nat L + Z.to_nat L)) by nia.
    rewrite py_slice_inside; [|lia|rewrite grid_values_length; nia].
    unfold band_slice. f_equal. lia.
  - intros Hw. unfold get_xy_pairs, truediv_int, int_truediv.
    destruct (oriented xrange) as [x_min x_max].
    destruct (oriented yrange) as [y_min y_max].
    destruct (Z.eqb_spec side_size 0); [lia|].
    destruct (Z.eqb_spec NW 0); [lia|]. simpl.
    set (intervals := (λ i, i * (side_size ÷ NW)) <$> range (NW + 1)).
    assert (range w = range NW ++ NW :: seqZ (Z.succ NW) (Z.pred (w - NW)))
      as -> by (rewrite <- seqZ_cons by lia;
                rewrite <- (range_split NW (w - NW)) by lia; f_equal; lia).
    set (xs := grid_values x_min _ side_size).
    set (ys := grid_values y_min _ side_size).
    apply (result_mapM_raise _ (λ i, pairs_of (py_slice xs (i * (side_size ÷ NW))
                                  ((i + 1) * (side_size ÷ NW))) ys)).
    + intros i Hi%range_elem_of. unfold intervals.
      by rewrite !py_index_fmap_range by lia.
    + unfold intervals. rewrite (py_index_fmap_range _ (NW + 1) NW) by lia. simpl.
      rewrite py_index_outside; [done|].
      rewrite length_fmap, range_length. lia.
Qed.
End PartitionerEdges.

Lemma get_xy_pairs_outcome_witness :
  get_xy_pairs (R:=float) 3 3 0 (-2, 1)%float (-1.5, 1.5)%float
    = Raise ZeroDivisionError ∧
  ∃ bands, get_xy_pairs (R:=float) 3 3 (-6) (-2, 1)%float (-1.5, 1.5)%float
             = Ok bands ∧ length bands = 3%nat ∧ ∀ band, band ∈ bands → band = [].
Proof.
  split.
  - apply (get_xy_pairs_outcome (R:=float) 3 0); [lia|reflexivity|by left].
  - destruct (get_xy_pairs_outcome (R:=float) 3 (-6) (-2, 1)%float
                (-1.5, 1.5)%float ltac:(lia) ltac:(reflexivity)) as [_ Hok].
    destruct Hok as (bands & Hbands & Hlen & Hempty); [lia|lia|].
    exists bands. split; [exact Hbands|]. split; [exact Hlen|].
    apply Hempty. lia.
Defined.

Lemma get_xy_pairs_workers_against_global_witness :
  (∃ x_values y_values,
     axis_values (R:=Q) 6 (-2, 1)%Q = Ok x_values ∧
     get_xy_pairs (R:=Q) 3 2 6 (-2, 1)%Q (-(3#2), 3#2)%Q
       = Ok [pairs_of (band_slice x_values 2 0) y_values;
             pairs_of (band_slice x_values 2 1) y_values]) ∧
  get_xy_pairs (R:=Q) 3 4 6 (-2, 1)%Q (-(3#2), 3#2)%Q = Raise IndexError.
Proof.
  destruct (get_xy_pairs_workers_against_global (R:=Q) 3 2 6 (-2, 1)%Q
              (-(3#2), 3#2)%Q ltac:(lia) ltac:(lia)) as [Hfew _].
  destruct (get_xy_pairs_workers_against_global (R:=Q) 3 4 6 (-2, 1)%Q
              (-(3#2), 3#2)%Q ltac:(lia) ltac:(lia)) as [_ Hmany].
  split.
  - destruct Hfew as (xs & ys & Hxs & _ & Hbands); [lia|].
    exists xs, ys. split; [exact Hxs|exact Hbands].
  - apply Hmany. lia.
Defined.

(** ** [mandelbrodt_pixel]: the number of steps, and the mirror image *)

(** ** [mandelbrodt_pixel]: the number of steps, and the mirror image *)

Section ClassifierEdges.
Context {R : Type} `{Number R} `{Power R}.

(** X3: a point classified a member with some number of steps is a member
    with every smaller number of steps, and a non-member stays one with
    every larger number, as a call that raises keeps raising; with a
    negative number of steps the loop body never runs and every point is a
    member. *)
Theorem mandelbrodt_pixel_fewer_steps (x y : R) (steps steps' : Z) :
  steps ≤ steps' →
  (mandelbrodt_pixel x y steps' = Ok true →
   mandelbrodt_pixel x y steps = Ok true) ∧
  (mandelbrodt_pixel x y steps = Ok false →
   mandelbrodt_pixel x y steps' = Ok false) ∧
  (∀ e, mandelbrodt_pixel x y steps = Raise e →
        mandelbrodt_pixel x y steps' = Raise e) ∧
  (steps < 0 → mandelbrodt_run x y steps = Some (Ok (true, 0))).
Proof.
  intros Hle.
  split; [|split; [|split; [|apply mandelbrodt_run_negative_steps]]].
  - intros Hin. destruct (Z.le_gt_cases 0 steps) as [Hpos|Hneg].
    + pose proof (proj1 (mandelbrodt_pixel_true_iff x y steps' ltac:(lia)) Hin)
        as Hall.
      apply mandelbrodt_pixel_true_iff; [done|].
      intros k Hk. apply Hall. lia.
    + unfold mandelbrodt_pixel.
      by rewrite mandelbrodt_run_negative_steps.
  - intros Hout. destruct (Z.le_gt_cases 0 steps) as [Hpos|Hneg].
    + apply mandelbrodt_pixel_false_iff in Hout as (k & Hk & Hesc); [|done].
      apply mandelbrodt_pixel_false_iff; [lia|]. exists k. split; [lia|done].
    + unfold mandelbrodt_pixel in Hout.
      by rewrite mandelbrodt_run_negative_steps in Hout.
  - intros e Hout. destruct (Z.le_gt_cases 0 steps) as [Hpos|Hneg].
    + apply mandelbrodt_pixel_raise_iff in Hout as (k & Hk & Hesc & Hno);
        [|done].
      apply mandelbrodt_pixel_raise_iff; [lia|]. exists k.
      split; [lia|]. by split.
    + unfold mandelbrodt_pixel in Hout.
      by rewrite mandelbrodt_run_negative_steps in Hout.
Qed.
End ClassifierEdges.

Lemma mandelbrodt_pixel_fewer_steps_witness :
  (mandelbrodt_pixel (H0:=float_power (H:=rounded_libm))
     0.25%float 0.5%float 20 = Ok true →
   mandelbrodt_pixel (H0:=float_power (H:=rounded_libm))
     0.25%float 0.5%float 7 = Ok true) ∧
  mandelbrodt_run (H0:=float_power (H:=rounded_libm))
    0.25%float 0.5%float (-3) = Some (Ok (true, 0)).
Proof.
  destruct (mandelbrodt_pixel_fewer_steps (H0:=float_power (H:=rounded_libm))
              0.25%float 0.5%float 7 20 ltac:(lia)) as (Hfewer & _ & _ & _).
  destruct (mandelbrodt_pixel_fewer_steps (H0:=float_power (H:=rounded_libm))
              0.25%float 0.5%float (-3) 20 ltac:(lia)) as (_ & _ & _ & Hneg).
  split; [exact Hfewer|apply Hneg; lia].
Defined.

Section MirrorImage.
Local Open Scope Q_scope.

Lemma Q_z_iter_mirror (x y : Q) (k : nat) :
  ∃ z z', z_iter x y k = Ok z ∧ z_iter x (- y) k = Ok z' ∧
    z'.1 == z.1 ∧ z'.2 == - z.2.
Proof.
  induction k as [|k (z & z' & Hz & Hz' & Hre & Him)].
  - exists (0, 0), (0, 0). repeat split; reflexivity.
  - rewrite !z_iter_succ, Hz, Hz'. cbn [mbind result_bind].
    rewrite !Q_z_next. eexists _, _. split; [done|]. split; [done|].
    cbn [fst snd]. rewrite Hre, Him. split; ring.
Qed.

Lemma Q_escapes_at_mirror (x y : Q) (k : nat) :
  escapes_at x (- y) k = escapes_at x y k.
Proof.
  destruct (Q_z_iter_mirror x y k) as (z & z' & Hz & Hz' & Hre & Him).
  unfold escapes_at. rewrite Hz, Hz'. cbn [mbind result_bind].
  rewrite !Q_escaped. f_equal. rewrite Hre, Him.
  apply Qleb_comp; [reflexivity|ring].
Qed.

(** X4: in exact arithmetic a point and its mirror image in the real axis
    are classified alike, whatever the number of steps. *)
Theorem mandelbrodt_pixel_mirror (x y : Q) (steps : Z) :
  mandelbrodt_pixel x (- y) steps = mandelbrodt_pixel x y steps.
Proof.
  destruct (Z.le_gt_cases 0 steps) as [H0|Hneg].
  - destruct (mandelbrodt_pixel_defined x y steps) as [[] Hp]; rewrite Hp.
    + apply mandelbrodt_pixel_true_iff; [done|]. intros k Hk.
      rewrite Q_escapes_at_mirror.
      by apply (proj1 (mandelbrodt_pixel_true_iff x y steps H0) Hp).
    + apply mandelbrodt_pixel_false_iff in Hp as (k & Hk & Hesc); [|done].
      apply mandelbrodt_pixel_false_iff; [done|]. exists k.
      by rewrite Q_escapes_at_mirror.
  - unfold mandelbrodt_pixel.
    by rewrite !mandelbrodt_run_negative_steps by done.
Qed.
End MirrorImage.

(** ** [get_ranks]: order, and ranking twice *)

Section RankOrder.
Context {A : Type} `{Comparable A} `{!OrderLaws A}.

(** X5: on an array without a NaN the ranks keep the order and the
    equality of the values: between two positions of the array, the value
    at the one is smaller than the value at the other exactly when its rank
    is smaller, and the two values are equal exactly when their ranks
    are. *)
Theorem get_ranks_preserves_order
    (arr : list A) (i j : nat) (a b : A) :
  Forall (λ a, is_number a = true) arr →
  arr !! i = Some a → arr !! j = Some b →
  ∃ ranks r s, get_ranks arr = Ok ranks ∧
    ranks !! i = Some r ∧ ranks !! j = Some s ∧
    (ltb a b = true ↔ (r < s)%nat) ∧ (eqb a b = true ↔ r = s).
Proof.
  intros Hnum Ha Hb.
  exists (rank_of (np_unique arr) <$> arr), (rank_of (np_unique arr) a),
    (rank_of (np_unique arr) b).
  split; [by apply get_ranks_numbers|].
  rewrite !list_lookup_fmap, Ha, Hb. do 2 (split; [done|]).
  rewrite Forall_forall in Hnum.
  assert (a ∈ arr) as Hina by (by eapply list_elem_of_lookup_2).
  assert (b ∈ arr) as Hinb by (by eapply list_elem_of_lookup_2).
  destruct (rank_of_order arr a b Hina Hinb (Hnum a Hina) (Hnum b Hinb))
    as [Heq Hlt].
  split; by symmetry.
Qed.

(** X6: ranking the ranks changes nothing: they are already the positions
    0, 1, ... of their own distinct values; and what [get_ranks] raises on
    an array it raises before the ranks could be ranked. *)
Theorem get_ranks_idempotent (arr : list A) :
  (get_ranks arr ≫= get_ranks) = get_ranks arr ∧
  (Forall (λ a, is_number a = true) arr →
   ∃ ranks, get_ranks arr = Ok ranks ∧ length ranks = length arr ∧
            get_ranks ranks = Ok ranks).
Proof.
  assert (Forall (λ a, is_number a = true) arr →
          get_ranks (rank_of (np_unique arr) <$> arr)
          = Ok (rank_of (np_unique arr) <$> arr)) as Hnumbers.
  { intros Hnum. rewrite (get_ranks_fmap (rank_of (np_unique arr) <$> arr)).
    rewrite np_unique_ranks by done. f_equal.
    transitivity (id <$> (rank_of (np_unique arr) <$> arr));
      [|apply list_fmap_id].
    apply list_fmap_ext. intros _ r Hr%list_elem_of_lookup_2.
    apply get_ranks_elem_of in Hr; [|done].
    apply (rank_of_lookup _ r r); [apply seq_sorted| |apply Nat.eqb_refl].
    by rewrite lookup_seq_lt. }
  split.
  - destruct (get_ranks_cases arr) as [[Hnum Hr]|[[_ Hr]|(_ & _ & Hr)]];
      rewrite Hr; cbn [mbind result_bind]; [by apply Hnumbers|done|done].
  - intros Hnum. exists (rank_of (np_unique arr) <$> arr).
    split; [by apply get_ranks_numbers|].
    split; [by rewrite length_fmap|by apply Hnumbers].
Qed.
End RankOrder.

Lemma get_ranks_preserves_order_witness :
  ∃ ranks r s, get_ranks [40; -7; 5; 40]%float = Ok ranks ∧
    ranks !! 1%nat = Some r ∧ ranks !! 0%nat = Some s ∧
    (ltb (-7) 40 = true ↔ (r < s)%nat)%float ∧
    (eqb (-7) 40 = true ↔ r = s)%float.
Proof.
  apply (get_ranks_preserves_order (A:=float) [40; -7; 5; 40]%float 1 0);
    [by repeat constructor|reflexivity|reflexivity].
Defined.

Lemma get_ranks_idempotent_witness :
  ∃ ranks, get_ranks [40; -7; 5; 40]%float = Ok ranks ∧
    length ranks = 4%nat ∧ get_ranks ranks = Ok ranks.
Proof.
  apply (get_ranks_idempotent (A:=float)). by repeat constructor.
Defined.

(** ** [draw_fractal]: which pixels are painted *)

Lemma Image_new_well_formed (size : nat * nat) : well_formed (Image_new size).
Proof.
  split; simpl; [apply length_replicate|].
  apply Forall_replicate, length_replicate.
Qed.

Lemma Image_new_getpixel (size : nat * nat) (xy : nat * nat) :
  getpixel (Image_new size) xy
  = if decide (xy.1 < size.1 ∧ xy.2 < size.2)%nat then Some (0, 0, 0) else None.
Proof.
  unfold getpixel. simpl. case_decide as Hin.
  - destruct Hin as [Hx Hy]. rewrite lookup_replicate_2 by done. simpl.
    by rewrite lookup_replicate_2.
  - destruct (decide (xy.2 < size.2)%nat) as [Hy|Hy].
    + rewrite lookup_replicate_2 by done. simpl.
      apply lookup_replicate_None. lia.
    + rewrite (proj1 (lookup_replicate_None _ _ _)); [done|lia].
Qed.

Lemma putpixel_getpixel (im im' : image) (xy : nat * nat) (value : rgb) :
  well_formed im → putpixel im xy value = Ok im' →
  well_formed im' ∧
  ∀ xy', getpixel im' xy' = if decide (xy' = xy) then Some value else getpixel im xy'.
Proof.
  intros [Hrows Hrow]. unfold putpixel. case_decide as Hin; [|done].
  intros [= <-]. destruct Hin as [Hx Hy]. split.
  - split; simpl; [by rewrite length_alter|].
    apply Forall_alter; [done|]. intros row _ Hlen. by rewrite length_insert.
  - intros [i j]. destruct xy as [x y]. unfold getpixel. simpl in *.
    destruct (lookup_lt_is_Some_2 (im_rows im) y) as [row Hy']; [lia|].
    assert (length row = (im_size im).1) as Hlen
      by (rewrite Forall_forall in Hrow; apply Hrow;
          by eapply list_elem_of_lookup_2).
    rewrite list_lookup_alter. destruct (decide (y = j)) as [<-|Hne].
    + rewrite Hy'. simpl. rewrite list_lookup_insert.
      destruct (decide (x = i ∧ (x < length row)%nat)) as [[<- _]|Hni].
      * by rewrite decide_True.
      * rewrite decide_False; [done|]. intros [= -> ]. apply Hni. lia.
    + rewrite decide_False; [done|]. congruence.
Qed.

Lemma paint_fold_raise (ps : list (nat * nat * Z)) (e : exn) :
  foldl (λ r p, im ← r; paint im p) (Raise e) ps = Raise e.
Proof. induction ps as [|p ps IH]; [done|]. simpl. apply IH. Qed.

(** The pixels after the loop of lines 50-52 has run to its end. *)
Lemma paint_fold_getpixel (ps : list (nat * nat * Z)) : ∀ im im' : image,
  well_formed im →
  foldl (λ r p, im ← r; paint im p) (Ok im) ps = Ok im' →
  well_formed im' ∧
  ∀ xy, getpixel im' xy
        = if decide (Exists (λ p, p.1 = xy ∧ p.2 ≠ 0) ps)
          then Some (255, 255, 255) else getpixel im xy.
Proof.
  induction ps as [|p ps IH]; intros im im' Hwf Hfold.
  - injection Hfold as <-. split; [done|]. intros xy.
    rewrite decide_False; [done|]. by intros ?%Exists_nil.
  - simpl in Hfold. destruct (paint im p) as [im1|e] eqn:Hp;
      [|by rewrite paint_fold_raise in Hfold].
    assert (well_formed im1 ∧
            ∀ xy, getpixel im1 xy
                  = if decide (p.1 = xy ∧ p.2 ≠ 0)
                    then Some (255, 255, 255) else getpixel im xy) as [Hwf1 Hpix1].
    { destruct p as [[x y] c]. unfold paint in Hp. simpl.
      destruct (decide (c ≠ 0)) as [Hc|Hc].
      - destruct (putpixel_getpixel _ _ _ _ Hwf Hp) as [Hwf1 Hpix].
        split; [done|]. intros xy. rewrite Hpix.
        destruct (decide (xy = (x, y))) as [->|Hne].
        + by rewrite decide_True.
        + rewrite decide_False; [done|]. intros [? _]. congruence.
      - injection Hp as <-. split; [done|]. intros xy.
        rewrite decide_False; [done|]. tauto. }
    destruct (IH im1 im' Hwf1 Hfold) as [Hwf' Hpix']. split; [done|].
    intros xy. rewrite Hpix', Hpix1.
    destruct (decide (Exists (λ q, q.1 = xy ∧ q.2 ≠ 0) ps)) as [Hex|Hex].
    + rewrite decide_True; [done|by right].
    + destruct (decide (p.1 = xy ∧ p.2 ≠ 0)) as [Hhere|Hhere].
      * rewrite decide_True; [done|by left].
      * rewrite decide_False; [done|]. by intros [?|?]%Exists_cons.
Qed.


Section RasterPixels.
Context {A : Type} `{Comparable A} `{!OrderLaws A}.

Lemma sample_coordinates (fractal_list : list (A * A * Z)) (t : A * A * Z) :
  t ∈ fractal_list →
  t.1.1 ∈ fractal_list.*1.*1 ∧ t.1.2 ∈ fractal_list.*1.*2.
Proof.
  intros Ht. split; (apply list_elem_of_fmap; exists t.1; split; [done|];
    apply list_elem_of_fmap; by exists t).
Qed.

(** A sample's pair of ranks is [(i, j)] exactly when its x equals the
    [i]-th and its y the [j]-th distinct value. *)
Lemma ranked_at (fractal_list : list (A * A * Z)) (t : A * A * Z) (i j : nat) :
  Forall (λ a, is_number a = true) (fractal_list.*1.*1) →
  Forall (λ a, is_number a = true) (fractal_list.*1.*2) →
  t ∈ fractal_list →
  (rank_of (np_unique (fractal_list.*1.*1)) t.1.1,
   rank_of (np_unique (fractal_list.*1.*2)) t.1.2) = (i, j)
  ↔ ∃ u v, np_unique (fractal_list.*1.*1) !! i = Some u ∧
           eqb u t.1.1 = true ∧
           np_unique (fractal_list.*1.*2) !! j = Some v ∧
           eqb v t.1.2 = true.
Proof.
  intros Hx Hy Ht. rewrite Forall_forall in Hx, Hy.
  destruct (sample_coordinates fractal_list t Ht) as [Htx Hty].
  destruct (rank_of_number _ _ Htx (Hx _ Htx)) as (u & Hu & Hux & _).
  destruct (rank_of_number _ _ Hty (Hy _ Hty)) as (v & Hv & Hvy & _).
  split.
  - intros [= <- <-]. by exists u, v.
  - intros (u' & v' & Hi & Hu' & Hj & Hv').
    by rewrite (rank_of_lookup _ _ u' i), (rank_of_lookup _ _ v' j)
      by auto using np_unique_sorted.
Qed.

(** The image on an axis of NaNs has no pixel. *)
Lemma empty_image_getpixel (fractal_list : list (A * A * Z)) (w h : nat) :
  (w = 0%nat ∧ Forall (λ a, is_number a = false) (fractal_list.*1.*1)) ∨
  (h = 0%nat ∧ Forall (λ a, is_number a = false) (fractal_list.*1.*2)) →
  ∀ i j,
    (member_at fractal_list i j →
     getpixel (Image_new (w, h)) (i, j) = Some (255, 255, 255)) ∧
    ((i < w)%nat → (j < h)%nat →
     ¬ member_at fractal_list i j →
     getpixel (Image_new (w, h)) (i, j) = Some (0, 0, 0)) ∧
    (¬ ((i < w)%nat ∧ (j < h)%nat) →
     getpixel (Image_new (w, h)) (i, j) = None).
Proof.
  intros Hempty i j. split; [|split].
  - intros (t & u & v & Ht & _ & _ & Hu & _ & Hv).
    destruct (sample_coordinates fractal_list t Ht) as [Htx Hty].
    destruct Hempty as [[_ Hnan]|[_ Hnan]]; rewrite Forall_forall in Hnan.
    + apply eqb_number_r in Hu. rewrite (Hnan _ Htx) in Hu. done.
    + apply eqb_number_r in Hv. rewrite (Hnan _ Hty) in Hv. done.
  - destruct Hempty as [[-> _]|[-> _]]; lia.
  - intros Hout. rewrite Image_new_getpixel. by rewrite decide_False.
Qed.

Lemma draw_fractal_getpixel (fractal_list : list (A * A * Z)) (im : image) :
  draw_fractal fractal_list = Ok im →
  well_formed im ∧
  (Forall (λ a, is_number a = true) (fractal_list.*1.*1) →
   Forall (λ a, is_number a = true) (fractal_list.*1.*2) →
   im_size im = (length (np_unique (fractal_list.*1.*1)),
                 length (np_unique (fractal_list.*1.*2)))) ∧
  ∀ i j,
    (member_at fractal_list i j → getpixel im (i, j) = Some (255, 255, 255)) ∧
    ((i < (im_size im).1)%nat → (j < (im_size im).2)%nat →
     ¬ member_at fractal_list i j → getpixel im (i, j) = Some (0, 0, 0)) ∧
    (¬ ((i < (im_size im).1)%nat ∧ (j < (im_size im).2)%nat) →
     getpixel im (i, j) = None).
Proof.
  intros Hdraw.
  assert (fractal_list ≠ []) as Hne by (by intros ->).
  assert (draw_fractal fractal_list
          = (x ← get_ranks (fractal_list.*1.*1);
             y ← get_ranks (fractal_list.*1.*2);
             raster x y (fractal_list.*2))) as Hunfold
    by (by destruct fractal_list).
  destruct (get_ranks_cases (fractal_list.*1.*1))
    as [[Hx Hrx]|[[Hx Hrx]|(_ & _ & Hrx)]];
    [| |by rewrite Hunfold, Hrx in Hdraw];
    (destruct (get_ranks_cases (fractal_list.*1.*2))
       as [[Hy Hry]|[[Hy Hry]|(_ & _ & Hry)]];
     [| |by rewrite Hunfold, Hrx, Hry in Hdraw]).
  - destruct (draw_fractal_ok fractal_list Hne Hx Hy) as (im0 & Him0 & Hsize).
    rewrite Hdraw in Him0. injection Him0 as <-.
    rewrite draw_fractal_numbers in Hdraw by done.
    apply paint_fold_getpixel in Hdraw as [Hwf Hpix];
      [|apply Image_new_well_formed].
    split; [done|]. split; [done|]. intros i j.
    assert (Exists (λ p : nat * nat * Z, p.1 = (i, j) ∧ p.2 ≠ 0)
              ((λ t, (rank_of (np_unique (fractal_list.*1.*1)) t.1.1,
                      rank_of (np_unique (fractal_list.*1.*2)) t.1.2, t.2))
                 <$> fractal_list)
            ↔ member_at fractal_list i j) as Hpainted.
    { rewrite Exists_exists. unfold member_at. split.
      - intros (p & (t & -> & Ht)%list_elem_of_fmap & Hxy & Hc). simpl in *.
        apply ranked_at in Hxy as (u & v & Hu & Hux & Hv & Hvy); [|done..].
        by exists t, u, v.
      - intros (t & u & v & Ht & Hc & Hu & Hux & Hv & Hvy). eexists. split.
        + apply list_elem_of_fmap. by exists t.
        + simpl. split; [|done]. apply ranked_at; [done..|]. by exists u, v. }
    rewrite Hpix, Image_new_getpixel, Hsize. simpl.
    split; [|split].
    + intros Hm. by rewrite decide_True by (by apply Hpainted).
    + intros Hi Hj Hm. rewrite decide_False by (by rewrite Hpainted).
      by rewrite decide_True.
    + intros Hout.
      assert (¬ member_at fractal_list i j) as Hm.
      { intros (t & u & v & _ & _ & Hi & _ & Hj & _). apply Hout.
        split; by eapply lookup_lt_Some. }
      rewrite decide_False by (by rewrite Hpainted).
      by rewrite decide_False.
  - rewrite Hunfold, Hrx, Hry in Hdraw. cbn [mbind result_bind] in Hdraw.
    rewrite raster_nil_r in Hdraw. injection Hdraw as <-.
    split; [apply Image_new_well_formed|]. split.
    + intros _ Hnum. destruct fractal_list as [|t l]; [done|].
      apply Forall_cons_1 in Hy as [Hnan _].
      apply Forall_cons_1 in Hnum as [Hnum _]. congruence.
    + apply empty_image_getpixel. by right.
  - rewrite Hunfold, Hrx, Hry in Hdraw. cbn [mbind result_bind] in Hdraw.
    rewrite raster_nil_l in Hdraw. injection Hdraw as <-.
    split; [apply Image_new_well_formed|]. split.
    + intros Hnum _. destruct fractal_list as [|t l]; [done|].
      apply Forall_cons_1 in Hx as [Hnan _].
      apply Forall_cons_1 in Hnum as [Hnum _]. congruence.
    + apply empty_image_getpixel. by left.
  - rewrite Hunfold, Hrx, Hry in Hdraw. cbn [mbind result_bind] in Hdraw.
    rewrite raster_nil_l in Hdraw. injection Hdraw as <-.
    split; [apply Image_new_well_formed|]. split.
    + intros Hnum _. destruct fractal_list as [|t l]; [done|].
      apply Forall_cons_1 in Hx as [Hnan _].
      apply Forall_cons_1 in Hnum as [Hnum _]. congruence.
    + apply empty_image_getpixel. by left.
Qed.

(** X7: in the image drawn from a list of samples, the pixel [(i, j)] is
    white when some sample with a colour other than 0 has an x equal to the
    [i]-th distinct x-value and a y equal to the [j]-th distinct y-value,
    black when the pixel lies in the image and no such sample exists, and
    absent otherwise; every row of the image is as long as the image is
    wide.  A sample with a NaN for a coordinate equals no value and paints
    nothing. *)
Theorem draw_fractal_paints_members (fractal_list : list (A * A * Z)) (im : image) :
  draw_fractal fractal_list = Ok im →
  well_formed im ∧
  ∀ i j,
    (member_at fractal_list i j → getpixel im (i, j) = Some (255, 255, 255)) ∧
    ((i < (im_size im).1)%nat → (j < (im_size im).2)%nat →
     ¬ member_at fractal_list i j → getpixel im (i, j) = Some (0, 0, 0)) ∧
    (¬ ((i < (im_size im).1)%nat ∧ (j < (im_size im).2)%nat) →
     getpixel im (i, j) = None).
Proof.
  intros Hdraw.
  destruct (draw_fractal_getpixel fractal_list im Hdraw) as (Hwf & _ & Hpix).
  split; [exact Hwf|exact Hpix].
Qed.
End RasterPixels.

Lemma draw_fractal_paints_members_witness :
  ∃ im, draw_fractal [(3%float, 1%float, 1); (1%float, 1%float, 0);
                      (2%float, 5%float, 1)] = Ok im ∧
        getpixel im (2%nat, 0%nat) = Some (255, 255, 255) ∧
        getpixel im (0%nat, 0%nat) = Some (0, 0, 0) ∧
        getpixel im (3%nat, 0%nat) = None.
Proof.
  destruct (draw_fractal [(3%float, 1%float, 1); (1%float, 1%float, 0);
                          (2%float, 5%float, 1)]) as [im|e] eqn:Hdraw;
    [|vm_compute in Hdraw; discriminate Hdraw].
  exists im. split; [reflexivity|].
  destruct (draw_fractal_paints_members (A:=float) _ im Hdraw) as [_ Hpix].
  assert (im_size im = (3%nat, 2%nat)) as Hsize
    by (vm_compute in Hdraw; by injection Hdraw as <-).
  split; [|split].
  - apply (Hpix 2%nat 0%nat).
    exists (3%float, 1%float, 1), 3%float, 1%float.
    split; [by left|]. split; [done|]. repeat split; reflexivity.
  - apply (Hpix 0%nat 0%nat); [rewrite Hsize; simpl; lia..|].
    intros (t & u & v & Ht & Hc & Hi & Hu & Hj & Hv). revert Ht Hc Hi Hu Hj Hv.
    rewrite !elem_of_cons, elem_of_nil.
    intros [->|[->|[->|[]]]] Hc [= <-] Hu [= <-] Hv; done.
  - apply (Hpix 3%nat 0%nat). rewrite Hsize. simpl. lia.
Defined.

(** ** A grid with fewer columns than workers *)

Section EmptyGrid.
Context {R : Type} `{Number R} `{Power R} `{Comparable R}.

Lemma get_xy_pairs_all_empty (W side_size : Z) (xrange yrange : R * R) :
  1 ≤ side_size → side_size < W →
  get_xy_pairs W W side_size xrange yrange = Ok (replicate (Z.to_nat W) []).
Proof.
  intros Hn HW.
  destruct (get_xy_pairs_partition W side_size xrange yrange) as
    (xs & ys & bands & _ & _ & _ & _ & Hbands & Hlen & Hband & _); [lia|lia|].
  rewrite Hbands. f_equal. apply list_eq. intros i.
  destruct (decide (i < Z.to_nat W)%nat) as [Hi|Hi].
  - destruct (Hband i Hi) as (-> & _).
    rewrite Z.div_small by lia. by rewrite lookup_replicate_2.
  - rewrite !lookup_ge_None_2; [done| |]; rewrite ?length_replicate; lia.
Qed.

(** X9: with [1 <= side_size < W] a run in which every worker returns
    leaves a collection without a single sample, whatever an earlier run
    had left in it, and the drawing of line 137 raises [IndexError]. *)
Theorem fewer_columns_than_workers_cannot_draw
    (W side_size steps : Z) (xrange yrange : R * R)
    (job_pairs : list (list (R * R))) (d0 : dict (list (R * R * Z)))
    (es : list event) (p : pool) :
  1 ≤ side_size → side_size < W →
  get_xy_pairs W W side_size xrange yrange = Ok job_pairs →
  NoDup (dict_keys d0) → (∀ k, k ∈ dict_keys d0 → 0 ≤ k < W) →
  pool_run steps job_pairs es (started job_pairs d0) p →
  Forall is_return es → joined p →
  collect (return_dict p) = [] ∧ render p = Raise IndexError.
Proof.
  intros Hn HW Hpairs Hnd Hkeys Hrun Hret Hjoin.
  rewrite get_xy_pairs_all_empty in Hpairs by done. injection Hpairs as <-.
  destruct (returned_collection steps (replicate (Z.to_nat W) []) d0 es p Hnd)
    as (results & Hresults & _ & _ & Hcollect);
    [by rewrite length_replicate, Z2Nat.id by lia|done..|].
  assert (collect (return_dict p) = []) as Hnil.
  { apply Permutation_nil_r. rewrite Hcollect.
    apply result_mapM_Ok in Hresults. clear -Hresults.
    revert results Hresults.
    induction (Z.to_nat W) as [|n IH]; intros results Hresults.
    - by apply Forall2_nil_inv_l in Hresults as ->.
    - simpl in Hresults.
      apply Forall2_cons_inv_l in Hresults as (l & ls & [= <-] & Hls & ->).
      simpl. by apply IH. }
  split; [done|]. unfold render. by rewrite Hnil.
Qed.
End EmptyGrid.

Lemma fewer_columns_than_workers_cannot_draw_witness :
  ∃ p : pool (R:=float),
    pool_run (H0:=float_power (H:=rounded_libm)) 50 [[]; []; []]
      [Returns 2; Returns 0; Returns 1] (started [[]; []; []] []) p ∧
    render p = Raise IndexError.
Proof.
  assert (∃ p : pool (R:=float),
            pool_run (H0:=float_power (H:=rounded_libm)) 50 [[]; []; []]
              [Returns 2; Returns 0; Returns 1]
              (started [[]; []; []] []) p ∧ joined p) as (p & Hrun & Hjoin).
  { eexists. split.
    - eapply run_cons; [eapply step_returns; [is_alive|reflexivity|reflexivity]|].
      eapply run_cons; [eapply step_returns; [is_alive|reflexivity|reflexivity]|].
      eapply run_cons; [eapply step_returns; [is_alive|reflexivity|reflexivity]|].
      apply run_nil.
    - reflexivity. }
  exists p. split; [exact Hrun|].
  apply (fewer_columns_than_workers_cannot_draw (R:=float)
           (H0:=float_power (H:=rounded_libm)) 3 2 50
           (-2, 1)%float (-1.5, 1.5)%float [[]; []; []] []
           [Returns 2; Returns 0; Returns 1] p);
    [lia|lia|vm_compute; reflexivity|constructor|by intros k ?%elem_of_nil
    |exact Hrun|by repeat constructor|exact Hjoin].
Defined.

(** ** The grid in exact arithmetic *)

Section ExactAxis.
Local Open Scope Q_scope.

Lemma Qc_before_iff (a b : Qc) : before a b ↔ a < b.
Proof.
  rewrite before_ltb. simpl.
  rewrite negb_true_iff, <- not_true_iff_false, Qle_bool_iff.
  split; [apply Qnot_le_lt|apply Qlt_not_le].
Qed.

Lemma Qc_grid_value (lo step : Qc) (i : Z) :
  this (lo + of_int i * step)%num == lo + inject_Z i * step.
Proof. simpl. by rewrite !Qred_correct. Qed.

Lemma Qc_step_positive (lo hi : Qc) (n : Z) :
  lo < hi → (0 < n)%Z → 0 < this ((hi - lo) / of_int n)%num.
Proof.
  intros Hlt Hn. simpl. rewrite !Qred_correct.
  assert (0 < inject_Z n) as Hn'
    by (change 0 with (inject_Z 0); by rewrite <- Zlt_Qlt).
  apply Qmult_lt_0_compat; [lra|by apply Qinv_lt_0_compat].
Qed.

Lemma Qc_oriented_lt (a b : Qc) :
  a ≠ b → this (oriented (a, b)).1 < this (oriented (a, b)).2.
Proof.
  intros Hne. unfold oriented. simpl.
  destruct (Qle_bool a b) eqn:Hab; simpl.
  - apply Qle_bool_iff, Qle_lt_or_eq in Hab as [?|Heq]; [done|].
    by apply Qc_is_canon in Heq.
  - apply Qnot_le_lt. intros Hle%Qle_bool_iff. congruence.
Qed.

Lemma seqZ_sorted (m n : Z) : StronglySorted Z.lt (seqZ m n).
Proof.
  unfold seqZ. apply (StronglySorted_fmap _ (before (A:=nat))); [|apply seq_sorted].
  intros i j Hij%before_ltb. simpl in Hij.
  apply Nat.ltb_lt in Hij. lia.
Qed.

Lemma Qc_grid_values_sorted (lo step : Qc) (n : Z) :
  0 < this step → StronglySorted before (grid_values lo step n).
Proof.
  intros Hstep. unfold grid_values, range.
  apply (StronglySorted_fmap _ Z.lt); [|apply seqZ_sorted].
  intros i j Hij. apply Qc_before_iff. rewrite !Qc_grid_value.
  apply Qplus_lt_r, Qmult_lt_r; [done|]. by rewrite <- Zlt_Qlt.
Qed.

Lemma Qc_axis_values_sorted (side_size : Z) (a b : Qc) (values : list Qc) :
  (1 ≤ side_size)%Z → a ≠ b →
  axis_values side_size (a, b) = Ok values → StronglySorted before values.
Proof.
  intros Hn Hne. rewrite axis_values_ok by lia. intros [= <-].
  apply Qc_grid_values_sorted, Qc_step_positive; [|lia].
  by apply Qc_oriented_lt.
Qed.

(** X10: in exact arithmetic an axis whose two endpoints differ, in
    either order, has its [side_size] values in strictly ascending order,
    so all distinct; an axis whose endpoints coincide has every value
    equal to that endpoint. *)
Theorem exact_axis_ascending (side_size : Z) (a b : Qc) (values : list Qc) :
  (1 ≤ side_size)%Z →
  axis_values side_size (a, b) = Ok values →
  (a ≠ b → StronglySorted before values ∧ NoDup values ∧
           np_unique values = values) ∧
  (a = b → ∀ v, v ∈ values → v = a).
Proof.
  intros Hn Hvalues. split.
  - intros Hne.
    pose proof (Qc_axis_values_sorted side_size a b values Hn Hne Hvalues) as Hs.
    split; [done|]. split; [by apply StronglySorted_before_NoDup|].
    by apply np_unique_characterised.
  - intros <- v Hv. rewrite axis_values_ok in Hvalues by lia.
    injection Hvalues as <-.
    apply list_elem_of_fmap in Hv as (i & -> & _).
    unfold oriented.
    cbn [num_add num_mul num_sub num_div num_gt of_int Qc_number].
    destruct (Qle_bool a a); cbn [negb fst snd]; unfold Qcdiv; ring.
Qed.
End ExactAxis.

Lemma exact_axis_ascending_witness :
  ∃ values, axis_values (R:=Qc) 4 (1%Qc, Q2Qc (-2)) = Ok values ∧
            NoDup values ∧ np_unique values = values.
Proof.
  destruct (axis_values_spec (R:=Qc) 4 (1%Qc, Q2Qc (-2)) ltac:(lia))
    as (values & Hvalues & _).
  exists values. split; [exact Hvalues|].
  destruct (exact_axis_ascending 4 1%Qc (Q2Qc (-2)) values ltac:(lia) Hvalues)
    as [Hdiffer _].
  apply Hdiffer. discriminate.
Defined.

(** ** From the grid to the image *)

Lemma result_mapM_concat {A B} (f : A → result B) (ls : list (list A))
    (results : list (list B)) :
  mapM (λ l, mapM f l) ls = Ok results →
  mapM f (concat ls) = Ok (concat results).
Proof.
  rewrite !result_mapM_Ok.
  induction 1 as [|l k ls ks Hl%result_mapM_Ok _ IH]; [constructor|].
  simpl. by apply Forall2_app.
Qed.

Section GridSamples.
Context {R : Type} `{Number R} `{Power R}.

Lemma pairs_of_app (xs1 xs2 ys : list R) :
  pairs_of (xs1 ++ xs2) ys = pairs_of xs1 ys ++ pairs_of xs2 ys.
Proof.
  induction xs1 as [|x xs1 IH]; [done|].
  by rewrite <- app_comm_cons, !pairs_of_cons, IH, app_assoc.
Qed.

Lemma pairs_of_elem_of (xs ys : list R) (x y : R) :
  (x, y) ∈ pairs_of xs ys ↔ x ∈ xs ∧ y ∈ ys.
Proof.
  induction xs as [|x' xs IH].
  - split; [by intros ?%elem_of_nil|by intros [?%elem_of_nil _]].
  - rewrite pairs_of_cons, elem_of_app, IH, list_elem_of_fmap, elem_of_cons.
    split.
    + intros [(y' & [= -> ->] & Hy)|[Hx Hy]]; auto.
    + intros [[->|Hx] Hy]; [left; by exists y|by right].
Qed.

Lemma pairs_of_bands (xs ys : list R) (len w : nat) :
  concat ((λ i, pairs_of (band_slice xs len i) ys) <$> seq 0 w)
  = pairs_of (take (w * len) xs) ys.
Proof.
  rewrite <- band_slice_concat.
  induction (seq 0 w) as [|i l IH]; [done|].
  rewrite !fmap_cons, !concat_cons, pairs_of_app. by f_equal.
Qed.

(** The collection after a run of [W] workers that all returned: the
    first [W * (side_size / W)] x-values with every y-value, classified,
    each sample once. *)
Lemma returned_grid
    (W side_size steps : Z) (xrange yrange : R * R) (x_values y_values : list R)
    (job_pairs : list (list (R * R))) (d0 : dict (list (R * R * Z)))
    (es : list event) (p : pool) :
  1 ≤ W → 1 ≤ side_size →
  axis_values side_size xrange = Ok x_values →
  axis_values side_size yrange = Ok y_values →
  get_xy_pairs W W side_size xrange yrange = Ok job_pairs →
  NoDup (dict_keys d0) → (∀ k, k ∈ dict_keys d0 → 0 ≤ k < W) →
  pool_run steps job_pairs es (started job_pairs d0) p →
  Forall is_return es → joined p →
  length x_values = Z.to_nat side_size ∧
  length y_values = Z.to_nat side_size ∧
  ∃ l,
    return_list
      (pairs_of (take (Z.to_nat W * Z.to_nat (side_size / W)) x_values)
                y_values) steps = Ok l ∧
    collect (return_dict p) ≡ₚ l.
Proof.
  intros HW Hn Hxs Hys Hpairs Hnd Hkeys Hrun Hret Hjoin.
  destruct (get_xy_pairs_bands W side_size xrange yrange HW Hn)
    as (xs & ys & Hxs' & Hys' & Hlx & Hly & Hbands).
  rewrite Hxs in Hxs'. injection Hxs' as <-.
  rewrite Hys in Hys'. injection Hys' as <-.
  rewrite Hpairs, Z.quot_div_nonneg in Hbands by lia. injection Hbands as Hbands.
  destruct (returned_collection steps job_pairs d0 es p Hnd)
    as (results & Hresults & _ & _ & Hcollect); [|done..|].
  { intros k Hk. rewrite Hbands, length_fmap, length_seq.
    specialize (Hkeys k Hk). lia. }
  split; [done|]. split; [done|]. exists (concat results). split; [|done].
  unfold return_list. rewrite <- pairs_of_bands, <- Hbands.
  by apply result_mapM_concat.
Qed.
End GridSamples.

Section GridImage.
Context {R : Type} `{Number R} `{Power R} `{Comparable R} `{!TotalOrderLaws R}.

Lemma take_sorted (n : nat) (l : list R) :
  StronglySorted before l → StronglySorted before (take n l).
Proof.
  intros Hs. rewrite <- (take_drop n l) in Hs.
  by apply StronglySorted_app_1_l in Hs.
Qed.

(** The columns of a grid with sorted axes: the distinct x-values are the
    grid's x-values and the distinct y-values its y-values. *)
Lemma grid_columns (xs ys : list R) :
  xs ≠ [] → ys ≠ [] →
  StronglySorted before xs → StronglySorted before ys →
  np_unique ((pairs_of xs ys).*1) = xs ∧
  np_unique ((pairs_of xs ys).*2) = ys.
Proof.
  intros Hxs Hys Hsx Hsy.
  destruct xs as [|x0 xs'] eqn:Ex; [done|]. rewrite <- Ex in *.
  destruct ys as [|y0 ys'] eqn:Ey; [done|]. rewrite <- Ey in *.
  assert (x0 ∈ xs) as Hx0 by (rewrite Ex; left).
  assert (y0 ∈ ys) as Hy0 by (rewrite Ey; left).
  clear Ex Ey.
  split; apply np_unique_characterised; try done; intros a; split.
  - intros Ha. apply list_elem_of_fmap. exists (a, y0). split; [done|].
    by apply pairs_of_elem_of.
  - intros ([x y] & -> & Hxy)%list_elem_of_fmap.
    by apply pairs_of_elem_of in Hxy as [? _].
  - intros Ha. apply list_elem_of_fmap. exists (x0, a). split; [done|].
    by apply pairs_of_elem_of.
  - intros ([x y] & -> & Hxy)%list_elem_of_fmap.
    by apply pairs_of_elem_of in Hxy as [_ ?].
Qed.

(** The image of a classified grid with sorted axes: one pixel per
    sample, at the sample's position in the grid, white for a member. *)
Lemma classified_grid_image (steps : Z) (xs ys : list R)
    (l : list (R * R * Z)) :
  xs ≠ [] → ys ≠ [] →
  StronglySorted before xs → StronglySorted before ys →
  return_list (pairs_of xs ys) steps = Ok l →
  ∃ im, draw_fractal l = Ok im ∧
    im_size im = (length xs, length ys) ∧
    ∀ i j x y, xs !! i = Some x → ys !! j = Some y →
      ∃ b, mandelbrodt_pixel x y steps = Ok b ∧
        getpixel im (i, j)
        = Some (if b then (255, 255, 255) else (0, 0, 0)).
Proof.
  intros Hxs Hys Hsx Hsy Hl.
  destruct (grid_columns xs ys Hxs Hys Hsx Hsy) as [Hux Huy].
  pose proof (return_list_samples _ _ _ Hl) as Hsamples.
  rewrite <- Hsamples in Hux, Huy.
  assert (l ≠ []) as Hne.
  { intros ->. destruct xs as [|x0 ?]; [done|]. destruct ys as [|y0 ?]; [done|].
    by rewrite pairs_of_cons in Hsamples. }
  destruct (draw_fractal_ok l Hne) as (im & Him & _); [apply all_numbers..|].
  destruct (draw_fractal_getpixel l im Him) as (_ & Hsize & Hpix).
  rewrite Hux, Huy in Hsize. specialize (Hsize (all_numbers _) (all_numbers _)).
  exists im. split; [done|]. split; [done|].
  intros i j x y Hi Hj. destruct (Hpix i j) as (Hwhite & Hblack & _).
  apply return_list_Ok in Hl as [_ Hentry].
  assert ((x, y) ∈ pairs_of xs ys) as [k Hk]%list_elem_of_lookup
    by (apply pairs_of_elem_of; split; by eapply list_elem_of_lookup_2).
  destruct (Hentry k x y Hk) as (b & Hb & Hlk).
  exists b. split; [done|]. destruct b.
  - apply Hwhite. exists (x, y, 1), x, y.
    split; [by eapply list_elem_of_lookup_2|]. split; [done|].
    rewrite Hux, Huy. simpl. by rewrite !eqb_refl.
  - apply Hblack.
    + rewrite Hsize. by eapply lookup_lt_Some.
    + rewrite Hsize. by eapply lookup_lt_Some.
    + intros (t & u & v & [k' Hk']%list_elem_of_lookup & Hc & Hu
                & ->%eqb_eq & Hv & ->%eqb_eq).
      rewrite Hux in Hu. rewrite Huy in Hv.
      assert (t.1.1 = x) as Hx by congruence.
      assert (t.1.2 = y) as Hy by congruence.
      assert (pairs_of xs ys !! k' = Some (x, y)) as Hpair.
      { rewrite <- Hsamples, list_lookup_fmap, Hk'. simpl.
        destruct t as [[tx ty] c]. simpl in *. by subst. }
      destruct (Hentry k' x y Hpair) as (b' & Hb' & Hlk').
      assert (b' = false) as -> by congruence.
      rewrite Hlk' in Hk'. injection Hk' as <-. done.
Qed.

(** The image of a run in which all workers returned, for axes in
    strictly ascending order. *)
Lemma returned_run_image
    (W side_size steps : Z) (xrange yrange : R * R) (x_values y_values : list R)
    (job_pairs : list (list (R * R))) (d0 : dict (list (R * R * Z)))
    (es : list event) (p : pool) :
  1 ≤ W → W ≤ side_size →
  axis_values side_size xrange = Ok x_values →
  axis_values side_size yrange = Ok y_values →
  StronglySorted before x_values → StronglySorted before y_values →
  get_xy_pairs W W side_size xrange yrange = Ok job_pairs →
  NoDup (dict_keys d0) → (∀ k, k ∈ dict_keys d0 → 0 ≤ k < W) →
  pool_run steps job_pairs es (started job_pairs d0) p →
  Forall is_return es → joined p →
  ∃ im, render p = Ok im ∧
    im_size im = (Z.to_nat (W * (side_size / W)), Z.to_nat side_size) ∧
    ∀ i j x y,
      (i < Z.to_nat (W * (side_size / W)))%nat →
      x_values !! i = Some x → y_values !! j = Some y →
      ∃ b, mandelbrodt_pixel x y steps = Ok b ∧
        getpixel im (i, j)
        = Some (if b then (255, 255, 255) else (0, 0, 0)).
Proof.
  intros HW Hn Hxs Hys Hsx Hsy Hpairs Hnd Hkeys Hrun Hret Hjoin.
  destruct (returned_grid W side_size steps xrange yrange x_values y_values
              job_pairs d0 es p) as (Hlx & Hly & l & Hl & Hcollect);
    [lia|lia|done..|].
  pose proof (Z.div_le_lower_bound side_size W 1 ltac:(lia) ltac:(lia)) as HL.
  pose proof (Z.mul_div_le side_size W ltac:(lia)) as HWL.
  set (kept := (Z.to_nat W * Z.to_nat (side_size / W))%nat) in *.
  assert (kept = Z.to_nat (W * (side_size / W))) as Hkept by (unfold kept; nia).
  destruct (classified_grid_image steps (take kept x_values) y_values l)
    as (im & Him & Hsize & Hpix).
  - intros Hnil%(f_equal length). rewrite length_take in Hnil. simpl in Hnil. nia.
  - intros Hnil%(f_equal length). simpl in Hnil. lia.
  - by apply take_sorted.
  - done.
  - done.
  - exists im. unfold render. rewrite (draw_fractal_perm _ _ Hcollect).
    split; [done|]. split.
    + rewrite Hsize, length_take, Hly, <- Hkept. f_equal. nia.
    + intros i j x y Hi Hx Hy. apply Hpix; [|done].
      rewrite lookup_take_lt by lia. done.
Qed.
End GridImage.

(** X11: in exact arithmetic, for [1 <= W <= side_size] and two ranges
    whose endpoints differ, the image drawn after a run in which all
    workers returned is [W * (side_size / W)] pixels wide and [side_size]
    high, and its pixel [(i, j)] is white when the sample
    [(x_values[i], y_values[j])] is classified a member and black when it
    is not: the columns dropped by the partition are missing at the right
    edge, and nothing else of the grid is. *)
Theorem exact_run_image
    (W side_size steps : Z) (xrange yrange : Qc * Qc) (x_values y_values : list Qc)
    (job_pairs : list (list (Qc * Qc))) (d0 : dict (list (Qc * Qc * Z)))
    (es : list event) (p : pool) :
  1 ≤ W → W ≤ side_size →
  xrange.1 ≠ xrange.2 → yrange.1 ≠ yrange.2 →
  axis_values side_size xrange = Ok x_values →
  axis_values side_size yrange = Ok y_values →
  get_xy_pairs W W side_size xrange yrange = Ok job_pairs →
  NoDup (dict_keys d0) → (∀ k, k ∈ dict_keys d0 → 0 ≤ k < W) →
  pool_run steps job_pairs es (started job_pairs d0) p →
  Forall is_return es → joined p →
  ∃ im, render p = Ok im ∧
    im_size im = (Z.to_nat (W * (side_size / W)), Z.to_nat side_size) ∧
    ∀ i j x y,
      (i < Z.to_nat (W * (side_size / W)))%nat →
      x_values !! i = Some x → y_values !! j = Some y →
      ∃ b, mandelbrodt_pixel x y steps = Ok b ∧
        getpixel im (i, j)
        = Some (if b then (255, 255, 255) else (0, 0, 0)).
Proof.
  intros HW Hn Hx Hy Hxs Hys Hpairs Hnd Hkeys Hrun Hret Hjoin.
  destruct xrange as [xa xb], yrange as [ya yb]. simpl in Hx, Hy.
  apply (returned_run_image W side_size steps (xa, xb) (ya, yb) x_values
           y_values job_pairs d0 es p); try done.
  - by apply (Qc_axis_values_sorted side_size xa xb); [lia|..].
  - by apply (Qc_axis_values_sorted side_size ya yb); [lia|..].
Qed.

Lemma exact_run_image_witness :
  ∃ job_pairs p im,
    get_xy_pairs (R:=Qc) 2 2 3 (Q2Qc (-2), 1%Qc) (Q2Qc (-(3#2)), Q2Qc (3#2))
      = Ok job_pairs ∧
    pool_run 50 job_pairs [Returns 0; Returns 1] (started job_pairs []) p ∧
    render p = Ok im ∧ im_size im = (2, 3)%nat.
Proof.
  destruct (get_xy_pairs_partition (R:=Qc) 2 3 (Q2Qc (-2), 1%Qc)
              (Q2Qc (-(3#2)), Q2Qc (3#2)))
    as (xs & ys & bands & Hxs & Hys & _ & _ & Hbands & Hlen & Hband & _);
    [lia|lia|].
  destruct (pool_run_returns 50 bands []) as (p & Hrun & Hjoin).
  { intros band _. apply return_list_defined. }
  rewrite Hlen in Hrun.
  change (Returns <$> range (Z.of_nat (Z.to_nat 2)))
    with [Returns 0; Returns 1] in Hrun.
  destruct (exact_run_image 2 3 50 (Q2Qc (-2), 1%Qc)
              (Q2Qc (-(3#2)), Q2Qc (3#2)) xs ys bands []
              [Returns 0; Returns 1] p ltac:(lia) ltac:(lia)
              ltac:(by intros [=]) ltac:(by intros [=]) Hxs Hys Hbands
              ltac:(constructor) ltac:(by intros k ?%elem_of_nil) Hrun
              ltac:(by repeat constructor) Hjoin)
    as (im & Him & Hsize & _).
  exists bands, p, im. split; [exact Hbands|]. split; [exact Hrun|].
  split; [exact Him|exact Hsize].
Defined.

(** ** The loops of [__main__] *)

Section Session.
Context {R : Type} `{Number R} `{Power R} `{Comparable R}.
Variables (W steps : Z) (xrange yrange : R * R) (draw : bool).

Lemma get_xy_pairs_ok_length (side_size : Z) (bands : list (list (R * R))) :
  0 ≤ W → get_xy_pairs W W side_size xrange yrange = Ok bands →
  length bands = Z.to_nat W.
Proof.
  intros HW Hbands.
  destruct (decide (side_size = 0)) as [->|Hn];
    [by rewrite get_xy_pairs_zero_side in Hbands|].
  destruct (decide (W = 0)) as [HW0|HW0];
    [by rewrite HW0, get_xy_pairs_zero_workers in Hbands|].
  destruct (get_xy_pairs_slices W W side_size xrange yrange)
    as (xs & ys & _ & _ & Hslices); [lia|done|lia|].
  rewrite Hbands in Hslices. injection Hslices as ->.
  by rewrite length_fmap, range_length.
Qed.

(** One iteration in which every worker returns: whatever the dictionary
    held before, as long as its keys were among [0 .. W-1], it now holds
    the results of this iteration's bands and nothing else. *)
Lemma iteration_returned (run : Z * Z) (es : list event) (st st' : main_state) :
  0 ≤ W →
  iteration W steps xrange yrange draw run es st st' →
  Forall is_return es →
  NoDup (dict_keys (shared st)) →
  (∀ k, k ∈ dict_keys (shared st) → 0 ≤ k < W) →
  NoDup (dict_keys (shared st')) ∧
  (∀ k, k ∈ dict_keys (shared st') → 0 ≤ k < W) ∧
  length (times st') = S (length (times st)) ∧
  ∃ job_pairs results,
    get_xy_pairs W W run.1 xrange yrange = Ok job_pairs ∧
    mapM (λ band, return_list band steps) job_pairs = Ok results ∧
    collect (shared st') ≡ₚ concat results ∧
    if draw
    then ∃ im, saved st' = saved st ++ [(run, im)] ∧
               draw_fractal (collect (shared st')) = Ok im
    else saved st' = saved st.
Proof.
  intros HW Hit Hret Hnd Hkeys.
  assert (∀ job_pairs p,
    get_xy_pairs W W run.1 xrange yrange = Ok job_pairs →
    pool_run steps job_pairs es (started job_pairs (shared st)) p →
    joined p →
    NoDup (dict_keys (return_dict p)) ∧
    (∀ k, k ∈ dict_keys (return_dict p) → 0 ≤ k < W) ∧
    ∃ results,
      mapM (λ band, return_list band steps) job_pairs = Ok results ∧
      collect (return_dict p) ≡ₚ concat results)
    as Hrun.
  { intros job_pairs p Hpairs Hrun Hjoin.
    pose proof (get_xy_pairs_ok_length _ _ HW Hpairs) as Hlen.
    destruct (returned_collection steps job_pairs (shared st) es p Hnd)
      as (results & Hresults & Hk & _ & Hcollect); [|done..|].
    { intros k Hk. specialize (Hkeys k Hk). lia. }
    split; [|split; [|by exists results]].
    - rewrite Hk. apply NoDup_seqZ.
    - intros k. rewrite Hk, range_elem_of. lia. }
  inversion Hit as [side_size rep es' st0 job_pairs p t Hdraw Hpairs Hpool Hjoin
                   |side_size rep es' st0 job_pairs p t im Hdraw Hpairs Hpool
                      Hjoin Him]; subst; simpl in *.
  - destruct (Hrun job_pairs p Hpairs Hpool Hjoin) as (? & ? & results & ? & ?).
    split; [done|]. split; [done|].
    split; [rewrite length_app; simpl; lia|]. by exists job_pairs, results.
  - destruct (Hrun job_pairs p Hpairs Hpool Hjoin) as (? & ? & results & ? & ?).
    split; [done|]. split; [done|].
    split; [rewrite length_app; simpl; lia|].
    exists job_pairs, results. do 3 (split; [done|]). by exists im.
Qed.

(** Every iteration that ends appends one duration. *)
Lemma main_loop_times (rs : list (Z * Z)) (ess : list (list event))
    (st st' : main_state) :
  main_loop W steps xrange yrange draw rs ess st st' →
  length (times st') = (length (times st) + length rs)%nat.
Proof.
  induction 1 as [st|run es rest ess st st1 st2 Hit _ IH]; [simpl; lia|].
  rewrite IH. inversion Hit; subst; simpl; rewrite length_app; simpl; lia.
Qed.

(** The list of line 142 repeats the sizes as the loops of lines 115-116
    visit them. *)
Lemma sizes_repeated_runs (side_sizes : list Z) (reps : Z) :
  sizes_repeated side_sizes reps = (runs side_sizes reps).*1.
Proof.
  unfold sizes_repeated, runs.
  induction side_sizes as [|n l IH]; [done|].
  rewrite !bind_cons, fmap_app, IH. f_equal. clear IH.
  induction (range reps) as [|r rs IHr]; [done|].
  by rewrite !bind_cons, fmap_app, IHr.
Qed.

(** X12: when the loops have run to their end, the rows written to the
    CSV file are as many as the iterations: row [k] holds the duration
    recorded by iteration [k] next to that iteration's [side_size], and
    [zip] cuts nothing off. *)
Theorem csv_rows_one_per_iteration
    (side_sizes : list Z) (reps : Z) (ess : list (list event)) (st : main_state) :
  main_loop W steps xrange yrange draw (runs side_sizes reps) ess main_start st →
  length (times st) = length (runs side_sizes reps) ∧
  (csv_rows (times st) side_sizes reps).*1 = times st ∧
  (csv_rows (times st) side_sizes reps).*2 = (runs side_sizes reps).*1.
Proof.
  intros Hloop. apply main_loop_times in Hloop. simpl in Hloop.
  split; [done|]. unfold csv_rows. rewrite sizes_repeated_runs.
  split; [apply fst_zip|apply snd_zip]; rewrite length_fmap; lia.
Qed.

Lemma dict_get_values {V} (k : Z) (v : V) (d : dict V) :
  dict_get k d = Some v → v ∈ dict_values d.
Proof.
  unfold dict_values. induction d as [|[k' v'] d IH]; [done|].
  simpl. case_decide.
  - intros [= ->]. left.
  - intros Hd. right. by apply IH.
Qed.

Lemma elem_of_concat_2 {A} (x : A) (l : list A) (ls : list (list A)) :
  x ∈ l → l ∈ ls → x ∈ concat ls.
Proof.
  intros Hx Hl. induction ls as [|l' ls IH]; [by apply elem_of_nil in Hl|].
  simpl. apply elem_of_app. apply elem_of_cons in Hl as [<-|Hl]; auto.
Qed.

(** X13: the dictionary of line 107 is made once and never cleared.  When
    worker [i] returned in one iteration and does not return in the next,
    the dictionary after the second still holds under key [i] the results
    of the first iteration's band [i], and they are among the samples that
    line 137 draws for the second. *)
Theorem dead_worker_results_are_stale
    (run1 run2 : Z * Z) (es1 es2 : list event) (st0 st1 st2 : main_state)
    (i : Z) :
  iteration W steps xrange yrange draw run1 es1 st0 st1 →
  iteration W steps xrange yrange draw run2 es2 st1 st2 →
  Returns i ∈ es1 → Returns i ∉ es2 →
  ∃ job_pairs band l,
    get_xy_pairs W W run1.1 xrange yrange = Ok job_pairs ∧
    py_index job_pairs i = Ok band ∧
    return_list band steps = Ok l ∧
    dict_get i (shared st2) = Some l ∧
    ∀ sample, sample ∈ l → sample ∈ collect (shared st2).
Proof.
  intros Hit1 Hit2 Hret Hdead.
  assert (∃ job_pairs band l,
            get_xy_pairs W W run1.1 xrange yrange = Ok job_pairs ∧
            py_index job_pairs i = Ok band ∧
            return_list band steps = Ok l ∧
            dict_get i (shared st1) = Some l)
    as (job_pairs & band & l & Hpairs & Hband & Hl & Hget1).
  { inversion Hit1 as [? ? ? ? job_pairs p ? ? Hpairs Hpool ?
                      |? ? ? ? job_pairs p ? ? ? Hpairs Hpool ? ?]; subst;
      destruct (pool_run_spec steps job_pairs es1 _ _ Hpool)
        as (_ & Hreturned & _);
      destruct (Hreturned i Hret) as (band & l & Hband & Hl & Hget);
      by exists job_pairs, band, l. }
  assert (dict_get i (shared st2) = dict_get i (shared st1)) as Hget2.
  { inversion Hit2 as [? ? ? ? job_pairs2 p ? ? Hpairs2 Hpool ?
                      |? ? ? ? job_pairs2 p ? ? ? Hpairs2 Hpool ? ?]; subst;
      destruct (pool_run_spec steps job_pairs2 es2 _ _ Hpool)
        as (_ & _ & Hother & _);
      exact (Hother i Hdead). }
  exists job_pairs, band, l. do 3 (split; [done|]).
  rewrite Hget2. split; [done|].
  intros sample Hsample. unfold collect.
  apply (elem_of_concat_2 _ l); [done|].
  apply (dict_get_values i). by rewrite Hget2.
Qed.
End Session.

Section SessionImages.
Context {R : Type} `{Number R} `{Power R} `{Comparable R} `{!OrderLaws R}.
Variables (W steps : Z) (xrange yrange : R * R).

(** The images saved by a loop in which every worker returned, from any
    state of the dictionary whose keys are among [0 .. W-1]. *)
Lemma main_loop_saved (rs : list (Z * Z)) (ess : list (list event))
    (st st' : main_state) :
  0 ≤ W →
  main_loop W steps xrange yrange true rs ess st st' →
  Forall (Forall is_return) ess →
  NoDup (dict_keys (shared st)) →
  (∀ k, k ∈ dict_keys (shared st) → 0 ≤ k < W) →
  ∃ new, saved st' = saved st ++ new ∧
    Forall2 (λ run entry, entry.1 = run ∧
               ∃ job_pairs results,
                 get_xy_pairs W W run.1 xrange yrange = Ok job_pairs ∧
                 mapM (λ band, return_list band steps) job_pairs = Ok results ∧
                 draw_fractal (concat results) = Ok entry.2)
            rs new.
Proof.
  intros HW Hloop.
  induction Hloop as [st|run es rest ess st st1 st2 Hit _ IH];
    intros Hess Hnd Hkeys.
  - exists []. split; [by rewrite app_nil_r|constructor].
  - apply Forall_cons in Hess as [Hes Hess].
    destruct (iteration_returned W steps xrange yrange true _ _ _ _
                HW Hit Hes Hnd Hkeys)
      as (Hnd1 & Hkeys1 & _ & job_pairs & results & Hpairs & Hresults
            & Hcollect & im & Hsaved & Him).
    destruct (IH Hess Hnd1 Hkeys1) as (new & Hnew & Hall).
    exists ((run, im) :: new). split.
    + by rewrite Hnew, Hsaved, <- app_assoc.
    + constructor; [|done]. split; [done|]. exists job_pairs, results.
      do 2 (split; [done|]). simpl.
      by rewrite <- (draw_fractal_perm _ _ Hcollect).
Qed.

(** X14: the dictionary is shared by all iterations, and yet, in a
    session whose workers all return, each saved image is the image of its
    own iteration's grid: it is what [draw_fractal] makes of the lists that
    the jobs return for the bands of [get_xy_pairs] at its [side_size], and
    the images are saved in the order of the iterations, under their
    [side_size] and [rep]. *)
Theorem saved_images_show_their_own_run
    (rs : list (Z * Z)) (ess : list (list event)) (st : main_state) :
  0 ≤ W →
  main_loop W steps xrange yrange true rs ess main_start st →
  Forall (Forall is_return) ess →
  Forall2 (λ run entry, entry.1 = run ∧
             ∃ job_pairs results,
               get_xy_pairs W W run.1 xrange yrange = Ok job_pairs ∧
               mapM (λ band, return_list band steps) job_pairs = Ok results ∧
               draw_fractal (concat results) = Ok entry.2)
          rs (saved st).
Proof.
  intros HW Hloop Hess.
  destruct (main_loop_saved rs ess main_start st HW Hloop Hess)
    as (new & Hnew & Hall).
  - constructor.
  - by intros k ?%elem_of_nil.
  - by rewrite Hnew.
Qed.
End SessionImages.

Section SessionProgress.
Context {R : Type} `{Number R} `{Power R} `{Comparable R}.
Context `{!TotalOrderLaws R} `{!SquaresDefined R}.
Variables (W steps : Z) (xrange yrange : R * R) (draw : bool).

(** With a column for every worker, an iteration in which the workers
    return one after the other runs to its end: no line raises. *)
Lemma iteration_exists (side_size rep : Z) (st : main_state) :
  1 ≤ W → W ≤ side_size →
  NoDup (dict_keys (shared st)) →
  (∀ k, k ∈ dict_keys (shared st) → 0 ≤ k < W) →
  ∃ st', iteration W steps xrange yrange draw (side_size, rep)
           (Returns <$> range W) st st'.
Proof.
  intros HW Hn Hnd Hkeys.
  destruct (get_xy_pairs_partition W side_size xrange yrange)
    as (xs & ys & bands & Hxs & Hys & Hlx & Hly & Hbands & Hlen & _); [lia..|].
  destruct (pool_run_returns steps bands (shared st)) as (p & Hrun & Hjoin).
  { intros band _. apply return_list_defined. }
  rewrite Hlen, Z2Nat.id in Hrun by lia.
  destruct draw eqn:Hdraw.
  - destruct (returned_grid W side_size steps xrange yrange xs ys bands
                (shared st) (Returns <$> range W) p)
      as (_ & _ & l & Hl & Hcollect); [lia|lia|done..| |done|].
    { apply Forall_forall. by intros e (i & -> & _)%list_elem_of_fmap. }
    destruct (draw_fractal_ok (collect (return_dict p))) as (im & Him & _);
      [|apply all_numbers..|].
    { intros Hnil. apply Permutation_length in Hcollect.
      apply return_list_Ok in Hl as [Hlen' _].
      rewrite Hnil, Hlen', pairs_of_length, length_take in Hcollect.
      pose proof (Z.div_le_lower_bound side_size W 1 ltac:(lia) ltac:(lia)).
      assert (1 ≤ Z.to_nat W * Z.to_nat (side_size / W))%nat by nia.
      assert (1 ≤ (Z.to_nat W * Z.to_nat (side_size / W)) `min` length xs)%nat
        by lia.
      simpl in Hcollect. nia. }
    eexists. by eapply (iteration_drawn _ _ _ _ _ _ _ _ _ _ _ 0%float).
  - eexists. by eapply (iteration_timed _ _ _ _ _ _ _ _ _ _ _ 0%float).
Qed.

Lemma main_loop_exists (rs : list (Z * Z)) (st : main_state) :
  1 ≤ W → Forall (λ run, W ≤ run.1) rs →
  NoDup (dict_keys (shared st)) →
  (∀ k, k ∈ dict_keys (shared st) → 0 ≤ k < W) →
  ∃ ess st', main_loop W steps xrange yrange draw rs ess st st' ∧
             Forall (Forall is_return) ess.
Proof.
  intros HW Hrs. revert st.
  induction Hrs as [|[side_size rep] rs Hn _ IH]; intros st Hnd Hkeys.
  - exists [], st. split; constructor.
  - destruct (iteration_exists side_size rep st HW Hn Hnd Hkeys) as (st1 & Hit).
    assert (Forall is_return (Returns <$> range W)) as Hret.
    { apply Forall_forall. by intros e (i & -> & _)%list_elem_of_fmap. }
    destruct (iteration_returned W steps xrange yrange draw _ _ _ _
                ltac:(lia) Hit Hret Hnd Hkeys) as (Hnd1 & Hkeys1 & _).
    destruct (IH st1 Hnd1 Hkeys1) as (ess & st2 & Hloop & Hess).
    exists ((Returns <$> range W) :: ess), st2. split; [|by constructor].
    by eapply main_loop_cons.
Qed.

Lemma runs_sizes (side_sizes : list Z) (reps : Z) (P : Z → Prop) :
  Forall P side_sizes → Forall (λ run, P run.1) (runs side_sizes reps).
Proof.
  rewrite !Forall_forall. intros Hall [n r] Hrun. unfold runs in Hrun.
  apply list_elem_of_bind in Hrun as (n' & Hrun & Hn').
  apply list_elem_of_bind in Hrun as (r' & Hrun & _).
  apply list_elem_of_singleton in Hrun as [= -> ->]. by apply Hall.
Qed.

(** X15: in exact arithmetic, with at least one worker and, for every
    size, at least one column per worker, the loops of lines 115-137 run to
    their end when the workers return: no call of [get_xy_pairs],
    [mandelbrodt_pixel] or [draw_fractal] raises, whether the images are
    drawn or not. *)
Theorem session_runs_to_its_end (side_sizes : list Z) (reps : Z) :
  1 ≤ W → Forall (λ side_size, W ≤ side_size) side_sizes →
  ∃ ess st,
    main_loop W steps xrange yrange draw (runs side_sizes reps) ess
      main_start st ∧
    Forall (Forall is_return) ess ∧
    length ess = length (runs side_sizes reps).
Proof.
  intros HW Hsizes.
  destruct (main_loop_exists (runs side_sizes reps) main_start HW)
    as (ess & st & Hloop & Hess).
  - by apply (runs_sizes side_sizes reps (λ n, W ≤ n)).
  - constructor.
  - by intros k ?%elem_of_nil.
  - exists ess, st. split; [done|]. split; [done|].
    clear Hess. induction Hloop; simpl; congruence.
Qed.
End SessionProgress.


Lemma csv_rows_one_per_iteration_witness :
  ∃ ess st,
    main_loop (R:=Qc) 2 50 (Q2Qc (-2), 1%Qc) (Q2Qc (-(3#2)), Q2Qc (3#2)) false
      (runs [2; 3] 2) ess main_start st ∧
    length (times st) = 4%nat ∧
    (csv_rows (times st) [2; 3] 2).*2 = [2; 2; 3; 3].
Proof.
  destruct (main_loop_exists (R:=Qc) 2 50 (Q2Qc (-2), 1%Qc)
              (Q2Qc (-(3#2)), Q2Qc (3#2)) false (runs [2; 3] 2) main_start)
    as (ess & st & Hloop & _).
  - lia.
  - repeat constructor; simpl; lia.
  - constructor.
  - by intros k ?%elem_of_nil.
  - exists ess, st. split; [exact Hloop|].
    destruct (csv_rows_one_per_iteration 2 50 (Q2Qc (-2), 1%Qc)
                (Q2Qc (-(3#2)), Q2Qc (3#2)) false [2; 3] 2 ess st Hloop)
      as (Hlen & _ & Hsizes).
    split; [exact Hlen|exact Hsizes].
Defined.

Lemma dead_worker_results_are_stale_witness :
  ∃ st1 st2,
    iteration (R:=Qc) 2 50 (Q2Qc (-2), 1%Qc) (Q2Qc (-(3#2)), Q2Qc (3#2)) true
      (4, 0) [Returns 0; Returns 1] main_start st1 ∧
    iteration (R:=Qc) 2 50 (Q2Qc (-2), 1%Qc) (Q2Qc (-(3#2)), Q2Qc (3#2)) true
      (2, 0) [Returns 0; Dies 1] st1 st2 ∧
    ∃ job_pairs band l,
      get_xy_pairs (R:=Qc) 2 2 4 (Q2Qc (-2), 1%Qc) (Q2Qc (-(3#2)), Q2Qc (3#2))
        = Ok job_pairs ∧
      py_index job_pairs 1 = Ok band ∧
      return_list band 50 = Ok l ∧
      dict_get 1 (shared st2) = Some l.
Proof.
  destruct (iteration_exists (R:=Qc) 2 50 (Q2Qc (-2), 1%Qc)
              (Q2Qc (-(3#2)), Q2Qc (3#2)) true 4 0 main_start)
    as (st1 & Hit1); [lia|lia|constructor|by intros k ?%elem_of_nil|].
  change (Returns <$> range 2) with [Returns 0; Returns 1] in Hit1.
  destruct (get_xy_pairs_partition (R:=Qc) 2 2 (Q2Qc (-2), 1%Qc)
              (Q2Qc (-(3#2)), Q2Qc (3#2)))
    as (xs & ys & bands & _ & _ & _ & Hly & Hbands & Hlen & Hband & _);
    [lia|lia|].
  destruct (Hband 0%nat ltac:(simpl; lia)) as (Hb0 & Hl0 & _).
  destruct (return_list_defined (R:=Qc)
              (pairs_of (band_slice xs (Z.to_nat (2 / 2)) 0) ys) 50)
    as [l0 Hlist0].
  assert (∃ p, pool_run 50 bands [Returns 0; Dies 1]
                 (started bands (shared st1)) p ∧ joined p ∧
               collect (return_dict p) ≠ []) as (p & Hrun & Hjoin & Hne).
  { exists (Pool (dict_set 0 l0 (shared st1)) []). split; [|split].
    - unfold started. rewrite Hlen.
      eapply run_cons;
        [eapply (step_returns 50 bands (shared st1) (dict_set 0 l0 (shared st1))
                   _ 0);
           [is_alive|exact (py_index_nat _ 0 _ Hb0)
           |apply mandelbrodt_job_Ok; by exists l0]|].
      eapply run_cons; [apply step_dies; is_alive|].
      apply run_nil.
    - reflexivity.
    - cbn [return_dict]. unfold collect. intros Hnil.
      destruct l0 as [|sample l0'].
      + apply return_list_Ok in Hlist0 as [Hlen0 _].
        rewrite pairs_of_length, Hl0, Hly in Hlen0. discriminate Hlen0.
      + assert (sample ∈ @nil (Qc * Qc * Z)) as Hin; [|by inversion Hin].
        rewrite <- Hnil.
        apply (elem_of_concat_2 _ (sample :: l0')); [left|].
        apply (dict_get_values 0). rewrite dict_get_set. by case_decide. }
  destruct (draw_fractal_ok _ Hne (all_numbers _) (all_numbers _))
    as (im & Him & _).
  pose proof (iteration_drawn (R:=Qc) 2 50 (Q2Qc (-2), 1%Qc)
                (Q2Qc (-(3#2)), Q2Qc (3#2)) true 2 0 [Returns 0; Dies 1] st1
                bands p 0%float im eq_refl Hbands Hrun Hjoin Him) as Hit2.
  eexists st1, _. split; [exact Hit1|]. split; [exact Hit2|].
  destruct (dead_worker_results_are_stale 2 50 (Q2Qc (-2), 1%Qc)
              (Q2Qc (-(3#2)), Q2Qc (3#2)) true (4, 0) (2, 0)
              [Returns 0; Returns 1] [Returns 0; Dies 1] main_start st1 _ 1
              Hit1 Hit2)
    as (job_pairs & band & l & Hpairs & Hindex & Hl & Hget & _).
  - right. left.
  - intros [[=]|[[=]|[]%elem_of_nil]%elem_of_cons]%elem_of_cons.
  - exists job_pairs, band, l. split; [exact Hpairs|].
    split; [exact Hindex|]. split; [exact Hl|exact Hget].
Defined.

Lemma saved_images_show_their_own_run_witness :
  ∃ ess st,
    main_loop (R:=float) (H0:=float_power (H:=rounded_libm)) 2 50
      (-2, 1)%float (-1.5, 1.5)%float true [(2, 0); (4, 0)] ess main_start st ∧
    Forall (Forall is_return) ess ∧
    (saved st).*1 = [(2, 0); (4, 0)].
Proof.
  assert (∃ st,
    main_loop (R:=float) (H0:=float_power (H:=rounded_libm)) 2 50
      (-2, 1)%float (-1.5, 1.5)%float true [(2, 0); (4, 0)]
      [[Returns 1; Returns 0]; [Returns 0; Returns 1]] main_start st)
    as [st Hloop].
  { eexists.
    eapply main_loop_cons; [|eapply main_loop_cons; [|apply main_loop_nil]].
    - eapply (iteration_drawn _ _ _ _ _ _ _ _ _ _ _ 0%float);
        [reflexivity|vm_compute; reflexivity|..].
      + eapply run_cons; [eapply step_returns;
          [is_alive|reflexivity|vm_compute; reflexivity]|].
        eapply run_cons; [eapply step_returns;
          [is_alive|reflexivity|vm_compute; reflexivity]|].
        apply run_nil.
      + reflexivity.
      + vm_compute. reflexivity.
    - eapply (iteration_drawn _ _ _ _ _ _ _ _ _ _ _ 0%float);
        [reflexivity|vm_compute; reflexivity|..].
      + eapply run_cons; [eapply step_returns;
          [is_alive|reflexivity|vm_compute; reflexivity]|].
        eapply run_cons; [eapply step_returns;
          [is_alive|reflexivity|vm_compute; reflexivity]|].
        apply run_nil.
      + reflexivity.
      + vm_compute. reflexivity. }
  exists [[Returns 1; Returns 0]; [Returns 0; Returns 1]], st.
  split; [exact Hloop|]. split; [by repeat constructor|].
  pose proof (saved_images_show_their_own_run
                (H0:=float_power (H:=rounded_libm)) 2 50
                (-2, 1)%float (-1.5, 1.5)%float [(2, 0); (4, 0)] _ st
                ltac:(lia) Hloop ltac:(by repeat constructor)) as Hall.
  repeat (apply Forall2_cons_inv_l in Hall
            as ([? ?] & ? & [<- _] & Hall & ->)).
  by apply Forall2_nil_inv_l in Hall as ->.
Defined.

Lemma session_runs_to_its_end_witness :
  ∃ ess st,
    main_loop (R:=Qc) 2 50 (Q2Qc (-2), 1%Qc) (Q2Qc (-(3#2)), Q2Qc (3#2)) true
      (runs [2; 3] 2) ess main_start st ∧
    Forall (Forall is_return) ess ∧ length ess = 4%nat.
Proof.
  apply (session_runs_to_its_end (R:=Qc) 2 50 (Q2Qc (-2), 1%Qc)
           (Q2Qc (-(3#2)), Q2Qc (3#2)) true [2; 3] 2); [lia|].
  repeat constructor; lia.
Defined.

(** ** The order of a range's endpoints *)

Lemma Qc_oriented_swap (a b : Qc) : oriented (b, a) = oriented (a, b).
Proof.
  unfold oriented. cbn [num_gt Qc_number].
  destruct (Qle_bool b a) eqn:Hba, (Qle_bool a b) eqn:Hab; cbn [negb]; try done.
  - apply Qle_bool_iff in Hba, Hab.
    assert (a = b) as -> by (apply Qc_is_canon; by apply Qle_antisym). done.
  - exfalso. apply not_true_iff_false in Hba, Hab.
    rewrite Qle_bool_iff in Hba, Hab.
    apply Qnot_le_lt in Hba, Hab. exact (Qlt_irrefl _ (Qlt_trans _ _ _ Hba Hab)).
Qed.

(** X16: in exact arithmetic the bands do not depend on the order in which
    a range's endpoints are given, on either axis: lines 58-59 and 63-64
    put them in ascending order before anything is computed from them. *)
Theorem exact_endpoint_order_irrelevant
    (NW w side_size : Z) (a b c d : Qc) :
  get_xy_pairs NW w side_size (b, a) (c, d)
    = get_xy_pairs NW w side_size (a, b) (c, d) ∧
  get_xy_pairs NW w side_size (a, b) (d, c)
    = get_xy_pairs NW w side_size (a, b) (c, d) ∧
  get_xy_pairs NW w side_size (b, a) (d, c)
    = get_xy_pairs NW w side_size (a, b) (c, d).
Proof.
  unfold get_xy_pairs.
  by rewrite (Qc_oriented_swap a b), (Qc_oriented_swap c d).
Qed.

(** ** The option [--num-workers] *)

Section WorkerOption.
Context {R : Type} `{Number R} `{Power R} `{Comparable R}.
Variables (steps : Z) (xrange yrange : R * R) (draw : bool).

(** X17: with [cpu_count() >= 1], the worker count of line 111 is never
    negative, and it is 0 only for [--num-workers 0].  So, for two ranges
    of numbers and a [side_size] that a float holds exactly
    ([|side_size| < 2^53]), the call of line 118 raises
    [ZeroDivisionError] exactly when the option or the [side_size] is 0,
    and otherwise returns as many bands as the option says, or as there
    are cores when the option is negative.  With [--num-workers 0] no
    iteration of the loop runs to its end. *)
Theorem worker_option_outcome (cpu_count num_workers_arg side_size : Z) :
  1 ≤ cpu_count → Z.abs side_size < 2 ^ 53 →
  let W := resolve_workers cpu_count num_workers_arg in
  (get_xy_pairs W W side_size xrange yrange = Raise ZeroDivisionError
   ↔ num_workers_arg = 0 ∨ side_size = 0) ∧
  (num_workers_arg ≠ 0 → side_size ≠ 0 →
   ∃ bands, get_xy_pairs W W side_size xrange yrange = Ok bands ∧
     length bands
     = Z.to_nat (if num_workers_arg <? 0 then cpu_count else num_workers_arg)) ∧
  (num_workers_arg = 0 →
   ∀ run es st st', ¬ iteration W steps xrange yrange draw run es st st').
Proof.
  intros Hcpu _ W.
  assert (0 ≤ W ∧ (W = 0 ↔ num_workers_arg = 0)) as [HW HW0].
  { unfold W, resolve_workers.
    destruct (Z.ltb_spec num_workers_arg 0); lia. }
  assert (num_workers_arg ≠ 0 → side_size ≠ 0 →
          ∃ bands, get_xy_pairs W W side_size xrange yrange = Ok bands ∧
                   length bands = Z.to_nat W) as Hok.
  { intros Harg Hn.
    destruct (get_xy_pairs_slices W W side_size xrange yrange)
      as (xs & ys & _ & _ & Hbands); [lia|done|lia|].
    eexists. split; [exact Hbands|]. by rewrite length_fmap, range_length. }
  split; [|split].
  - split.
    + intros Hraise.
      destruct (decide (num_workers_arg = 0)) as [|Harg]; [by left|].
      destruct (decide (side_size = 0)) as [|Hn]; [by right|].
      destruct (Hok Harg Hn) as (bands & Hbands & _). congruence.
    + intros [Harg| ->]; [|apply get_xy_pairs_zero_side].
      apply HW0 in Harg. rewrite Harg. apply get_xy_pairs_zero_workers.
  - intros Harg Hn. destruct (Hok Harg Hn) as (bands & Hbands & Hlen).
    exists bands. split; [done|]. by rewrite Hlen.
  - intros Harg%HW0 run es st st' Hit.
    inversion Hit as [? ? ? ? ? ? ? ? Hpairs|? ? ? ? ? ? ? ? ? Hpairs]; subst;
      by rewrite Harg, get_xy_pairs_zero_workers in Hpairs.
Qed.
End WorkerOption.

Lemma worker_option_outcome_witness :
  ∃ bands,
    get_xy_pairs (R:=float) (resolve_workers 8 (-1)) (resolve_workers 8 (-1)) 32
      (-2, 1)%float (-1.5, 1.5)%float = Ok bands ∧
    length bands = 8%nat.
Proof.
  destruct (worker_option_outcome (R:=float)
              (H0:=float_power (H:=rounded_libm)) 50 (-2, 1)%float
              (-1.5, 1.5)%float true 8 (-1) 32 ltac:(lia) ltac:(reflexivity))
    as (_ & Hok & _).
  exact (Hok ltac:(lia) ltac:(lia)).
Defined.

(** ** When the drawing raises *)

Section RasterErrors.
Context {A : Type} `{Comparable A} `{!TotalOrderLaws A}.

(** X18: [draw_fractal] raises for the empty list of samples and for no
    other: with at least one sample every [putpixel] of the loop falls
    inside the image, whose width and height are the numbers of distinct
    x-values and y-values. *)
Theorem draw_fractal_raises_only_on_empty (fractal_list : list (A * A * Z)) :
  (fractal_list = [] → draw_fractal fractal_list = Raise IndexError) ∧
  (fractal_list ≠ [] →
   ∃ im, draw_fractal fractal_list = Ok im ∧
     im_size im = (length (np_unique (fractal_list.*1.*1)),
                   length (np_unique (fractal_list.*1.*2))) ∧
     (0 < (im_size im).1 ∧ (im_size im).1 ≤ length fractal_list)%nat ∧
     (0 < (im_size im).2 ∧ (im_size im).2 ≤ length fractal_list)%nat).
Proof.
  split; [by intros ->|]. intros Hne.
  destruct (draw_fractal_ok fractal_list Hne (all_numbers _) (all_numbers _))
    as (im & Him & Hsize).
  exists im. split; [done|]. split; [done|]. rewrite Hsize. simpl.
  assert (∀ l : list A, l ≠ [] →
            (0 < length (np_unique l) ∧ length (np_unique l) ≤ length l)%nat)
    as Hbound.
  { intros l Hl. split.
    - destruct l as [|a l]; [done|].
      assert (a ∈ np_unique (a :: l)) as Ha by (apply np_unique_elem_of; left).
      destruct (np_unique (a :: l)); [by apply elem_of_nil in Ha|simpl; lia].
    - apply submseteq_length, NoDup_submseteq; [apply np_unique_NoDup|].
      intros a. by rewrite np_unique_elem_of. }
  assert (length (fractal_list.*1.*1) = length fractal_list) as Hl1
    by by rewrite !length_fmap.
  assert (length (fractal_list.*1.*2) = length fractal_list) as Hl2
    by by rewrite !length_fmap.
  split.
  - rewrite <- Hl1. apply Hbound. by destruct fractal_list.
  - rewrite <- Hl2. apply Hbound. by destruct fractal_list.
Qed.
End RasterErrors.

Lemma draw_fractal_raises_only_on_empty_witness :
  ∃ im, draw_fractal [(1, 7, 1); (0, 7, 0); (1, 9, 0)] = Ok im ∧
        im_size im = (2, 2)%nat.
Proof.
  destruct (draw_fractal_raises_only_on_empty (A:=Z)
              [(1, 7, 1); (0, 7, 0); (1, 9, 0)]) as (_ & Hok).
  destruct (Hok ltac:(done)) as (im & Him & Hsize & _).
  exists im. split; [exact Him|]. rewrite Hsize. reflexivity.
Defined.
